(** * Campaign: a deposit / allocation / claim ledger

    Shallow embedding of the [Campaign] contract (Solidity ^0.8.26) and the
    proofs of its accounting and life-cycle properties.

    Modelling choices, all taken from the contract and from the execution
    model of its platform:
    - [uint256] and [address] are [N]; every [+=] and [-] of the source is
      a checked operation that aborts the call with [Panic 0x11] when the
      result leaves the 256-bit range (Solidity 0.8 semantics);
    - a [mapping] is a finite map read with a default ([0] or [false]);
    - a function body is a computation over the [World] (the contract's
      storage, the token it talks to, its native-currency balance) that
      either finishes or aborts; [transact] is the call as the platform
      runs it: an aborted call is rolled back to the world it started in;
    - the ERC20 token is an interface ([IERC20]); the properties of the
      ledger are proved for every implementation of it;
    - an external call (token transfer, native-currency send) is a step
      with an outcome (it succeeds or it fails), during which the callee
      may call the contract again. The contract is given twice: first run
      against callees that make no call, then, in [Reentrant], against
      callees that call back as they like; the first is the second with
      the callee [Reentrant.quiet] (lemma [transact_quiet]). *)

From Stdlib Require Import NArith String Lia.
From stdpp Require Import strings list gmap fin_maps.

Local Open Scope N_scope.

(** ** Value types *)

Abbreviation address := N (only parsing).
Abbreviation uint256 := N (only parsing).

Definition MAX_UINT256 : N := 2 ^ 256 - 1.

(** [0.001 ether], in wei. *)
Definition DEPOSIT_FEE : N := 10 ^ 15.

Inductive State := Graduating | Live | Rescue | Ended.

#[global] Instance State_eq_dec : EqDecision State.
Proof. solve_decision. Defined.

(** How a call aborts: a failed [require] with its message, a checked
    arithmetic or array-bounds failure, or a failed [SafeERC20] operation. *)
Inductive error :=
| Revert (reason : string)
| Panic (code : N)
| SafeERC20Failed.

Inductive event :=
| Deposit (depositor : address) (amount fee : uint256)
| StateChanged (newState : State)
| FundsRescued (rescuer : address) (amount : uint256)
| AllocationsSet (user : address) (amount : uint256)
| TokensClaimed (claimer : address) (amount : uint256)
| RemainingTokensRescued (amount : uint256).

(** What a call does to the outside, in order: the events it emits and the
    external calls it issues. *)
Inductive effect :=
| Emit (e : event)
| TokenTransfer (to : address) (amount : uint256)
| TokenTransferFrom (from to : address) (amount : uint256)
| EtherSent (to : address) (value : uint256).

(** ** The token interface *)

(** The three entry points of [IERC20] the contract uses. The first
    address is the caller of the token ([msg.sender] inside the token);
    [None] is a call that reverts or returns [false], which [SafeERC20]
    turns into a revert of the calling function. *)
Class IERC20 (T : Type) := {
  balanceOf : T -> address -> uint256;
  transfer : T -> address -> address -> uint256 -> option T;
  transferFrom : T -> address -> address -> address -> uint256 -> option T
}.

(** ** Storage *)

Record Campaign := {
  title : string;
  tokenAddress : address;
  totalDeposits : uint256;
  owner : address;
  currentState : State;
  feeRecipient : address;
  deposits : gmap N N;
  allocations : gmap N N;
  hasClaimed : gmap N bool;
  depositors : list N;
  (* ReentrancyGuard: [true] while a [nonReentrant] function runs *)
  entered : bool
}.

(** Reading a mapping: an absent key reads as the zero value. *)
Definition rd (m : gmap N N) (a : address) : uint256 := default 0 (m !! a).
Definition rdb (m : gmap N bool) (a : address) : bool := default false (m !! a).

Definition set_totalDeposits (v : uint256) (c : Campaign) : Campaign :=
  {| title := title c; tokenAddress := tokenAddress c; totalDeposits := v;
     owner := owner c; currentState := currentState c;
     feeRecipient := feeRecipient c; deposits := deposits c;
     allocations := allocations c; hasClaimed := hasClaimed c;
     depositors := depositors c; entered := entered c |}.

Definition set_currentState (v : State) (c : Campaign) : Campaign :=
  {| title := title c; tokenAddress := tokenAddress c;
     totalDeposits := totalDeposits c;
     owner := owner c; currentState := v;
     feeRecipient := feeRecipient c; deposits := deposits c;
     allocations := allocations c; hasClaimed := hasClaimed c;
     depositors := depositors c; entered := entered c |}.

Definition set_feeRecipient (v : address) (c : Campaign) : Campaign :=
  {| title := title c; tokenAddress := tokenAddress c;
     totalDeposits := totalDeposits c;
     owner := owner c; currentState := currentState c;
     feeRecipient := v; deposits := deposits c;
     allocations := allocations c; hasClaimed := hasClaimed c;
     depositors := depositors c; entered := entered c |}.

Definition set_deposits (v : gmap N N) (c : Campaign) : Campaign :=
  {| title := title c; tokenAddress := tokenAddress c;
     totalDeposits := totalDeposits c;
     owner := owner c; currentState := currentState c;
     feeRecipient := feeRecipient c; deposits := v;
     allocations := allocations c; hasClaimed := hasClaimed c;
     depositors := depositors c; entered := entered c |}.

Definition set_allocations (v : gmap N N) (c : Campaign) : Campaign :=
  {| title := title c; tokenAddress := tokenAddress c;
     totalDeposits := totalDeposits c;
     owner := owner c; currentState := currentState c;
     feeRecipient := feeRecipient c; deposits := deposits c;
     allocations := v; hasClaimed := hasClaimed c;
     depositors := depositors c; entered := entered c |}.

Definition set_hasClaimed (v : gmap N bool) (c : Campaign) : Campaign :=
  {| title := title c; tokenAddress := tokenAddress c;
     totalDeposits := totalDeposits c;
     owner := owner c; currentState := currentState c;
     feeRecipient := feeRecipient c; deposits := deposits c;
     allocations := allocations c; hasClaimed := v;
     depositors := depositors c; entered := entered c |}.

Definition set_depositors (v : list N) (c : Campaign) : Campaign :=
  {| title := title c; tokenAddress := tokenAddress c;
     totalDeposits := totalDeposits c;
     owner := owner c; currentState := currentState c;
     feeRecipient := feeRecipient c; deposits := deposits c;
     allocations := allocations c; hasClaimed := hasClaimed c;
     depositors := v; entered := entered c |}.

Definition set_entered (v : bool) (c : Campaign) : Campaign :=
  {| title := title c; tokenAddress := tokenAddress c;
     totalDeposits := totalDeposits c;
     owner := owner c; currentState := currentState c;
     feeRecipient := feeRecipient c; deposits := deposits c;
     allocations := allocations c; hasClaimed := hasClaimed c;
     depositors := depositors c; entered := v |}.

(** [deposits[a] = v], [allocations[a] = v], [hasClaimed[a] = v] and
    [depositors.push(a)]. *)
Definition write_deposit (a : address) (v : uint256) (c : Campaign) :=
  set_deposits (<[a := v]> (deposits c)) c.
Definition write_allocation (a : address) (v : uint256) (c : Campaign) :=
  set_allocations (<[a := v]> (allocations c)) c.
Definition write_hasClaimed (a : address) (v : bool) (c : Campaign) :=
  set_hasClaimed (<[a := v]> (hasClaimed c)) c.
Definition push_depositor (a : address) (c : Campaign) :=
  set_depositors (depositors c ++ [a]) c.

(** ** Sums and summaries used by the statements *)

Definition sumN (l : list N) : N := foldr N.add 0 l.

(** The sum of all values of a mapping, and the sum of its nonzero
    values only. *)
Definition sum_map (m : gmap N N) : N := map_fold (fun _ v acc => v + acc) 0 m.
Definition sum_nonzero (m : gmap N N) : N :=
  sum_map (filter (fun kv => kv.2 ≠ 0) m).

(** The token amount a call sends out with [safeTransfer], in total and
    to one address. *)
Definition transferred (log : list effect) : N :=
  sumN (map (fun e => match e with TokenTransfer _ a => a | _ => 0 end) log).
Definition transferred_to (who : address) (log : list effect) : N :=
  sumN (map (fun e => match e with
                      | TokenTransfer to a => if to =? who then a else 0
                      | _ => 0
                      end) log).

(** The transition graph of the life cycle and its reflexive-transitive
    closure. *)
Definition legal_transition (s s' : State) : bool :=
  match s, s' with
  | Graduating, Live | Graduating, Rescue | Live, Ended => true
  | _, _ => false
  end.

Definition advances (s s' : State) : bool :=
  match s, s' with
  | Graduating, _ => true
  | Live, Live | Live, Ended => true
  | Rescue, Rescue => true
  | Ended, Ended => true
  | _, _ => false
  end.

(** The refund loop of [changeStateToRescue] seen as a function of the
    depositor list and the [deposits] mapping: the mapping it leaves and
    the refunds it pays, in order. *)
Fixpoint zeroed (l : list N) (m : gmap N N) : gmap N N :=
  match l with
  | [] => m
  | d :: l' => if 0 <? rd m d then zeroed l' (<[d := 0]> m) else zeroed l' m
  end.

Fixpoint refunds (l : list N) (m : gmap N N) : list (N * N) :=
  match l with
  | [] => []
  | d :: l' =>
      if 0 <? rd m d then (d, rd m d) :: refunds l' (<[d := 0]> m)
      else refunds l' m
  end.

Definition refund_log (r : list (N * N)) : list effect :=
  flat_map (fun da => [TokenTransfer da.1 da.2; Emit (FundsRescued da.1 da.2)]) r.

(** The write loop of [setAllocations] seen as a function: the
    assignments are made left to right, a later one overwriting an
    earlier one for the same user. *)
Definition assign (m : gmap N N) (pairs : list (N * N)) : gmap N N :=
  foldl (fun m ua => <[ua.1 := ua.2]> m) m pairs.

Definition assign_log (pairs : list (N * N)) : list effect :=
  map (fun ua => Emit (AllocationsSet ua.1 ua.2)) pairs.

(** The bookkeeping invariant of the deposit ledger: the running total
    is the sum of the balances, every address with a balance is in the
    depositor list, and no [nonReentrant] function is running. *)
Definition ledger_inv (c : Campaign) : Prop :=
  totalDeposits c = sum_map (deposits c) /\
  (forall a, rd (deposits c) a ≠ 0 -> a ∈ depositors c) /\
  entered c = false.

(** ** The contract *)

Definition constructor (_title : string) (_tokenAddress _owner _feeRecipient : address)
  : error + Campaign :=
  if _feeRecipient =? 0 then inl (Revert "Invalid fee recipient address")
  else inr {| title := _title; tokenAddress := _tokenAddress; totalDeposits := 0;
              owner := _owner; currentState := Graduating;
              feeRecipient := _feeRecipient; deposits := ∅; allocations := ∅;
              hasClaimed := ∅; depositors := []; entered := false |}.

Section Contract.
Context {T : Type} `{IERC20 T}.

(** Everything a call can read or change: the contract's address and
    storage, the state of the token contract, the contract's
    native-currency balance, and which addresses accept a plain
    native-currency call. *)
Record World := {
  this : address;
  storage : Campaign;
  token : T;
  balance : uint256;
  acceptsEther : address -> bool
}.

Definition set_storage (f : Campaign -> Campaign) (w : World) : World :=
  {| this := this w; storage := f (storage w); token := token w;
     balance := balance w; acceptsEther := acceptsEther w |}.
Definition set_token (t : T) (w : World) : World :=
  {| this := this w; storage := storage w; token := t;
     balance := balance w; acceptsEther := acceptsEther w |}.
Definition set_balance (b : uint256) (w : World) : World :=
  {| this := this w; storage := storage w; token := token w;
     balance := b; acceptsEther := acceptsEther w |}.

(** *** Computations: state, effects, abort *)

Inductive result (A : Type) :=
| Ok (a : A) (w : World) (log : list effect)
| Err (e : error) (w : World).
Arguments Ok {A} a w log.
Arguments Err {A} e w.

Definition M (A : Type) := World -> result A.

Definition ret {A} (a : A) : M A := fun w => Ok a w [].

Definition bind {A B} (m : M A) (k : A -> M B) : M B := fun w =>
  match m w with
  | Ok a w1 l1 =>
      match k a w1 with
      | Ok b w2 l2 => Ok b w2 (l1 ++ l2)
      | Err e w2 => Err e w2
      end
  | Err e w1 => Err e w1
  end.

Notation "'do' x <- m ; k" := (bind m (fun x => k))
  (at level 10, x name, m at level 100, k at level 200).
Notation "m ;; k" := (bind m (fun _ => k))
  (at level 100, k at level 200, right associativity).

Definition abort {A} (e : error) : M A := fun w => Err e w.

Definition require (cond : bool) (reason : string) : M unit :=
  if cond then ret tt else abort (Revert reason).

Definition sload {A} (f : Campaign -> A) : M A := fun w => Ok (f (storage w)) w [].
Definition sstore (f : Campaign -> Campaign) : M unit :=
  fun w => Ok tt (set_storage f w) [].
Definition emit (e : event) : M unit := fun w => Ok tt w [Emit e].

(** Checked arithmetic of Solidity 0.8. *)
Definition checked_add (a b : uint256) : M uint256 :=
  if a + b <=? MAX_UINT256 then ret (a + b) else abort (Panic 17).
Definition checked_sub (a b : uint256) : M uint256 :=
  if b <=? a then ret (a - b) else abort (Panic 17).

(** [arr[i]] on an array: out of range is [Panic 0x32]. *)
Definition index (arr : list N) (i : nat) : M N :=
  match arr !! i with
  | Some x => ret x
  | None => abort (Panic 50)
  end.

(** [for (uint256 i = i0; i < i0 + n; i++) acc = body i acc]. In the
    three loops of the contract the bound is the length of an array the
    loop does not change. *)
Fixpoint for_loop {A} (n : nat) (i : nat) (acc : A) (body : nat -> A -> M A) : M A :=
  match n with
  | O => ret acc
  | S n' => do acc' <- body i acc; for_loop n' (S i) acc' body
  end.

(** [SafeERC20.safeTransfer] and [safeTransferFrom], called by the
    contract: the caller of the token is [address(this)]. Here the token
    moves the tokens and returns; [Reentrant.safeTransfer] and
    [Reentrant.safeTransferFrom] are the calls with a token, or a
    receiver it notifies, that calls the contract before it returns. *)
Definition safeTransfer (to : address) (amount : uint256) : M unit := fun w =>
  match transfer (token w) (this w) to amount with
  | Some t' => Ok tt (set_token t' w) [TokenTransfer to amount]
  | None => Err SafeERC20Failed w
  end.

Definition safeTransferFrom (from to : address) (amount : uint256) : M unit := fun w =>
  match transferFrom (token w) (this w) from to amount with
  | Some t' => Ok tt (set_token t' w) [TokenTransferFrom from to amount]
  | None => Err SafeERC20Failed w
  end.

Definition token_balanceOf (a : address) : M uint256 :=
  fun w => Ok (balanceOf (token w) a) w [].

Definition self : M address := fun w => Ok (this w) w [].
Definition self_balance : M uint256 := fun w => Ok (balance w) w [].

(** [(bool sent, ) = to.call{value: v}("")], to a receiver that takes
    the value or refuses it and makes no call of its own;
    [Reentrant.call_value] is the call to a receiver that calls the
    contract before it returns. *)
Definition call_value (to : address) (v : uint256) : M bool := fun w =>
  if (v <=? balance w) && acceptsEther w to
  then Ok true (set_balance (balance w - v) w) [EtherSent to v]
  else Ok false w [].

(** A payable function is entered with [msg.value] already credited. *)
Definition receive_value (v : uint256) : M unit :=
  fun w => Ok tt (set_balance (balance w + v) w) [].

(** *** Modifiers *)

Definition onlyOwner (sender : address) (body : M unit) : M unit :=
  do o <- sload owner;
  require (sender =? o) "Only owner can call this";;
  body.

Definition inState (requiredState : State) (body : M unit) : M unit :=
  do s <- sload currentState;
  require (bool_decide (s = requiredState)) "Invalid state for this action";;
  body.

(** OpenZeppelin's [ReentrancyGuard.nonReentrant]. *)
Definition nonReentrant (body : M unit) : M unit :=
  do e <- sload entered;
  require (negb e) "ReentrancyGuard: reentrant call";;
  sstore (set_entered true);;
  body;;
  sstore (set_entered false).

(** *** Functions *)

Definition deposit (sender : address) (value amount : uint256) : M unit :=
  nonReentrant (
    do s <- sload currentState;
    require (bool_decide (s = Graduating) || bool_decide (s = Live))
      "Deposits are not allowed in the current state";;
    require (value =? DEPOSIT_FEE) "Incorrect ETH fee sent";;
    do recipient <- sload feeRecipient;
    do sent <- call_value recipient value;
    require sent "Failed to transfer ETH fee";;
    do me <- self;
    safeTransferFrom sender me amount;;
    do d <- sload (fun c => rd (deposits c) sender);
    (if d =? 0 then sstore (push_depositor sender) else ret tt);;
    do d <- sload (fun c => rd (deposits c) sender);
    do d' <- checked_add d amount;
    sstore (write_deposit sender d');;
    do t <- sload totalDeposits;
    do t' <- checked_add t amount;
    sstore (set_totalDeposits t');;
    emit (Deposit sender amount value)).

Definition changeStateToLive (sender : address) : M unit :=
  onlyOwner sender (inState Graduating (
    sstore (set_currentState Live);;
    emit (StateChanged Live))).

Definition changeStateToRescue (sender : address) : M unit :=
  onlyOwner sender (inState Graduating (nonReentrant (
    do n <- sload (fun c => length (depositors c));
    for_loop n 0%nat tt (fun i _ =>
      do ds <- sload depositors;
      do depositor <- index ds i;
      do depositAmount <- sload (fun c => rd (deposits c) depositor);
      if 0 <? depositAmount then
        sstore (write_deposit depositor 0);;
        safeTransfer depositor depositAmount;;
        emit (FundsRescued depositor depositAmount)
      else ret tt);;
    sstore (set_totalDeposits 0);;
    sstore (set_currentState Rescue);;
    emit (StateChanged Rescue)))).

Definition changeStateToEnded (sender : address) : M unit :=
  onlyOwner sender (inState Live (
    sstore (set_currentState Ended);;
    emit (StateChanged Ended))).

Definition setAllocations (sender : address) (users : list N) (amounts : list N)
  : M unit :=
  onlyOwner sender (inState Ended (
    require (Nat.eqb (length users) (length amounts)) "Mismatched input lengths";;
    do totalAllocated <-
      for_loop (length users) 0%nat 0 (fun i totalAllocated =>
        do user <- index users i;
        do amount <- index amounts i;
        sstore (write_allocation user amount);;
        do totalAllocated' <- checked_add totalAllocated amount;
        emit (AllocationsSet user amount);;
        ret totalAllocated');
    do t <- sload totalDeposits;
    require (totalAllocated <=? t) "Allocation exceeds deposits")).

Definition claimTokens (sender : address) : M unit :=
  inState Ended (nonReentrant (
    do allocation <- sload (fun c => rd (allocations c) sender);
    require (0 <? allocation) "No tokens allocated";;
    do claimed <- sload (fun c => rdb (hasClaimed c) sender);
    require (negb claimed) "Tokens already claimed";;
    sstore (write_hasClaimed sender true);;
    safeTransfer sender allocation;;
    emit (TokensClaimed sender allocation))).

Definition rescueRemainingTokens (sender : address) : M unit :=
  onlyOwner sender (inState Ended (nonReentrant (
    do n <- sload (fun c => length (depositors c));
    do totalAllocated <-
      for_loop n 0%nat 0 (fun i totalAllocated =>
        do ds <- sload depositors;
        do depositor <- index ds i;
        do a <- sload (fun c => rd (allocations c) depositor);
        checked_add totalAllocated a);
    do me <- self;
    do contractBalance <- token_balanceOf me;
    require (totalAllocated <? contractBalance) "No remaining tokens to rescue";;
    do remaining <- checked_sub contractBalance totalAllocated;
    require (0 <? remaining) "No remaining tokens to rescue";;
    do o <- sload owner;
    safeTransfer o remaining;;
    emit (RemainingTokensRescued remaining)))).

Definition updateFeeRecipient (sender : address) (_feeRecipient : address) : M unit :=
  onlyOwner sender (
    require (negb (_feeRecipient =? 0)) "Invalid fee recipient address";;
    sstore (set_feeRecipient _feeRecipient)).

Definition withdrawEther (sender : address) : M unit :=
  onlyOwner sender (nonReentrant (
    do contractBalance <- self_balance;
    require (0 <? contractBalance) "No ETH to withdraw";;
    do o <- sload owner;
    do sent <- call_value o contractBalance;
    require sent "Failed to withdraw ETH")).

(** The read-only functions. *)
Definition getDepositors (c : Campaign) : list N * list N :=
  (depositors c, map (rd (deposits c)) (depositors c)).
Definition hasAddressClaimed (c : Campaign) (user : address) : bool :=
  rdb (hasClaimed c) user.
Definition getDeposit (c : Campaign) (depositor : address) : uint256 :=
  rd (deposits c) depositor.
Definition getAllocation (c : Campaign) (user : address) : uint256 :=
  rd (allocations c) user.
Definition getDepositedAmount (c : Campaign) (user : address) : uint256 :=
  rd (deposits c) user.

(** *** Calls and transactions *)

Inductive call :=
| Call_deposit (value amount : uint256)
| Call_changeStateToLive
| Call_changeStateToRescue
| Call_changeStateToEnded
| Call_setAllocations (users : list N) (amounts : list N)
| Call_claimTokens
| Call_rescueRemainingTokens
| Call_updateFeeRecipient (_feeRecipient : address)
| Call_withdrawEther.

Definition dispatch (sender : address) (c : call) : M unit :=
  match c with
  | Call_deposit value amount => receive_value value;; deposit sender value amount
  | Call_changeStateToLive => changeStateToLive sender
  | Call_changeStateToRescue => changeStateToRescue sender
  | Call_changeStateToEnded => changeStateToEnded sender
  | Call_setAllocations users amounts => setAllocations sender users amounts
  | Call_claimTokens => claimTokens sender
  | Call_rescueRemainingTokens => rescueRemainingTokens sender
  | Call_updateFeeRecipient r => updateFeeRecipient sender r
  | Call_withdrawEther => withdrawEther sender
  end.

Inductive receipt :=
| Success (log : list effect)
| Failure (e : error).

(** A call as the platform runs it: when the body aborts, every write
    it made (storage, token, balances) is rolled back. *)
Definition transact (w : World) (sender : address) (c : call) : receipt * World :=
  match dispatch sender c w with
  | Ok _ w' log => (Success log, w')
  | Err e _ => (Failure e, w)
  end.

(** A sequence of calls, each by its own sender; failed calls are
    skipped over (they change nothing). *)
Fixpoint transact_all (w : World) (txs : list (address * call)) : World :=
  match txs with
  | [] => w
  | (sender, c) :: txs' => transact_all (snd (transact w sender c)) txs'
  end.

(** *** Executions *)

(** One step of the world: a call to the contract, or anything the
    rest of the chain does (the token and the native balances change,
    the contract's storage does not). *)
Inductive step : World -> World -> Prop :=
| step_call w sender c : step w (snd (transact w sender c))
| step_env w tk bal acc :
    step w {| this := this w; storage := storage w; token := tk;
              balance := bal; acceptsEther := acc |}.

Definition deployed (w : World) : Prop :=
  exists _title _tokenAddress _owner _feeRecipient,
    constructor _title _tokenAddress _owner _feeRecipient = inr (storage w).

Definition reachable (w : World) : Prop :=
  exists w0, deployed w0 /\ rtc step w0 w.

(** A loop over the elements of a list, the view of [for_loop] that
    the proofs use. *)
Fixpoint foldM {X A} (g : X -> A -> M A) (l : list X) (acc : A) : M A :=
  match l with
  | [] => ret acc
  | x :: l' => do acc' <- g x acc; foldM g l' acc'
  end.

(** The body of the refund loop, for one depositor. *)
Definition refund_one (depositor : N) (_ : unit) : M unit :=
  do depositAmount <- sload (fun c => rd (deposits c) depositor);
  if 0 <? depositAmount then
    sstore (write_deposit depositor 0);;
    safeTransfer depositor depositAmount;;
    emit (FundsRescued depositor depositAmount)
  else ret tt.

(** The body of the write loop of [setAllocations], for one pair. *)
Definition allocate_one (ua : N * N) (totalAllocated : N) : M N :=
  sstore (write_allocation ua.1 ua.2);;
  do totalAllocated' <- checked_add totalAllocated ua.2;
  emit (AllocationsSet ua.1 ua.2);;
  ret totalAllocated'.

(** The body of the summing loop of [rescueRemainingTokens]. *)
Definition count_one (depositor : N) (totalAllocated : N) : M N :=
  do a <- sload (fun c => rd (allocations c) depositor);
  checked_add totalAllocated a.

(** What each successful call has done to the storage. *)
Definition storage_effect (sender : address) (c : call) (s s' : Campaign) : Prop :=
  match c with
  | Call_deposit value amount =>
      entered s = false /\
      (currentState s = Graduating \/ currentState s = Live) /\
      totalDeposits s + amount <= MAX_UINT256 /\
      s' = set_totalDeposits (totalDeposits s + amount)
             (write_deposit sender (rd (deposits s) sender + amount)
                (if rd (deposits s) sender =? 0
                 then push_depositor sender s else s))
  | Call_changeStateToLive =>
      sender = owner s /\ currentState s = Graduating /\
      s' = set_currentState Live s
  | Call_changeStateToRescue =>
      sender = owner s /\ currentState s = Graduating /\ entered s = false /\
      s' = set_currentState Rescue (set_totalDeposits 0
             (set_deposits (zeroed (depositors s) (deposits s)) s))
  | Call_changeStateToEnded =>
      sender = owner s /\ currentState s = Live /\
      s' = set_currentState Ended s
  | Call_setAllocations users amounts =>
      sender = owner s /\ currentState s = Ended /\
      length users = length amounts /\
      sumN amounts <= totalDeposits s /\
      s' = set_allocations (assign (allocations s) (zip users amounts)) s
  | Call_claimTokens =>
      currentState s = Ended /\ entered s = false /\
      0 < rd (allocations s) sender /\ rdb (hasClaimed s) sender = false /\
      s' = write_hasClaimed sender true s
  | Call_rescueRemainingTokens =>
      sender = owner s /\ currentState s = Ended /\ s' = s
  | Call_updateFeeRecipient r =>
      sender = owner s /\ r ≠ 0 /\ s' = set_feeRecipient r s
  | Call_withdrawEther => sender = owner s /\ s' = s
  end.

End Contract.

Arguments Ok {T A} a w log.
Arguments Err {T A} e w.

(** ** Call-backs

    An external call hands control to code the contract does not know:
    the fee recipient or the owner when they are paid, the token when it
    is asked to move tokens, and whoever the token notifies.  That code
    can call the contract again before it returns.  A [Callee] is what
    it does: the calls it makes into the contract, in order and each
    with its own sender, given the world it is called in.

    The functions of the previous section are the contract run against
    callees that make no call; the functions of this module run the
    calls the callee makes.  A call-back is an ordinary call: when it
    reverts, its own writes are rolled back and the callee carries on
    (a callee that lets the revert through makes the external call
    itself fail, which [transfer] returning [None] and [acceptsEther]
    returning [false] cover).  Every external call of the contract is
    made inside a [nonReentrant] body, so a call-back into a
    [nonReentrant] function reverts at the guard, before any external
    call of its own: call-backs do not nest, and a call-back runs
    [dispatch]. *)
Module Reentrant.
Section Reentrant.
Context {T : Type} `{IERC20 T}.

Local Notation "'do' x <- m ; k" := (bind m (fun x => k))
  (at level 10, x name, m at level 100, k at level 200).
Local Notation "m ;; k" := (bind m (fun _ => k))
  (at level 100, k at level 200, right associativity).

Record Callee := {
  on_value : @World T -> address -> uint256 -> list (address * call);
  on_transfer : @World T -> address -> uint256 -> list (address * call);
  on_transferFrom :
    @World T -> address -> address -> uint256 -> list (address * call)
}.

(** The callee that makes no call. *)
Definition quiet : Callee :=
  {| on_value := fun _ _ _ => [];
     on_transfer := fun _ _ _ => [];
     on_transferFrom := fun _ _ _ _ => [] |}.

(** The calls a callee makes, one after the other; a call that reverts
    leaves the world as it found it. *)
Fixpoint reenter (calls : list (address * call)) (w : @World T) : @result T unit :=
  match calls with
  | [] => Ok tt w []
  | (sender, c) :: rest =>
      match dispatch sender c w with
      | Ok _ w1 l1 =>
          match reenter rest w1 with
          | Ok u w2 l2 => Ok u w2 (l1 ++ l2)
          | Err e w2 => Err e w2
          end
      | Err _ _ => reenter rest w
      end
  end.

(** [(bool sent, ) = to.call{value: v}("")]: the value moves, then the
    code at [to] runs. (In the bodies of the next three definitions
    [call_value], [safeTransfer] and [safeTransferFrom] are the ones of
    the previous section: the movement of value itself.) *)
Definition call_value (h : Callee) (to : address) (v : uint256) : M bool :=
  do sent <- call_value to v;
  if sent then (fun w => reenter (on_value h w to v) w);; ret true
  else ret false.

(** [safeTransfer] and [safeTransferFrom]: the token moves the tokens
    and runs whatever it runs. *)
Definition safeTransfer (h : Callee) (to : address) (amount : uint256) : M unit :=
  safeTransfer to amount;;
  fun w => reenter (on_transfer h w to amount) w.

Definition safeTransferFrom (h : Callee) (from to : address) (amount : uint256)
  : M unit :=
  safeTransferFrom from to amount;;
  fun w => reenter (on_transferFrom h w from to amount) w.

(** The five functions that make an external call. *)
Definition deposit (h : Callee) (sender : address) (value amount : uint256) : M unit :=
  nonReentrant (
    do s <- sload currentState;
    require (bool_decide (s = Graduating) || bool_decide (s = Live))
      "Deposits are not allowed in the current state";;
    require (value =? DEPOSIT_FEE) "Incorrect ETH fee sent";;
    do recipient <- sload feeRecipient;
    do sent <- call_value h recipient value;
    require sent "Failed to transfer ETH fee";;
    do me <- self;
    safeTransferFrom h sender me amount;;
    do d <- sload (fun c => rd (deposits c) sender);
    (if d =? 0 then sstore (push_depositor sender) else ret tt);;
    do d <- sload (fun c => rd (deposits c) sender);
    do d' <- checked_add d amount;
    sstore (write_deposit sender d');;
    do t <- sload totalDeposits;
    do t' <- checked_add t amount;
    sstore (set_totalDeposits t');;
    emit (Deposit sender amount value)).

Definition changeStateToRescue (h : Callee) (sender : address) : M unit :=
  onlyOwner sender (inState Graduating (nonReentrant (
    do n <- sload (fun c => length (depositors c));
    for_loop n 0%nat tt (fun i _ =>
      do ds <- sload depositors;
      do depositor <- index ds i;
      do depositAmount <- sload (fun c => rd (deposits c) depositor);
      if 0 <? depositAmount then
        sstore (write_deposit depositor 0);;
        safeTransfer h depositor depositAmount;;
        emit (FundsRescued depositor depositAmount)
      else ret tt);;
    sstore (set_totalDeposits 0);;
    sstore (set_currentState Rescue);;
    emit (StateChanged Rescue)))).

Definition claimTokens (h : Callee) (sender : address) : M unit :=
  inState Ended (nonReentrant (
    do allocation <- sload (fun c => rd (allocations c) sender);
    require (0 <? allocation) "No tokens allocated";;
    do claimed <- sload (fun c => rdb (hasClaimed c) sender);
    require (negb claimed) "Tokens already claimed";;
    sstore (write_hasClaimed sender true);;
    safeTransfer h sender allocation;;
    emit (TokensClaimed sender allocation))).

Definition rescueRemainingTokens (h : Callee) (sender : address) : M unit :=
  onlyOwner sender (inState Ended (nonReentrant (
    do n <- sload (fun c => length (depositors c));
    do totalAllocated <-
      for_loop n 0%nat 0 (fun i totalAllocated =>
        do ds <- sload depositors;
        do depositor <- index ds i;
        do a <- sload (fun c => rd (allocations c) depositor);
        checked_add totalAllocated a);
    do me <- self;
    do contractBalance <- token_balanceOf me;
    require (totalAllocated <? contractBalance) "No remaining tokens to rescue";;
    do remaining <- checked_sub contractBalance totalAllocated;
    require (0 <? remaining) "No remaining tokens to rescue";;
    do o <- sload owner;
    safeTransfer h o remaining;;
    emit (RemainingTokensRescued remaining)))).

Definition withdrawEther (h : Callee) (sender : address) : M unit :=
  onlyOwner sender (nonReentrant (
    do contractBalance <- self_balance;
    require (0 <? contractBalance) "No ETH to withdraw";;
    do o <- sload owner;
    do sent <- call_value h o contractBalance;
    require sent "Failed to withdraw ETH")).

(** The body of the refund loop, for one depositor. *)
Definition refund_one (h : Callee) (depositor : N) (_ : unit) : M unit :=
  do depositAmount <- sload (fun c => rd (deposits c) depositor);
  if 0 <? depositAmount then
    sstore (write_deposit depositor 0);;
    safeTransfer h depositor depositAmount;;
    emit (FundsRescued depositor depositAmount)
  else ret tt.

(** The other four make no external call. *)
Definition dispatch (h : Callee) (sender : address) (c : call) : M unit :=
  match c with
  | Call_deposit value amount => receive_value value;; deposit h sender value amount
  | Call_changeStateToLive => changeStateToLive sender
  | Call_changeStateToRescue => changeStateToRescue h sender
  | Call_changeStateToEnded => changeStateToEnded sender
  | Call_setAllocations users amounts => setAllocations sender users amounts
  | Call_claimTokens => claimTokens h sender
  | Call_rescueRemainingTokens => rescueRemainingTokens h sender
  | Call_updateFeeRecipient r => updateFeeRecipient sender r
  | Call_withdrawEther => withdrawEther h sender
  end.

(** A call as the platform runs it: when the body aborts, every write
    made since the call began, the call-backs' included, is rolled
    back. *)
Definition transact (h : Callee) (w : @World T) (sender : address) (c : call)
  : receipt * @World T :=
  match dispatch h sender c w with
  | Ok _ w' log => (Success log, w')
  | Err e _ => (Failure e, w)
  end.

(** The call fails with [e], and the world after it is the world
    before it. *)
Definition fails_with (h : Callee) (w : @World T) (sender : address) (c : call)
    (e : error) : Prop :=
  transact h w sender c = (Failure e, w).

(** Every abort of [m] is with an error in [E]. *)
Definition aborts_in (E : error -> Prop) {A} (m : @M T A) : Prop :=
  forall w e w'', m w = Err e w'' -> E e.

(** One step of the world: a call, against whatever callees, or
    anything the rest of the chain does. *)
Inductive step : @World T -> @World T -> Prop :=
| step_call h w sender c : step w (snd (transact h w sender c))
| step_env w tk bal acc :
    step w {| this := this w; storage := storage w; token := tk;
              balance := bal; acceptsEther := acc |}.

Definition reachable (w : @World T) : Prop :=
  exists w0, deployed w0 /\ rtc step w0 w.

End Reentrant.
End Reentrant.

(** The states a call has written, in order, as its [StateChanged]
    events record them. *)
Definition state_changes (log : list effect) : list State :=
  flat_map (fun x => match x with
                     | Emit (StateChanged s) => [s]
                     | _ => []
                     end) log.

(** An entry of a log that is an event, not a movement of value. *)
Definition is_event (x : effect) : Prop :=
  match x with
  | Emit _ => True
  | _ => False
  end.

(** What one call-back that gets through does to the storage: it is one
    of the four functions without [nonReentrant], each behind its own
    checks. *)
Definition inner_effect (s s' : Campaign) : Prop :=
  (currentState s = Graduating /\ s' = set_currentState Live s) \/
  (currentState s = Live /\ s' = set_currentState Ended s) \/
  (currentState s = Ended /\
   exists pairs, s' = set_allocations (assign (allocations s) pairs) s) \/
  (exists r, r ≠ 0 /\ s' = set_feeRecipient r s).

(** What the call-backs of one external call do, together. *)
Definition inner_reach : Campaign -> Campaign -> Prop := rtc inner_effect.

(** What a successful call has done to the storage when the callees
    call back: the call's own writes, made on what the call-backs left.
    The checks at the entry of the call are made on the storage of
    before; the call-backs leave alone what the call itself writes,
    but for the state, which [changeStateToRescue] writes last. *)
Definition reentrant_effect (sender : address) (c : call) (s s' : Campaign) : Prop :=
  match c with
  | Call_deposit value amount =>
      entered s = false /\
      (currentState s = Graduating \/ currentState s = Live) /\
      totalDeposits s + amount <= MAX_UINT256 /\
      exists s2, inner_reach s s2 /\
        s' = set_totalDeposits (totalDeposits s + amount)
               (write_deposit sender (rd (deposits s) sender + amount)
                  (if rd (deposits s) sender =? 0
                   then push_depositor sender s2 else s2))
  | Call_changeStateToRescue =>
      sender = owner s /\ currentState s = Graduating /\ entered s = false /\
      exists s2, inner_reach s s2 /\
        s' = set_currentState Rescue (set_totalDeposits 0
               (set_deposits (zeroed (depositors s) (deposits s)) s2))
  | Call_claimTokens =>
      currentState s = Ended /\ entered s = false /\
      0 < rd (allocations s) sender /\ rdb (hasClaimed s) sender = false /\
      exists s2, inner_reach s s2 /\ s' = write_hasClaimed sender true s2
  | Call_rescueRemainingTokens =>
      sender = owner s /\ currentState s = Ended /\ entered s = false /\
      inner_reach s s'
  | Call_withdrawEther =>
      sender = owner s /\ entered s = false /\ inner_reach s s'
  | Call_changeStateToLive | Call_changeStateToEnded
  | Call_setAllocations _ _ | Call_updateFeeRecipient _ =>
      storage_effect sender c s s'
  end.

(** Allocations are written in [Ended] only, and the call-backs cannot
    bring the state back from there; a flag is set by a claim only, and
    a claim is not a call-back. *)
Definition allocated_late (s : Campaign) : Prop :=
  (hasClaimed s = ∅ \/ currentState s = Ended) /\
  (allocations s = ∅ \/ currentState s = Ended \/ currentState s = Rescue).

(** The errors the contract raises: the messages of its [require]s and
    of [nonReentrant], the panic of checked arithmetic and of an array
    index out of range, and the failure of a [SafeERC20] call. *)
Definition contract_errors : list error :=
  [Revert "Only owner can call this";
   Revert "Invalid state for this action";
   Revert "ReentrancyGuard: reentrant call";
   Revert "Deposits are not allowed in the current state";
   Revert "Incorrect ETH fee sent";
   Revert "Failed to transfer ETH fee";
   Revert "Mismatched input lengths";
   Revert "Allocation exceeds deposits";
   Revert "No tokens allocated";
   Revert "Tokens already claimed";
   Revert "No remaining tokens to rescue";
   Revert "Invalid fee recipient address";
   Revert "No ETH to withdraw";
   Revert "Failed to withdraw ETH";
   Panic 17; Panic 50; SafeERC20Failed].

(** ** A reference token

    The usual ERC20 bookkeeping (balances and allowances, as in
    OpenZeppelin's [ERC20]); the scenarios below run the contract against
    it. *)
Module ERC20.

Record t := { balances : gmap N N; allowances : gmap (N * N) N }.

Definition _transfer (s : t) (from to : address) (amount : uint256) : option t :=
  if (from =? 0) || (to =? 0) then None
  else if rd (balances s) from <? amount then None
  else
    let b := <[from := rd (balances s) from - amount]> (balances s) in
    Some {| balances := <[to := rd b to + amount]> b; allowances := allowances s |}.

Definition _spendAllowance (s : t) (owner spender : address) (amount : uint256)
  : option t :=
  let currentAllowance := default 0 (allowances s !! (owner, spender)) in
  if currentAllowance =? MAX_UINT256 then Some s
  else if currentAllowance <? amount then None
  else Some {| balances := balances s;
               allowances := <[(owner, spender) := currentAllowance - amount]>
                               (allowances s) |}.

#[global] Instance erc20 : IERC20 t := {
  balanceOf s a := rd (balances s) a;
  transfer s caller to amount := _transfer s caller to amount;
  transferFrom s caller from to amount :=
    match _spendAllowance s from caller amount with
    | Some s' => _transfer s' from to amount
    | None => None
    end
}.

End ERC20.


(** ** A concrete campaign

    The worlds the statements below are exercised on: a campaign
    deployed against the reference token, two depositors with funds and
    approvals, and one address that never deposits. *)

Definition the_owner : N := 1.
Definition the_recipient : N := 2.
Definition alice : N := 10.
Definition bob : N := 11.
Definition carol : N := 12.
Definition token_address : N := 50.
Definition campaign_address : N := 99.

Definition token0 : ERC20.t :=
  {| ERC20.balances := {[ alice := 1000; bob := 1000 ]};
     ERC20.allowances := {[ (alice, campaign_address) := 1000;
                            (bob, campaign_address) := 1000 ]} |}.

Definition campaign0 : Campaign :=
  {| title := "UGC"; tokenAddress := token_address; totalDeposits := 0;
     owner := the_owner; currentState := Graduating;
     feeRecipient := the_recipient; deposits := ∅; allocations := ∅;
     hasClaimed := ∅; depositors := []; entered := false |}.

Definition world0 : @World ERC20.t :=
  {| this := campaign_address; storage := campaign0; token := token0;
     balance := 0; acceptsEther := fun _ => true |}.

(** Both depositors have deposited, the campaign is still [Graduating]. *)
Definition world_funded : @World ERC20.t :=
  transact_all world0
    [(alice, Call_deposit DEPOSIT_FEE 100); (bob, Call_deposit DEPOSIT_FEE 50)].

(** The same deposits made across the life cycle, up to [Ended]. *)
Definition world_ended : @World ERC20.t :=
  transact_all world0
    [(alice, Call_deposit DEPOSIT_FEE 100); (the_owner, Call_changeStateToLive);
     (bob, Call_deposit DEPOSIT_FEE 50); (the_owner, Call_changeStateToEnded)].

(** [Ended], with [alice] allocated 100. *)
Definition world_allocated : @World ERC20.t :=
  transact_all world_ended [(the_owner, Call_setAllocations [alice] [100])].

(** [Ended], with [alice] allocated 100 and then, in a second call,
    [bob] allocated 100. *)
Definition world_overallocated : @World ERC20.t :=
  transact_all world_allocated [(the_owner, Call_setAllocations [bob] [100])].

(** [Ended], with [alice] allocated 100 and [carol], who never deposited,
    allocated 50. *)
Definition world_outsider : @World ERC20.t :=
  transact_all world_ended
    [(the_owner, Call_setAllocations [alice; carol] [100; 50])].

(** [alice] has deposited zero, twice. *)
Definition world_zero_twice : @World ERC20.t :=
  transact_all world0
    [(alice, Call_deposit DEPOSIT_FEE 0); (alice, Call_deposit DEPOSIT_FEE 0)].

(** ** A token that refuses one recipient

    The reference token, except that it refuses every transfer to one
    address (as a token with a block list does); for the refund that
    cannot be paid. *)

Definition dave : N := 13.

Module Refusing.

Record t := { inner : ERC20.t }.

#[global] Instance refusing : IERC20 t := {
  balanceOf s a := balanceOf (inner s) a;
  transfer s caller to amount :=
    if to =? dave then None
    else option_map Build_t (transfer (inner s) caller to amount);
  transferFrom s caller from to amount :=
    option_map Build_t (transferFrom (inner s) caller from to amount)
}.

End Refusing.

Definition world_refusing0 : @World Refusing.t :=
  {| this := campaign_address; storage := campaign0;
     token := {| Refusing.inner :=
                   {| ERC20.balances := {[ alice := 1000; dave := 1000 ]};
                      ERC20.allowances :=
                        {[ (alice, campaign_address) := 1000;
                           (dave, campaign_address) := 1000 ]} |} |};
     balance := 0; acceptsEther := fun _ => true |}.

(** [alice] and [dave] have deposited; the token will not pay [dave]. *)
Definition world_refusing : @World Refusing.t :=
  transact_all world_refusing0
    [(alice, Call_deposit DEPOSIT_FEE 100); (dave, Call_deposit DEPOSIT_FEE 5)].

(** The deployed campaign, holding 7 wei that were forced on it. *)
Definition world_with_ether : @World ERC20.t := set_balance 7 world0.

(** ** An owner that calls back

    The owner is a contract.  It has deposited like anyone else, and
    whenever it is paid, in tokens or in native currency, it calls the
    campaign before it returns: it starts the campaign, ends it and
    allocates 5 to [carol]. *)

Definition token_owner0 : ERC20.t :=
  {| ERC20.balances := {[ the_owner := 1000; alice := 1000 ]};
     ERC20.allowances := {[ (the_owner, campaign_address) := 1000;
                            (alice, campaign_address) := 1000 ]} |}.

Definition world_owner0 : @World ERC20.t :=
  {| this := campaign_address; storage := campaign0; token := token_owner0;
     balance := 0; acceptsEther := fun _ => true |}.

(** The owner and [alice] have deposited, the campaign is [Graduating]. *)
Definition world_owner_funded : @World ERC20.t :=
  transact_all world_owner0
    [(the_owner, Call_deposit DEPOSIT_FEE 10); (alice, Call_deposit DEPOSIT_FEE 100)].

Definition calls_of_the_owner : list (address * call) :=
  [(the_owner, Call_changeStateToLive);
   (the_owner, Call_changeStateToEnded);
   (the_owner, Call_setAllocations [carol] [5])].

Definition owner_calls_back : @Reentrant.Callee ERC20.t :=
  {| Reentrant.on_value := fun _ to _ =>
       if to =? the_owner then calls_of_the_owner else [];
     Reentrant.on_transfer := fun _ to _ =>
       if to =? the_owner then calls_of_the_owner else [];
     Reentrant.on_transferFrom := fun _ _ _ _ => [] |}.

(** The rescue of [world_owner_funded], with the owner calling back when
    it is refunded. *)
Definition world_rescued : @World ERC20.t :=
  snd (Reentrant.transact owner_calls_back world_owner_funded the_owner
         Call_changeStateToRescue).

(** [bob] has deposited 50 and the owner has made itself the fee
    recipient; the campaign is [Graduating]. *)
Definition world_owner_paid : @World ERC20.t :=
  transact_all world0
    [(bob, Call_deposit DEPOSIT_FEE 50);
     (the_owner, Call_updateFeeRecipient the_owner)].

(** ** Further summaries used by the statements *)

(** The functions only the owner may call: all but [deposit] and
    [claimTokens]. *)
Definition owner_only (c : call) : bool :=
  match c with
  | Call_deposit _ _ | Call_claimTokens => false
  | _ => true
  end.

(** The amount the last pair for [user] carries, if the user is among
    the pairs. *)
Fixpoint latest (pairs : list (N * N)) (user : N) : option N :=
  match pairs with
  | [] => None
  | (u, a) :: rest =>
      match latest rest user with
      | Some x => Some x
      | None => if u =? user then Some a else None
      end
  end.

(** ** The allocation script

    [parseCSV] of [scripts/setAllocations.ts]:
    [str.split(",").map((s) => s.trim())]. A JavaScript string is its
    sequence of UTF-16 code units. *)

Definition comma : N := 44.

(** [WhiteSpace] and [LineTerminator] of ECMAScript, what [trim] strips. *)
Definition is_whitespace (c : N) : bool :=
  existsb (N.eqb c)
    [9; 10; 11; 12; 13; 32; 160; 5760; 8232; 8233; 8239; 8287; 12288; 65279]
  || ((8192 <=? c) && (c <=? 8202)).

(** [s.split(sep)] for a separator of one code unit: the empty string
    splits into one empty field. *)
Fixpoint split (sep : N) (s : list N) : list (list N) :=
  match s with
  | [] => [[]]
  | c :: s' =>
      if c =? sep then [] :: split sep s'
      else match split sep s' with
           | field :: fields => (c :: field) :: fields
           | [] => [[c]]
           end
  end.

Fixpoint trimStart (s : list N) : list N :=
  match s with
  | [] => []
  | c :: s' => if is_whitespace c then trimStart s' else s
  end.

Definition trimEnd (s : list N) : list N := rev (trimStart (rev s)).

Definition trim (s : list N) : list N := trimEnd (trimStart s).

Definition parseCSV (str : list N) : list (list N) := map trim (split comma str).

(** [fields.join(",")], the inverse direction. *)
Fixpoint join (fields : list (list N)) : list N :=
  match fields with
  | [] => []
  | [f] => f
  | f :: rest => f ++ comma :: join rest
  end.

(** ** Facts about sums over mappings *)

Lemma rd_insert (m : gmap N N) (k j v : N) :
  rd (<[k := v]> m) j = if decide (k = j) then v else rd m j.
Proof. unfold rd. rewrite lookup_insert. by case_decide. Qed.

Lemma rd_insert_eq (m : gmap N N) (k v : N) : rd (<[k := v]> m) k = v.
Proof. rewrite rd_insert. by case_decide. Qed.

Lemma rd_insert_ne (m : gmap N N) (k j v : N) : k ≠ j -> rd (<[k := v]> m) j = rd m j.
Proof. intros. rewrite rd_insert. by case_decide. Qed.

Lemma rd_empty (k : N) : rd ∅ k = 0.
Proof. unfold rd. by rewrite lookup_empty. Qed.

Lemma sum_map_empty : sum_map ∅ = 0.
Proof. unfold sum_map. by rewrite map_fold_empty. Qed.

Lemma sum_map_insert_fresh (m : gmap N N) (k v : N) :
  m !! k = None -> sum_map (<[k := v]> m) = v + sum_map m.
Proof.
  intros Hk. unfold sum_map. rewrite map_fold_insert_L; [done | | done].
  intros. lia.
Qed.

Lemma sum_map_delete (m : gmap N N) (k : N) :
  sum_map m = rd m k + sum_map (delete k m).
Proof.
  unfold rd. destruct (m !! k) as [x|] eqn:Hk; simpl.
  - rewrite <- (insert_delete_id m k x) at 1 by done.
    rewrite sum_map_insert_fresh; [done | apply lookup_delete_eq].
  - by rewrite delete_id.
Qed.

(** Overwriting one entry moves the sum by the difference of the two
    values. *)
Lemma sum_map_insert (m : gmap N N) (k v : N) :
  sum_map (<[k := v]> m) + rd m k = sum_map m + v.
Proof.
  rewrite (sum_map_delete m k), (sum_map_delete (<[k := v]> m) k).
  rewrite rd_insert_eq, delete_insert_eq. lia.
Qed.

Lemma sum_map_all_zero (m : gmap N N) :
  (forall k, rd m k = 0) -> sum_map m = 0.
Proof.
  induction m as [|k v m Hk IH] using map_ind; intros Hz.
  - apply sum_map_empty.
  - rewrite sum_map_insert_fresh by done.
    specialize (Hz k) as Hv. rewrite rd_insert_eq in Hv. subst v.
    rewrite IH; [done|]. intros j. destruct (decide (k = j)) as [<-|Hne].
    + unfold rd. by rewrite Hk.
    + specialize (Hz j). by rewrite rd_insert_ne in Hz.
Qed.

(** Zero entries do not count: summing the nonzero values is summing all
    values. *)
Lemma sum_nonzero_sum_map (m : gmap N N) : sum_nonzero m = sum_map m.
Proof.
  unfold sum_nonzero.
  induction m as [|k v m Hk IH] using map_ind.
  - by rewrite map_filter_empty.
  - rewrite sum_map_insert_fresh by done.
    destruct (decide (v = 0)) as [->|Hv].
    + rewrite map_filter_insert_not' by (simpl; intros; try congruence).
      rewrite IH. lia.
    + rewrite map_filter_insert_True by done.
      rewrite sum_map_insert_fresh by (by rewrite map_lookup_filter_None; left).
      by rewrite IH.
Qed.

Lemma sumN_app (l k : list N) : sumN (l ++ k) = sumN l + sumN k.
Proof. induction l as [|x l IH]; simpl; [done | rewrite IH; lia]. Qed.

Lemma transferred_app (l k : list effect) :
  transferred (l ++ k) = transferred l + transferred k.
Proof. unfold transferred. by rewrite map_app, sumN_app. Qed.

Lemma transferred_to_app (a : N) (l k : list effect) :
  transferred_to a (l ++ k) = transferred_to a l + transferred_to a k.
Proof. unfold transferred_to. by rewrite map_app, sumN_app. Qed.

(** ** The refund loop as a function *)

Lemma zeroed_in (l : list N) (m : gmap N N) (k : N) :
  k ∈ l -> rd (zeroed l m) k = 0.
Proof.
  revert m. induction l as [|d l IH]; intros m Hin; [by apply not_elem_of_nil in Hin|].
  simpl. destruct (decide (k ∈ l)) as [Hl|Hl].
  - destruct (0 <? rd m d); by apply IH.
  - apply elem_of_cons in Hin as [->|?]; [|done].
    assert (Hkeep : forall m', rd (zeroed l m') d = rd m' d).
    { clear IH. induction l as [|e l IHl]; intros m'; [done|].
      apply not_elem_of_cons in Hl as [Hne Hl]. simpl.
      destruct (0 <? rd m' e); rewrite IHl by done; [|done].
      by rewrite rd_insert_ne. }
    destruct (N.ltb_spec 0 (rd m d)); rewrite Hkeep.
    + apply rd_insert_eq.
    + lia.
Qed.

Lemma zeroed_not_in (l : list N) (m : gmap N N) (k : N) :
  k ∉ l -> rd (zeroed l m) k = rd m k.
Proof.
  revert m. induction l as [|d l IH]; intros m Hin; [done|].
  apply not_elem_of_cons in Hin as [Hne Hl]. simpl.
  destruct (0 <? rd m d); rewrite IH by done; [|done].
  by rewrite rd_insert_ne.
Qed.

(** What is refunded and what stays add up to what was there. *)
Lemma refunds_sum (l : list N) (m : gmap N N) :
  sumN (map snd (refunds l m)) + sum_map (zeroed l m) = sum_map m.
Proof.
  revert m. induction l as [|d l IH]; intros m; simpl; [lia|].
  destruct (0 <? rd m d); simpl; [|apply IH].
  specialize (IH (<[d := 0]> m)). pose proof (sum_map_insert m d 0). lia.
Qed.

(** Each address is refunded its balance, if it is in the list. *)
Lemma refunds_to (l : list N) (m : gmap N N) (k : N) :
  sumN (map (fun da : N * N => if da.1 =? k then da.2 else 0) (refunds l m))
  = if decide (k ∈ l) then rd m k else 0.
Proof.
  revert m. induction l as [|d l IH]; intros m; cbn [refunds].
  - case_decide as Hin; [by apply not_elem_of_nil in Hin | done].
  - destruct (N.ltb_spec 0 (rd m d)) as [Hpos|Hz];
      cbn [map sumN foldr fst snd]; rewrite ?IH; fold (sumN); rewrite ?IH.
    + destruct (N.eqb_spec d k) as [->|Hne].
      * rewrite rd_insert_eq.
        rewrite (decide_True (P := k ∈ k :: l)) by (apply elem_of_cons; by left).
        case_decide; lia.
      * rewrite rd_insert_ne by done.
        destruct (decide (k ∈ l)) as [Hin|Hin].
        -- rewrite decide_True by (apply elem_of_cons; by right). lia.
        -- rewrite decide_False; [lia|].
           intros [?|?]%elem_of_cons; congruence.
    + destruct (decide (k ∈ l)) as [Hin|Hin].
      * by rewrite decide_True by (apply elem_of_cons; by right).
      * destruct (decide (d = k)) as [->|Hne].
        -- rewrite decide_True by (apply elem_of_cons; by left). lia.
        -- rewrite decide_False; [done|].
           intros [?|?]%elem_of_cons; congruence.
Qed.

Lemma transferred_refund_log (r : list (N * N)) :
  transferred (refund_log r) = sumN (map snd r).
Proof.
  unfold transferred, refund_log.
  induction r as [|[d a] r IH]; simpl in *; [done | rewrite IH; lia].
Qed.

Lemma transferred_to_refund_log (k : N) (r : list (N * N)) :
  transferred_to k (refund_log r)
  = sumN (map (fun da : N * N => if da.1 =? k then da.2 else 0) r).
Proof.
  unfold transferred_to, refund_log.
  induction r as [|[d a] r IH]; simpl in *; [done | rewrite IH; lia].
Qed.


(** ** Reasoning about computations *)

Section Properties.
Context {T : Type} `{!IERC20 T}.
Implicit Types w : @World T.

Lemma bind_ok {A B} (m : @M T A) (k : A -> @M T B) w b w' log :
  bind m k w = Ok b w' log ->
  exists a w1 l1 l2, m w = Ok a w1 l1 /\ k a w1 = Ok b w' l2 /\ log = l1 ++ l2.
Proof.
  unfold bind. destruct (m w) as [a w1 l1|]; [|discriminate].
  destruct (k a w1) as [b' w2 l2|] eqn:Hk; [|discriminate].
  intros [= -> -> <-]. eauto 8.
Qed.

Lemma bind_run {A B} (m : @M T A) (k : A -> @M T B) w a w1 :
  m w = Ok a w1 [] -> bind m k w = k a w1.
Proof. unfold bind. intros ->. by destruct (k a w1). Qed.

Lemma bind_run_log {A B} (m : @M T A) (k : A -> @M T B) w a w1 l1 :
  m w = Ok a w1 l1 ->
  bind m k w = match k a w1 with
               | Ok b w2 l2 => Ok b w2 (l1 ++ l2)
               | Err e w2 => Err e w2
               end.
Proof. unfold bind. by intros ->. Qed.

Lemma bind_err {A B} (m : @M T A) (k : A -> @M T B) w e w1 :
  m w = Err e w1 -> bind m k w = Err e w1.
Proof. unfold bind. by intros ->. Qed.

Lemma bind_assoc {A B C} (m : @M T A) (f : A -> @M T B) (g : B -> @M T C) w :
  bind (bind m f) g w = bind m (fun x => bind (f x) g) w.
Proof.
  unfold bind. destruct (m w) as [a w1 l1|]; [|done].
  destruct (f a w1) as [b w2 l2|]; [|done].
  destruct (g b w2) as [c w3 l3|]; [|done].
  by rewrite app_assoc.
Qed.

Lemma require_run {B} cond reason (k : unit -> @M T B) w :
  cond = true -> bind (require cond reason) k w = k tt w.
Proof. intros ->. by apply bind_run. Qed.

Lemma require_fail {B} cond reason (k : unit -> @M T B) w :
  cond = false -> bind (require cond reason) k w = Err (Revert reason) w.
Proof. intros ->. by apply bind_err. Qed.

Lemma require_ok cond reason w u w' log :
  require cond reason w = Ok u w' log -> cond = true /\ w' = w /\ log = [].
Proof. destruct cond; cbv; [intros [= _ -> <-]; auto | discriminate]. Qed.

Lemma sload_ok {A} (f : Campaign -> A) w a w' log :
  sload f w = Ok a w' log -> a = f (storage w) /\ w' = w /\ log = [].
Proof. intros [= <- <- <-]. auto. Qed.

Lemma sstore_ok f w u w' log :
  sstore f w = Ok u w' log -> w' = set_storage f w /\ log = [].
Proof. intros [= _ <- <-]. auto. Qed.

Lemma emit_ok e w u w' log :
  emit e w = Ok u w' log -> w' = w /\ log = [Emit e].
Proof. intros [= _ <- <-]. auto. Qed.

Lemma ret_ok {A} (a : A) w a' w' log :
  ret a w = Ok a' w' log -> a' = a /\ w' = w /\ log = [].
Proof. intros [= <- <- <-]. auto. Qed.

Lemma self_ok w a w' log :
  self w = Ok a w' log -> a = this w /\ w' = w /\ log = [].
Proof. intros [= <- <- <-]. auto. Qed.

Lemma self_balance_ok w a w' log :
  self_balance w = Ok a w' log -> a = balance w /\ w' = w /\ log = [].
Proof. intros [= <- <- <-]. auto. Qed.

Lemma token_balanceOf_ok x w a w' log :
  token_balanceOf x w = Ok a w' log ->
  a = balanceOf (token w) x /\ w' = w /\ log = [].
Proof. intros [= <- <- <-]. auto. Qed.

Lemma receive_value_ok v w u w' log :
  receive_value v w = Ok u w' log ->
  w' = set_balance (balance w + v) w /\ log = [].
Proof. intros [= _ <- <-]. auto. Qed.

Lemma checked_add_ok a b w r w' log :
  checked_add a b w = Ok r w' log ->
  a + b <= MAX_UINT256 /\ r = a + b /\ w' = w /\ log = [].
Proof.
  unfold checked_add. destruct (N.leb_spec (a + b) MAX_UINT256); [|discriminate].
  intros [= <- <- <-]. auto.
Qed.

Lemma checked_add_run a b w :
  a + b <= MAX_UINT256 -> checked_add a b w = Ok (a + b) w [].
Proof.
  intros Hle. unfold checked_add.
  by destruct (N.leb_spec (a + b) MAX_UINT256); [|lia].
Qed.

Lemma checked_add_overflow a b w :
  MAX_UINT256 < a + b -> checked_add a b w = Err (Panic 17) w.
Proof.
  intros Hle. unfold checked_add.
  by destruct (N.leb_spec (a + b) MAX_UINT256); [lia|].
Qed.

Lemma checked_sub_run a b w :
  b <= a -> checked_sub a b w = Ok (a - b) w [].
Proof.
  intros Hle. unfold checked_sub. by destruct (N.leb_spec b a); [|lia].
Qed.

Lemma checked_sub_ok a b w r w' log :
  checked_sub a b w = Ok r w' log ->
  b <= a /\ r = a - b /\ w' = w /\ log = [].
Proof.
  unfold checked_sub. destruct (N.leb_spec b a); [|discriminate].
  intros [= <- <- <-]. auto.
Qed.

Lemma safeTransfer_ok to amount w u w' log :
  safeTransfer to amount w = Ok u w' log ->
  exists t', transfer (token w) (this w) to amount = Some t' /\
             w' = set_token t' w /\ log = [TokenTransfer to amount].
Proof.
  unfold safeTransfer. destruct (transfer _ _ _ _) as [t'|]; [|discriminate].
  intros [= _ <- <-]. eauto.
Qed.

Lemma safeTransferFrom_ok from to amount w u w' log :
  safeTransferFrom from to amount w = Ok u w' log ->
  exists t', transferFrom (token w) (this w) from to amount = Some t' /\
             w' = set_token t' w /\ log = [TokenTransferFrom from to amount].
Proof.
  unfold safeTransferFrom. destruct (transferFrom _ _ _ _ _) as [t'|]; [|discriminate].
  intros [= _ <- <-]. eauto.
Qed.

Lemma call_value_ok to v w sent w' log :
  call_value to v w = Ok sent w' log ->
  (sent = true /\ v <= balance w /\ acceptsEther w to = true /\
   w' = set_balance (balance w - v) w /\ log = [EtherSent to v])
  \/ (sent = false /\ w' = w /\ log = []).
Proof.
  unfold call_value. destruct (N.leb_spec v (balance w)); simpl.
  - destruct (acceptsEther w to); intros [= <- <- <-]; auto 10.
  - intros [= <- <- <-]; auto.
Qed.

Lemma index_ok arr i w x w' log :
  index arr i w = Ok x w' log -> arr !! i = Some x /\ w' = w /\ log = [].
Proof.
  unfold index. destruct (arr !! i); [|discriminate].
  intros [= <- <- <-]. auto.
Qed.

Lemma index_run arr i x w : arr !! i = Some x -> index arr i w = Ok x w [].
Proof. unfold index. by intros ->. Qed.

(** Take a finished computation apart, one operation at a time. *)
Ltac inv_run :=
  repeat match goal with
  | H : bind _ _ _ = Ok _ _ _ |- _ =>
      apply bind_ok in H; destruct H as (? & ? & ? & ? & ? & H & ->)
  | H : require _ _ _ = Ok _ _ _ |- _ =>
      apply require_ok in H; destruct H as (H & -> & ->)
  | H : sload _ _ = Ok _ _ _ |- _ =>
      apply sload_ok in H; destruct H as (-> & -> & ->)
  | H : sstore _ _ = Ok _ _ _ |- _ =>
      apply sstore_ok in H; destruct H as (-> & ->)
  | H : emit _ _ = Ok _ _ _ |- _ =>
      apply emit_ok in H; destruct H as (-> & ->)
  | H : ret _ _ = Ok _ _ _ |- _ =>
      apply ret_ok in H; destruct H as (H & -> & ->); try subst
  | H : self _ = Ok _ _ _ |- _ =>
      apply self_ok in H; destruct H as (-> & -> & ->)
  | H : self_balance _ = Ok _ _ _ |- _ =>
      apply self_balance_ok in H; destruct H as (-> & -> & ->)
  | H : token_balanceOf _ _ = Ok _ _ _ |- _ =>
      apply token_balanceOf_ok in H; destruct H as (-> & -> & ->)
  | H : receive_value _ _ = Ok _ _ _ |- _ =>
      apply receive_value_ok in H; destruct H as (-> & ->)
  | H : checked_add _ _ _ = Ok _ _ _ |- _ =>
      apply checked_add_ok in H; destruct H as (H & -> & -> & ->)
  | H : checked_sub _ _ _ = Ok _ _ _ |- _ =>
      apply checked_sub_ok in H; destruct H as (H & -> & -> & ->)
  | H : safeTransfer _ _ _ = Ok _ _ _ |- _ =>
      apply safeTransfer_ok in H; destruct H as (? & H & -> & ->)
  | H : safeTransferFrom _ _ _ _ = Ok _ _ _ |- _ =>
      apply safeTransferFrom_ok in H; destruct H as (? & H & -> & ->)
  | H : index _ _ _ = Ok _ _ _ |- _ =>
      apply index_ok in H; destruct H as (H & -> & ->)
  end.

(** The storage is a record: it is the record of its fields. *)
Lemma Campaign_eta (c : Campaign) :
  c = {| title := title c; tokenAddress := tokenAddress c;
         totalDeposits := totalDeposits c; owner := owner c;
         currentState := currentState c; feeRecipient := feeRecipient c;
         deposits := deposits c; allocations := allocations c;
         hasClaimed := hasClaimed c; depositors := depositors c;
         entered := entered c |}.
Proof. by destruct c. Qed.

(** *** The loops *)

Lemma for_loop_foldM {X A} (P : @World T -> Prop) (l : list X)
    (g : X -> A -> @M T A) (body : nat -> A -> @M T A) :
  (forall j a x w, P w -> l !! j = Some x -> body j a w = g x a w) ->
  (forall x a w a' w' log, P w -> g x a w = Ok a' w' log -> P w') ->
  forall n i acc w, P w -> (i + n = length l)%nat ->
    for_loop n i acc body w = foldM g (drop i l) acc w.
Proof.
  intros Hbody Hinv. induction n as [|n IH]; intros i acc w HP Hlen.
  - rewrite drop_ge by lia. done.
  - destruct (lookup_lt_is_Some_2 l i) as [x Hx]; [lia|].
    rewrite (drop_S l x i Hx). cbn [for_loop foldM]. unfold bind.
    rewrite (Hbody i acc x w HP Hx).
    destruct (g x acc w) as [a' w1 l1|] eqn:Hg; [|done].
    rewrite IH; [done | by eapply Hinv | lia].
Qed.

Local Notation "'do' x <- m ; k" := (bind m (fun x => k))
  (at level 10, x name, m at level 100, k at level 200).
Local Notation "m ;; k" := (bind m (fun _ => k))
  (at level 100, k at level 200, right associativity).

Ltac norm_hyps :=
  repeat match goal with
  | H : negb _ = true |- _ => apply negb_true_iff in H
  | H : N.eqb _ _ = true |- _ => apply N.eqb_eq in H
  | H : N.ltb _ _ = true |- _ => apply N.ltb_lt in H
  | H : N.leb _ _ = true |- _ => apply N.leb_le in H
  | H : Nat.eqb _ _ = true |- _ => apply Nat.eqb_eq in H
  | H : bool_decide _ = true |- _ => apply bool_decide_eq_true in H
  | H : orb _ _ = true |- _ =>
      apply orb_true_iff in H; rewrite ?bool_decide_eq_true in H
  end.

Ltac crush_world w :=
  destruct w as [? [] ? ? ?]; simpl in *; subst; simpl; try done.

Lemma refund_one_ok d w w' log :
  refund_one d tt w = Ok tt w' log ->
  storage w' = set_deposits (zeroed [d] (deposits (storage w))) (storage w) /\
  log = refund_log (refunds [d] (deposits (storage w))) /\
  this w' = this w /\ balance w' = balance w /\ acceptsEther w' = acceptsEther w.
Proof.
  unfold refund_one. intros Hrun. inv_run. cbn [zeroed refunds].
  destruct (0 <? rd (deposits (storage w)) d); inv_run; simpl.
  - done.
  - repeat split; try done. apply Campaign_eta.
Qed.

Lemma refund_loop_ok l : forall w w' log,
  foldM refund_one l tt w = Ok tt w' log ->
  storage w' = set_deposits (zeroed l (deposits (storage w))) (storage w) /\
  log = refund_log (refunds l (deposits (storage w))) /\
  this w' = this w /\ balance w' = balance w /\ acceptsEther w' = acceptsEther w.
Proof.
  induction l as [|d l IH]; intros w w' log Hrun; cbn [foldM] in Hrun.
  - inv_run. repeat split; try done. apply Campaign_eta.
  - inv_run.
    match goal with u : unit |- _ => destruct u end.
    match goal with Hd : refund_one _ _ _ = _ |- _ =>
      apply refund_one_ok in Hd as (Hs & -> & Ht & Hb & Ha) end.
    apply IH in Hrun as (-> & -> & -> & -> & ->).
    rewrite Hs. cbn [zeroed refunds].
    destruct (0 <? rd (deposits (storage w)) d); simpl; done.
Qed.

Lemma allocate_loop_run pairs : forall acc w,
  acc + sumN (map snd pairs) <= MAX_UINT256 ->
  foldM allocate_one pairs acc w
  = Ok (acc + sumN (map snd pairs))
       (set_storage (set_allocations (assign (allocations (storage w)) pairs)) w)
       (assign_log pairs).
Proof.
  induction pairs as [|[u a] pairs IH]; intros acc w Hle.
  - cbn. unfold ret. rewrite N.add_0_r. f_equal. by crush_world w.
  - change (sumN (map snd ((u, a) :: pairs))) with (a + sumN (map snd pairs)) in *.
    cbn [foldM]. unfold bind at 1. unfold allocate_one at 1.
    unfold bind, sstore, emit, ret. cbn [fst snd].
    rewrite checked_add_run by lia.
    rewrite IH by lia. cbn. f_equal; lia.
Qed.

Lemma allocate_loop_overflow pairs : forall acc w,
  acc <= MAX_UINT256 ->
  MAX_UINT256 < acc + sumN (map snd pairs) ->
  exists w'', foldM allocate_one pairs acc w = Err (Panic 17) w''.
Proof.
  induction pairs as [|[u a] pairs IH]; intros acc w Hacc Hlt.
  - cbn in Hlt. lia.
  - change (sumN (map snd ((u, a) :: pairs))) with (a + sumN (map snd pairs)) in *.
    cbn [foldM]. unfold bind at 1. unfold allocate_one at 1.
    unfold bind, sstore, emit, ret. cbn [fst snd].
    destruct (N.le_gt_cases (acc + a) MAX_UINT256) as [Hle|Hgt].
    + rewrite checked_add_run by lia.
      edestruct (IH (acc + a)) as [w'' ->]; [lia|lia|]. eauto.
    + rewrite checked_add_overflow by lia. eauto.
Qed.

Lemma count_loop_run l : forall acc w,
  acc + sumN (map (rd (allocations (storage w))) l) <= MAX_UINT256 ->
  foldM count_one l acc w
  = Ok (acc + sumN (map (rd (allocations (storage w))) l)) w [].
Proof.
  induction l as [|d l IH]; intros acc w Hle.
  - cbn. unfold ret. by rewrite N.add_0_r.
  - change (sumN (map ?f (d :: l))) with (f d + sumN (map f l)) in *.
    cbn [foldM]. unfold bind at 1. unfold count_one at 1.
    unfold bind, sload.
    rewrite checked_add_run by lia.
    rewrite IH by lia. cbn. f_equal. lia.
Qed.

Lemma count_loop_overflow l : forall acc w,
  acc <= MAX_UINT256 ->
  MAX_UINT256 < acc + sumN (map (rd (allocations (storage w))) l) ->
  foldM count_one l acc w = Err (Panic 17) w.
Proof.
  induction l as [|d l IH]; intros acc w Hacc Hlt.
  - cbn in Hlt. lia.
  - change (sumN (map ?f (d :: l))) with (f d + sumN (map f l)) in *.
    cbn [foldM]. unfold bind at 1. unfold count_one at 1.
    unfold bind, sload.
    destruct (N.le_gt_cases (acc + rd (allocations (storage w)) d) MAX_UINT256)
      as [Hle|Hgt].
    + rewrite checked_add_run by lia. rewrite IH by lia. done.
    + rewrite checked_add_overflow by lia. done.
Qed.

(** The three loops of the contract are these loops. *)
Lemma refund_loop_eq w :
  for_loop (length (depositors (storage w))) 0 tt (fun i _ =>
    do ds <- sload depositors;
    do depositor <- index ds i;
    do depositAmount <- sload (fun c => rd (deposits c) depositor);
    if 0 <? depositAmount then
      sstore (write_deposit depositor 0);;
      safeTransfer depositor depositAmount;;
      emit (FundsRescued depositor depositAmount)
    else ret tt) w
  = foldM refund_one (depositors (storage w)) tt w.
Proof.
  rewrite (for_loop_foldM (fun w' => depositors (storage w') = depositors (storage w))
             (depositors (storage w)) refund_one); [done | | | done | done].
  - intros j [] x w1 Hw1 Hx.
    erewrite bind_run by reflexivity.
    erewrite bind_run by (rewrite Hw1; by apply index_run).
    done.
  - intros x [] w1 [] w2 log Hw1 Hrun.
    apply refund_one_ok in Hrun as (-> & _). done.
Qed.

Lemma allocate_loop_eq users amounts w :
  length users = length amounts ->
  for_loop (length users) 0 0 (fun i totalAllocated =>
    do user <- index users i;
    do amount <- index amounts i;
    sstore (write_allocation user amount);;
    do totalAllocated' <- checked_add totalAllocated amount;
    emit (AllocationsSet user amount);;
    ret totalAllocated') w
  = foldM allocate_one (zip users amounts) 0 w.
Proof.
  intros Hlen.
  rewrite (for_loop_foldM (fun _ => True) (zip users amounts) allocate_one);
    [done | | done | done | ].
  - intros j acc [u a] w1 _ Hx.
    apply lookup_zip_with_Some in Hx as (u' & a' & [= -> ->] & Hu & Ha).
    erewrite bind_run by (by apply index_run).
    erewrite bind_run by (by apply index_run).
    done.
  - rewrite length_zip_with_l_eq; [done | done].
Qed.

Lemma count_loop_eq w :
  for_loop (length (depositors (storage w))) 0 0 (fun i totalAllocated =>
    do ds <- sload depositors;
    do depositor <- index ds i;
    do a <- sload (fun c => rd (allocations c) depositor);
    checked_add totalAllocated a) w
  = foldM count_one (depositors (storage w)) 0 w.
Proof.
  rewrite (for_loop_foldM (fun w' => w' = w) (depositors (storage w)) count_one);
    [done | | | done | done].
  - intros j acc x w1 -> Hx.
    erewrite bind_run by reflexivity.
    erewrite bind_run by (by apply index_run).
    done.
  - intros x acc w1 a' w2 log -> Hrun. unfold count_one in Hrun. by inv_run.
Qed.

Lemma map_snd_zip (users amounts : list N) :
  length users = length amounts -> map snd (zip users amounts) = amounts.
Proof.
  revert amounts. induction users as [|u users IH]; intros [|a amounts] Hlen;
    simpl in *; try done. f_equal. apply IH. lia.
Qed.

(** *** What a successful call has done *)

Lemma deposit_ok sender value amount w w' log :
  deposit sender value amount w = Ok tt w' log ->
  entered (storage w) = false /\
  (currentState (storage w) = Graduating \/ currentState (storage w) = Live) /\
  value = DEPOSIT_FEE /\
  value <= balance w /\ acceptsEther w (feeRecipient (storage w)) = true /\
  transferFrom (token w) (this w) sender (this w) amount = Some (token w') /\
  totalDeposits (storage w) + amount <= MAX_UINT256 /\
  storage w' =
    set_totalDeposits (totalDeposits (storage w) + amount)
      (write_deposit sender (rd (deposits (storage w)) sender + amount)
         (if rd (deposits (storage w)) sender =? 0
          then push_depositor sender (storage w) else storage w)) /\
  balance w' = balance w - value /\
  log = [EtherSent (feeRecipient (storage w)) value;
         TokenTransferFrom sender (this w) amount;
         Emit (Deposit sender amount value)].
Proof.
  unfold deposit, nonReentrant. intros Hrun. inv_run.
  match goal with Hc : call_value _ _ _ = _ |- _ =>
    apply call_value_ok in Hc as [(-> & ? & ? & -> & ->)|(-> & -> & ->)] end;
    [|discriminate].
  norm_hyps. subst value. simpl in *.
  destruct (N.eqb_spec (rd (deposits (storage w)) sender) 0) as [Hz|Hz];
    inv_run; simpl in *; repeat split; try done; by crush_world w.
Qed.

Lemma changeStateToLive_ok sender w w' log :
  changeStateToLive sender w = Ok tt w' log ->
  sender = owner (storage w) /\ currentState (storage w) = Graduating /\
  w' = set_storage (set_currentState Live) w /\
  log = [Emit (StateChanged Live)].
Proof.
  unfold changeStateToLive, onlyOwner, inState. intros Hrun. inv_run.
  by norm_hyps.
Qed.

Lemma changeStateToEnded_ok sender w w' log :
  changeStateToEnded sender w = Ok tt w' log ->
  sender = owner (storage w) /\ currentState (storage w) = Live /\
  w' = set_storage (set_currentState Ended) w /\
  log = [Emit (StateChanged Ended)].
Proof.
  unfold changeStateToEnded, onlyOwner, inState. intros Hrun. inv_run.
  by norm_hyps.
Qed.

Lemma changeStateToRescue_ok sender w w' log :
  changeStateToRescue sender w = Ok tt w' log ->
  sender = owner (storage w) /\ currentState (storage w) = Graduating /\
  entered (storage w) = false /\
  storage w' =
    set_currentState Rescue (set_totalDeposits 0
      (set_deposits (zeroed (depositors (storage w)) (deposits (storage w)))
         (storage w))) /\
  log = refund_log (refunds (depositors (storage w)) (deposits (storage w)))
        ++ [Emit (StateChanged Rescue)].
Proof.
  unfold changeStateToRescue, onlyOwner, inState, nonReentrant.
  intros Hrun. inv_run. norm_hyps.
  match goal with Hl : for_loop _ _ _ _ _ = _ |- _ =>
    change (depositors (storage (set_storage (set_entered true) w)))
      with (depositors (storage w)) in Hl;
    change (length (depositors (storage w)))
      with (length (depositors (storage (set_storage (set_entered true) w)))) in Hl;
    rewrite refund_loop_eq in Hl;
    match type of Hl with _ = Ok ?u _ _ => destruct u end;
    apply refund_loop_ok in Hl as (Hs & -> & _) end.
  simpl in *. rewrite Hs. rewrite app_nil_r.
  repeat split; try done. by crush_world w.
Qed.

Lemma setAllocations_ok sender users amounts w w' log :
  setAllocations sender users amounts w = Ok tt w' log ->
  sender = owner (storage w) /\ currentState (storage w) = Ended /\
  length users = length amounts /\
  sumN amounts <= MAX_UINT256 /\
  sumN amounts <= totalDeposits (storage w) /\
  w' = set_storage
         (set_allocations (assign (allocations (storage w)) (zip users amounts))) w /\
  log = assign_log (zip users amounts).
Proof.
  unfold setAllocations, onlyOwner, inState. intros Hrun. inv_run. norm_hyps.
  match goal with Hl : for_loop _ _ _ _ _ = _ |- _ =>
    rewrite allocate_loop_eq in Hl by done end.
  destruct (N.le_gt_cases (sumN amounts) MAX_UINT256) as [Hle|Hgt].
  - match goal with Hl : foldM _ _ _ _ = _ |- _ =>
      rewrite allocate_loop_run in Hl by (rewrite map_snd_zip by done; lia);
      rewrite map_snd_zip in Hl by done; injection Hl as <- <- <- end.
    simpl in *. rewrite !app_nil_r. repeat split; try done; lia.
  - match goal with Hl : foldM _ _ _ ?w0 = _ |- _ =>
      destruct (allocate_loop_overflow (zip users amounts) 0 w0) as [w'' Hw''];
      [unfold MAX_UINT256; lia | rewrite map_snd_zip by done; lia | congruence] end.
Qed.

Lemma claimTokens_ok sender w w' log :
  claimTokens sender w = Ok tt w' log ->
  currentState (storage w) = Ended /\ entered (storage w) = false /\
  0 < rd (allocations (storage w)) sender /\
  rdb (hasClaimed (storage w)) sender = false /\
  transfer (token w) (this w) sender (rd (allocations (storage w)) sender)
    = Some (token w') /\
  storage w' = write_hasClaimed sender true (storage w) /\
  log = [TokenTransfer sender (rd (allocations (storage w)) sender);
         Emit (TokensClaimed sender (rd (allocations (storage w)) sender))].
Proof.
  unfold claimTokens, inState, nonReentrant. intros Hrun. inv_run. norm_hyps.
  simpl in *. repeat split; try done. by crush_world w.
Qed.

Lemma rescueRemainingTokens_ok sender w w' log :
  rescueRemainingTokens sender w = Ok tt w' log ->
  let totalAllocated :=
    sumN (map (rd (allocations (storage w))) (depositors (storage w))) in
  let contractBalance := balanceOf (token w) (this w) in
  sender = owner (storage w) /\ currentState (storage w) = Ended /\
  entered (storage w) = false /\
  totalAllocated <= MAX_UINT256 /\
  totalAllocated < contractBalance /\
  transfer (token w) (this w) (owner (storage w)) (contractBalance - totalAllocated)
    = Some (token w') /\
  storage w' = storage w /\
  log = [TokenTransfer (owner (storage w)) (contractBalance - totalAllocated);
         Emit (RemainingTokensRescued (contractBalance - totalAllocated))].
Proof.
  unfold rescueRemainingTokens, onlyOwner, inState, nonReentrant.
  intros Hrun. inv_run. norm_hyps.
  match goal with Hl : for_loop _ _ _ _ _ = _ |- _ =>
    change (length (depositors (storage w)))
      with (length (depositors (storage (set_storage (set_entered true) w)))) in Hl;
    rewrite count_loop_eq in Hl end.
  set (w1 := set_storage (set_entered true) w) in *.
  destruct (N.le_gt_cases
              (sumN (map (rd (allocations (storage w1))) (depositors (storage w1))))
              MAX_UINT256) as [Hle|Hgt].
  - match goal with Hl : foldM _ _ _ _ = _ |- _ =>
      rewrite count_loop_run in Hl by lia; injection Hl as <- <- <- end.
    subst w1. simpl in *. repeat split; try done. by crush_world w.
  - match goal with Hl : foldM _ _ _ _ = _ |- _ =>
      rewrite count_loop_overflow in Hl by (try apply N.le_0_l; lia) end.
    discriminate.
Qed.

Lemma updateFeeRecipient_ok sender r w w' log :
  updateFeeRecipient sender r w = Ok tt w' log ->
  sender = owner (storage w) /\ r ≠ 0 /\
  w' = set_storage (set_feeRecipient r) w /\ log = [].
Proof.
  unfold updateFeeRecipient, onlyOwner. intros Hrun. inv_run. norm_hyps.
  repeat split; try done.
  match goal with Hr : (r =? 0) = false |- _ => by apply N.eqb_neq in Hr end.
Qed.

Lemma withdrawEther_ok sender w w' log :
  withdrawEther sender w = Ok tt w' log ->
  sender = owner (storage w) /\ entered (storage w) = false /\
  0 < balance w /\ acceptsEther w (owner (storage w)) = true /\
  storage w' = storage w /\ balance w' = 0 /\
  log = [EtherSent (owner (storage w)) (balance w)].
Proof.
  unfold withdrawEther, onlyOwner, nonReentrant. intros Hrun. inv_run.
  match goal with Hc : call_value _ _ _ = _ |- _ =>
    apply call_value_ok in Hc as [(-> & ? & ? & -> & ->)|(-> & -> & ->)] end;
    [|discriminate].
  norm_hyps. simpl in *. repeat split; try done; try lia. by crush_world w.
Qed.



(** *** What a call does, given its conditions *)

(** Run the operations at the head of a computation. *)
Ltac run :=
  repeat first
    [ rewrite bind_assoc
    | erewrite bind_run by reflexivity
    | erewrite bind_run_log by reflexivity ].

Lemma claimTokens_wrong_state sender w :
  currentState (storage w) ≠ Ended ->
  claimTokens sender w = Err (Revert "Invalid state for this action") w.
Proof.
  intros Hs. unfold claimTokens, inState. run.
  by rewrite require_fail by (by apply bool_decide_eq_false_2).
Qed.

Lemma claimTokens_no_allocation sender w :
  currentState (storage w) = Ended -> entered (storage w) = false ->
  rd (allocations (storage w)) sender = 0 ->
  exists w'', claimTokens sender w = Err (Revert "No tokens allocated") w''.
Proof.
  intros Hs He Ha. unfold claimTokens, inState, nonReentrant. run.
  rewrite require_run by (by apply bool_decide_eq_true_2). run.
  rewrite require_run by (simpl; by rewrite He). run.
  rewrite require_fail by (simpl; by rewrite Ha). eauto.
Qed.

Lemma claimTokens_already_claimed sender w :
  currentState (storage w) = Ended -> entered (storage w) = false ->
  rd (allocations (storage w)) sender ≠ 0 ->
  rdb (hasClaimed (storage w)) sender = true ->
  exists w'', claimTokens sender w = Err (Revert "Tokens already claimed") w''.
Proof.
  intros Hs He Ha Hc. unfold claimTokens, inState, nonReentrant. run.
  rewrite require_run by (by apply bool_decide_eq_true_2). run.
  rewrite require_run by (simpl; by rewrite He). run.
  rewrite require_run by (simpl; apply N.ltb_lt; lia). run.
  rewrite require_fail by (simpl; by rewrite Hc). eauto.
Qed.

Lemma claimTokens_run sender w t' :
  currentState (storage w) = Ended -> entered (storage w) = false ->
  rd (allocations (storage w)) sender ≠ 0 ->
  rdb (hasClaimed (storage w)) sender = false ->
  transfer (token w) (this w) sender (rd (allocations (storage w)) sender) = Some t' ->
  claimTokens sender w
  = Ok tt (set_token t' (set_storage (write_hasClaimed sender true) w))
      [TokenTransfer sender (rd (allocations (storage w)) sender);
       Emit (TokensClaimed sender (rd (allocations (storage w)) sender))].
Proof.
  intros Hs He Ha Hc Ht. unfold claimTokens, inState, nonReentrant. run.
  rewrite require_run by (by apply bool_decide_eq_true_2). run.
  rewrite require_run by (simpl; by rewrite He). run.
  rewrite require_run by (simpl; apply N.ltb_lt; lia). run.
  rewrite require_run by (simpl; by rewrite Hc). run.
  erewrite bind_run_log by (unfold safeTransfer; simpl; by rewrite Ht). run.
  simpl. f_equal. by crush_world w.
Qed.

Lemma setAllocations_loop_run users amounts w :
  length users = length amounts ->
  sumN amounts <= MAX_UINT256 ->
  for_loop (length users) 0 0 (fun i totalAllocated =>
    do user <- index users i;
    do amount <- index amounts i;
    sstore (write_allocation user amount);;
    do totalAllocated' <- checked_add totalAllocated amount;
    emit (AllocationsSet user amount);;
    ret totalAllocated') w
  = Ok (sumN amounts)
      (set_storage
         (set_allocations (assign (allocations (storage w)) (zip users amounts))) w)
      (assign_log (zip users amounts)).
Proof.
  intros Hlen Hmax. rewrite allocate_loop_eq by done.
  rewrite allocate_loop_run by (rewrite map_snd_zip by done; lia).
  by rewrite map_snd_zip by done.
Qed.

Lemma setAllocations_run users amounts w :
  currentState (storage w) = Ended ->
  length users = length amounts ->
  sumN amounts <= MAX_UINT256 ->
  sumN amounts <= totalDeposits (storage w) ->
  setAllocations (owner (storage w)) users amounts w
  = Ok tt (set_storage
             (set_allocations (assign (allocations (storage w)) (zip users amounts))) w)
      (assign_log (zip users amounts)).
Proof.
  intros Hs Hlen Hmax Hle. unfold setAllocations, onlyOwner, inState. run.
  rewrite require_run by apply N.eqb_refl. run.
  rewrite require_run by (by apply bool_decide_eq_true_2). run.
  rewrite require_run by (by apply Nat.eqb_eq). run.
  erewrite bind_run_log by (by apply setAllocations_loop_run). run.
  unfold require. simpl.
  destruct (N.leb_spec (sumN amounts) (totalDeposits (storage w))); [|lia].
  simpl. by rewrite app_nil_r.
Qed.

Lemma setAllocations_exceeds users amounts w :
  currentState (storage w) = Ended ->
  length users = length amounts ->
  sumN amounts <= MAX_UINT256 ->
  totalDeposits (storage w) < sumN amounts ->
  exists w'', setAllocations (owner (storage w)) users amounts w
              = Err (Revert "Allocation exceeds deposits") w''.
Proof.
  intros Hs Hlen Hmax Hlt. unfold setAllocations, onlyOwner, inState. run.
  rewrite require_run by apply N.eqb_refl. run.
  rewrite require_run by (by apply bool_decide_eq_true_2). run.
  rewrite require_run by (by apply Nat.eqb_eq). run.
  erewrite bind_run_log by (by apply setAllocations_loop_run). run.
  unfold require. simpl.
  destruct (N.leb_spec (sumN amounts) (totalDeposits (storage w))); [lia|].
  simpl. eauto.
Qed.

Lemma setAllocations_overflow users amounts w :
  currentState (storage w) = Ended ->
  length users = length amounts ->
  MAX_UINT256 < sumN amounts ->
  exists w'', setAllocations (owner (storage w)) users amounts w
              = Err (Panic 17) w''.
Proof.
  intros Hs Hlen Hmax. unfold setAllocations, onlyOwner, inState. run.
  rewrite require_run by apply N.eqb_refl. run.
  rewrite require_run by (by apply bool_decide_eq_true_2). run.
  rewrite require_run by (by apply Nat.eqb_eq). run.
  destruct (allocate_loop_overflow (zip users amounts) 0 w) as [w'' Hw''];
    [apply N.le_0_l | rewrite map_snd_zip by done; lia |].
  exists w''. apply bind_err. by rewrite allocate_loop_eq.
Qed.


Lemma rescueRemainingTokens_run w t' :
  let totalAllocated :=
    sumN (map (rd (allocations (storage w))) (depositors (storage w))) in
  let contractBalance := balanceOf (token w) (this w) in
  currentState (storage w) = Ended -> entered (storage w) = false ->
  totalAllocated <= MAX_UINT256 ->
  totalAllocated < contractBalance ->
  transfer (token w) (this w) (owner (storage w)) (contractBalance - totalAllocated)
    = Some t' ->
  rescueRemainingTokens (owner (storage w)) w
  = Ok tt (set_token t' w)
      [TokenTransfer (owner (storage w)) (contractBalance - totalAllocated);
       Emit (RemainingTokensRescued (contractBalance - totalAllocated))].
Proof.
  intros tA cB Hs He Hmax Hlt Ht.
  unfold rescueRemainingTokens, onlyOwner, inState, nonReentrant. run.
  rewrite require_run by apply N.eqb_refl. run.
  rewrite require_run by (by apply bool_decide_eq_true_2). run.
  rewrite require_run by (simpl; by rewrite He). run.
  erewrite bind_run;
    [|rewrite count_loop_eq; apply count_loop_run; simpl; fold tA; lia].
  run. simpl. fold tA cB. rewrite !N.add_0_l.
  rewrite require_run by (by apply N.ltb_lt). run.
  erewrite bind_run by (apply checked_sub_run; lia). run.
  rewrite require_run by (apply N.ltb_lt; lia). run.
  erewrite bind_run_log by (unfold safeTransfer; simpl; by rewrite Ht). run.
  simpl. f_equal. by crush_world w.
Qed.


(** *** Transactions *)

Lemma transact_success w sender c log w' :
  transact w sender c = (Success log, w') <-> dispatch sender c w = Ok tt w' log.
Proof.
  unfold transact. destruct (dispatch sender c w) as [[] w1 l1|e w1]; split;
    intros Heq; by simplify_eq.
Qed.

Lemma transact_err w sender c e w'' :
  dispatch sender c w = Err e w'' -> transact w sender c = (Failure e, w).
Proof. unfold transact. by intros ->. Qed.

Lemma dispatch_effect sender c w w' log :
  dispatch sender c w = Ok tt w' log ->
  storage_effect sender c (storage w) (storage w').
Proof.
  destruct c; cbn [dispatch storage_effect]; intros Hrun.
  - inv_run. apply deposit_ok in Hrun as (? & ? & _ & _ & _ & _ & ? & ? & _).
    done.
  - apply changeStateToLive_ok in Hrun as (? & ? & -> & _). done.
  - apply changeStateToRescue_ok in Hrun as (? & ? & ? & ? & _). done.
  - apply changeStateToEnded_ok in Hrun as (? & ? & -> & _). done.
  - apply setAllocations_ok in Hrun as (? & ? & ? & ? & ? & -> & _). done.
  - apply claimTokens_ok in Hrun as (? & ? & ? & ? & _ & ? & _). done.
  - apply rescueRemainingTokens_ok in Hrun as (? & ? & _ & _ & _ & _ & ? & _).
    done.
  - apply updateFeeRecipient_ok in Hrun as (? & ? & -> & _). done.
  - apply withdrawEther_ok in Hrun as (? & _ & _ & _ & ? & _). done.
Qed.

(** A step either leaves the storage alone or is a successful call. *)
Lemma step_storage w w' :
  step w w' ->
  storage w' = storage w \/
  exists sender c, storage_effect sender c (storage w) (storage w').
Proof.
  intros [w0 sender c|w0 tk bal acc]; [|by left].
  unfold transact.
  destruct (dispatch sender c w0) as [[] w1 l1|e1 w1] eqn:Hd; [|by left].
  right. exists sender, c. by eapply dispatch_effect.
Qed.

Lemma transact_all_steps txs : forall w, rtc step w (transact_all w txs).
Proof.
  induction txs as [|[sender c] txs IH]; intros w; simpl; [done|].
  eapply rtc_l; [apply step_call | apply IH].
Qed.

Lemma reachable_transact_all w txs :
  reachable w -> reachable (transact_all w txs).
Proof.
  intros (w0 & Hdep & Hsteps). exists w0. split; [done|].
  etrans; [exact Hsteps | apply transact_all_steps].
Qed.

(** *** The invariants *)

Lemma ledger_inv_effect sender c s s' :
  ledger_inv s -> storage_effect sender c s s' -> ledger_inv s'.
Proof.
  intros (Hsum & Hcov & Hent) Heff. destruct c; cbn [storage_effect] in Heff.
  - destruct Heff as (_ & _ & _ & ->). repeat split; simpl.
    + pose proof (sum_map_insert
        (deposits (if rd (deposits s) sender =? 0
                   then push_depositor sender s else s))
        sender (rd (deposits s) sender + amount)) as Hins.
      destruct (rd (deposits s) sender =? 0); simpl in *; lia.
    + intros a Ha.
      destruct (N.eqb_spec (rd (deposits s) sender) 0) as [Hz|Hz]; simpl in *.
      * rewrite rd_insert in Ha. case_decide; subst.
        -- apply elem_of_app. right. by apply list_elem_of_singleton.
        -- apply elem_of_app. left. by apply Hcov.
      * rewrite rd_insert in Ha. case_decide; subst; by apply Hcov.
    + by destruct (rd (deposits s) sender =? 0).
  - destruct Heff as (_ & _ & ->). done.
  - destruct Heff as (_ & _ & _ & ->).
    assert (Hz : forall a, rd (zeroed (depositors s) (deposits s)) a = 0).
    { intros a. destruct (decide (a ∈ depositors s)) as [Hin|Hin].
      - by apply zeroed_in.
      - rewrite zeroed_not_in by done.
        destruct (decide (rd (deposits s) a = 0)); [done|]. by destruct Hin; apply Hcov. }
    repeat split; simpl; [|intros a Ha; by rewrite Hz in Ha|done].
    by rewrite sum_map_all_zero.
  - destruct Heff as (_ & _ & ->). done.
  - destruct Heff as (_ & _ & _ & _ & ->). done.
  - destruct Heff as (_ & _ & _ & _ & ->). done.
  - destruct Heff as (_ & _ & ->). done.
  - destruct Heff as (_ & _ & ->). done.
  - destruct Heff as (_ & ->). done.
Qed.

Lemma ledger_inv_steps w w' :
  rtc step w w' -> ledger_inv (storage w) -> ledger_inv (storage w').
Proof.
  induction 1 as [|w1 w2 w3 Hstep _ IH]; [done|]. intros Hinv. apply IH.
  apply step_storage in Hstep as [-> | (sender & c & Heff)]; [done|].
  by eapply ledger_inv_effect.
Qed.

Lemma ledger_inv_deployed w : deployed w -> ledger_inv (storage w).
Proof.
  intros (t & tk & o & fr & Hc). unfold constructor in Hc.
  destruct (fr =? 0); [discriminate|]. injection Hc as <-.
  split; [symmetry; exact sum_map_empty|]. split; [|done].
  intros a Ha. cbn [deposits] in Ha. by rewrite rd_empty in Ha.
Qed.

Lemma ledger_inv_reachable w : reachable w -> ledger_inv (storage w).
Proof.
  intros (w0 & Hdep & Hsteps).
  eapply ledger_inv_steps; [done|]. by apply ledger_inv_deployed.
Qed.

Lemma advances_refl s : advances s s = true.
Proof. by destruct s. Qed.

Lemma advances_trans s1 s2 s3 :
  advances s1 s2 = true -> advances s2 s3 = true -> advances s1 s3 = true.
Proof. by destruct s1, s2, s3. Qed.

Lemma state_effect sender c s s' :
  storage_effect sender c s s' ->
  currentState s' = currentState s \/
  legal_transition (currentState s) (currentState s') = true.
Proof.
  destruct c; cbn [storage_effect]; intros Heff.
  - destruct Heff as (_ & _ & _ & ->). left. simpl.
    by destruct (rd (deposits s) sender =? 0).
  - destruct Heff as (_ & Hs & ->). right. simpl. by rewrite Hs.
  - destruct Heff as (_ & Hs & _ & ->). right. simpl. by rewrite Hs.
  - destruct Heff as (_ & Hs & ->). right. simpl. by rewrite Hs.
  - destruct Heff as (_ & _ & _ & _ & ->). by left.
  - destruct Heff as (_ & _ & _ & _ & ->). by left.
  - destruct Heff as (_ & _ & ->). by left.
  - destruct Heff as (_ & _ & ->). by left.
  - destruct Heff as (_ & ->). by left.
Qed.

Lemma legal_transition_advances s s' :
  legal_transition s s' = true -> advances s s' = true.
Proof. by destruct s, s'. Qed.

Lemma advances_steps w w' :
  rtc step w w' ->
  advances (currentState (storage w)) (currentState (storage w')) = true.
Proof.
  induction 1 as [w|w1 w2 w3 Hstep _ IH]; [apply advances_refl|].
  eapply advances_trans; [|exact IH].
  apply step_storage in Hstep as [-> | (sender & c & Heff)];
    [apply advances_refl|].
  apply state_effect in Heff as [-> | Hl];
    [apply advances_refl | by apply legal_transition_advances].
Qed.

Lemma entered_effect sender c s s' :
  storage_effect sender c s s' -> entered s' = entered s.
Proof.
  destruct c; cbn [storage_effect]; intros Heff.
  - destruct Heff as (_ & _ & _ & ->). simpl.
    by destruct (rd (deposits s) sender =? 0).
  - by destruct Heff as (_ & _ & ->).
  - by destruct Heff as (_ & _ & _ & ->).
  - by destruct Heff as (_ & _ & ->).
  - by destruct Heff as (_ & _ & _ & _ & ->).
  - by destruct Heff as (_ & _ & _ & _ & ->).
  - by destruct Heff as (_ & _ & ->).
  - by destruct Heff as (_ & _ & ->).
  - by destruct Heff as (_ & ->).
Qed.

Lemma entered_steps w w' :
  rtc step w w' ->
  entered (storage w) = false -> entered (storage w') = false.
Proof.
  induction 1 as [|w1 w2 w3 Hstep _ IH]; [done|]. intros He. apply IH.
  apply step_storage in Hstep as [-> | (sender & c & Heff)]; [done|].
  by rewrite (entered_effect _ _ _ _ Heff).
Qed.

Lemma claimed_effect sender c s s' a :
  storage_effect sender c s s' ->
  rdb (hasClaimed s) a = true -> rdb (hasClaimed s') a = true.
Proof.
  destruct c; cbn [storage_effect]; intros Heff Ha.
  - destruct Heff as (_ & _ & _ & ->). simpl.
    by destruct (rd (deposits s) sender =? 0).
  - by destruct Heff as (_ & _ & ->).
  - by destruct Heff as (_ & _ & _ & ->).
  - by destruct Heff as (_ & _ & ->).
  - by destruct Heff as (_ & _ & _ & _ & ->).
  - destruct Heff as (_ & _ & _ & _ & ->). simpl. unfold rdb in *.
    rewrite lookup_insert. by case_decide.
  - by destruct Heff as (_ & _ & ->).
  - by destruct Heff as (_ & _ & ->).
  - by destruct Heff as (_ & ->).
Qed.

Lemma claimed_steps w w' a :
  rtc step w w' ->
  rdb (hasClaimed (storage w)) a = true -> rdb (hasClaimed (storage w')) a = true.
Proof.
  induction 1 as [|w1 w2 w3 Hstep _ IH]; [done|]. intros Ha. apply IH.
  apply step_storage in Hstep as [-> | (sender & c & Heff)]; [done|].
  by eapply claimed_effect.
Qed.


(** *** The ledger *)

(** C4. In every reachable world [totalDeposits] is the sum of the
    nonzero [deposits] balances; a successful [deposit] adds its amount
    to both sides, and a successful [changeStateToRescue] leaves both
    sides at zero. *)
Theorem totalDeposits_is_sum_of_deposits w :
  reachable w ->
  totalDeposits (storage w) = sum_nonzero (deposits (storage w)) /\
  (forall sender value amount log w',
      transact w sender (Call_deposit value amount) = (Success log, w') ->
      totalDeposits (storage w') = totalDeposits (storage w) + amount /\
      sum_nonzero (deposits (storage w'))
        = sum_nonzero (deposits (storage w)) + amount) /\
  (forall sender log w',
      transact w sender Call_changeStateToRescue = (Success log, w') ->
      totalDeposits (storage w') = 0 /\
      sum_nonzero (deposits (storage w')) = 0).
Proof.
  intros Hreach. pose proof (ledger_inv_reachable w Hreach) as Hinv.
  assert (Hnext : forall sender c log w',
             transact w sender c = (Success log, w') ->
             totalDeposits (storage w') = sum_nonzero (deposits (storage w'))).
  { intros sender c log w' Htx. rewrite sum_nonzero_sum_map.
    apply transact_success, dispatch_effect in Htx.
    by destruct (ledger_inv_effect _ _ _ _ Hinv Htx). }
  destruct Hinv as (Hsum & Hcov & Hent).
  split; [by rewrite sum_nonzero_sum_map|]. split.
  - intros sender value amount log w' Htx.
    pose proof (Hnext _ _ _ _ Htx) as Hsum'.
    apply transact_success, dispatch_effect in Htx.
    destruct Htx as (_ & _ & _ & Hs').
    assert (totalDeposits (storage w') = totalDeposits (storage w) + amount)
      as Htot by (by rewrite Hs').
    split; [done|]. rewrite <- Hsum', Htot, sum_nonzero_sum_map. by rewrite Hsum.
  - intros sender log w' Htx.
    pose proof (Hnext _ _ _ _ Htx) as Hsum'.
    apply transact_success, dispatch_effect in Htx.
    destruct Htx as (_ & _ & _ & Hs').
    assert (totalDeposits (storage w') = 0) as Htot by (by rewrite Hs').
    split; [done|]. by rewrite <- Hsum'.
Qed.

(** C7. A successful [changeStateToRescue] was called by the owner in
    [Graduating]; it leaves every balance and [totalDeposits] at zero
    and the state at [Rescue]; the refunds it sends add up to the
    [totalDeposits] of before the call, each address receiving its own
    balance. *)
Theorem changeStateToRescue_refunds_all w sender log w' :
  reachable w ->
  transact w sender Call_changeStateToRescue = (Success log, w') ->
  sender = owner (storage w) /\
  currentState (storage w) = Graduating /\
  (forall a, rd (deposits (storage w')) a = 0) /\
  totalDeposits (storage w') = 0 /\
  currentState (storage w') = Rescue /\
  transferred log = totalDeposits (storage w) /\
  (forall a, transferred_to a log = rd (deposits (storage w)) a).
Proof.
  intros Hreach Htx.
  destruct (ledger_inv_reachable w Hreach) as (Hsum & Hcov & Hent).
  apply transact_success in Htx. cbn [dispatch] in Htx.
  apply changeStateToRescue_ok in Htx as (Hown & Hst & _ & Hs' & ->).
  assert (Hz : forall a,
             rd (zeroed (depositors (storage w)) (deposits (storage w))) a = 0).
  { intros a. destruct (decide (a ∈ depositors (storage w))) as [Hin|Hin].
    - by apply zeroed_in.
    - rewrite zeroed_not_in by done.
      destruct (decide (rd (deposits (storage w)) a = 0)); [done|].
      by destruct Hin; apply Hcov. }
  rewrite Hs'. cbn [deposits totalDeposits currentState set_currentState
                    set_totalDeposits set_deposits].
  repeat split; try done.
  - rewrite transferred_app, transferred_refund_log.
    pose proof (refunds_sum (depositors (storage w)) (deposits (storage w))) as Hr.
    rewrite (sum_map_all_zero _ Hz) in Hr. cbn. lia.
  - intros a. rewrite transferred_to_app, transferred_to_refund_log, refunds_to.
    cbn. case_decide as Hin; [lia|].
    destruct (decide (rd (deposits (storage w)) a = 0)) as [->|Hne]; [done|].
    by destruct Hin; apply Hcov.
Qed.

(** *** Deposits *)


(** *** Allocations *)

(** C1, as the contract has it. A [setAllocations] call by the owner
    in [Ended], with arrays of one length, compares the sum of the
    amounts of this call alone (every entry counted, also a repeated
    user) with [totalDeposits]: when the sum is larger the call fails
    with "Allocation exceeds deposits" and nothing is committed,
    otherwise every entry is written, in order. (A sum that leaves the
    256-bit range makes the addition panic, and again nothing is
    committed.) Allocations written by earlier calls take no part in the
    check. *)
Theorem setAllocations_checks_this_call_only w users amounts :
  currentState (storage w) = Ended ->
  length users = length amounts ->
  transact w (owner (storage w)) (Call_setAllocations users amounts)
  = if MAX_UINT256 <? sumN amounts then (Failure (Panic 17), w)
    else if sumN amounts <=? totalDeposits (storage w)
    then (Success (assign_log (zip users amounts)),
          set_storage
            (set_allocations
               (assign (allocations (storage w)) (zip users amounts))) w)
    else (Failure (Revert "Allocation exceeds deposits"), w).
Proof.
  intros Hs Hlen.
  destruct (N.ltb_spec MAX_UINT256 (sumN amounts)) as [Hover|Hmax].
  { destruct (setAllocations_overflow users amounts w Hs Hlen Hover) as [w'' Hw''].
    by eapply transact_err. }
  destruct (N.leb_spec (sumN amounts) (totalDeposits (storage w))) as [Hle|Hlt].
  - apply transact_success. cbn [dispatch]. by apply setAllocations_run.
  - destruct (setAllocations_exceeds users amounts w Hs Hlen Hmax Hlt) as [w'' Hw''].
    by eapply transact_err.
Qed.

(** *** Claims *)

(** C6. [claimTokens] is rejected outside [Ended]; in [Ended] it
    fails with "No tokens allocated" for a caller whose allocation is
    zero and with "Tokens already claimed" for a caller with an
    allocation whose flag is set. A successful claim sets the flag; the
    same call made again fails with "Tokens already claimed" and
    changes nothing, and after any further execution every claim by
    that caller fails and changes nothing (with "Tokens already claimed"
    as long as the caller has an allocation). *)
Theorem claimTokens_at_most_once w sender :
  entered (storage w) = false ->
  (currentState (storage w) ≠ Ended ->
   transact w sender Call_claimTokens
   = (Failure (Revert "Invalid state for this action"), w)) /\
  (currentState (storage w) = Ended ->
   rd (allocations (storage w)) sender = 0 ->
   transact w sender Call_claimTokens
   = (Failure (Revert "No tokens allocated"), w)) /\
  (currentState (storage w) = Ended ->
   rd (allocations (storage w)) sender ≠ 0 ->
   rdb (hasClaimed (storage w)) sender = true ->
   transact w sender Call_claimTokens
   = (Failure (Revert "Tokens already claimed"), w)) /\
  (forall log w1,
      transact w sender Call_claimTokens = (Success log, w1) ->
      currentState (storage w) = Ended /\
      rd (allocations (storage w)) sender ≠ 0 /\
      rdb (hasClaimed (storage w)) sender = false /\
      rdb (hasClaimed (storage w1)) sender = true /\
      transact w1 sender Call_claimTokens
      = (Failure (Revert "Tokens already claimed"), w1) /\
      (forall w2,
          rtc step w1 w2 ->
          transact w2 sender Call_claimTokens
          = (Failure
               (Revert (if rd (allocations (storage w2)) sender =? 0
                        then "No tokens allocated"
                        else "Tokens already claimed")), w2))).
Proof.
  intros He.
  assert (Hclaimed : forall w0,
             currentState (storage w0) = Ended -> entered (storage w0) = false ->
             rdb (hasClaimed (storage w0)) sender = true ->
             transact w0 sender Call_claimTokens
             = (Failure
                  (Revert (if rd (allocations (storage w0)) sender =? 0
                           then "No tokens allocated"
                           else "Tokens already claimed")), w0)).
  { intros w0 Hs0 He0 Hc0.
    destruct (N.eqb_spec (rd (allocations (storage w0)) sender) 0) as [Ha|Ha].
    - destruct (claimTokens_no_allocation sender w0 Hs0 He0 Ha) as [w'' Hw''].
      by eapply transact_err.
    - destruct (claimTokens_already_claimed sender w0 Hs0 He0 Ha Hc0) as [w'' Hw''].
      by eapply transact_err. }
  split; [|split; [|split]].
  - intros Hs. eapply transact_err. cbn [dispatch].
    by apply claimTokens_wrong_state.
  - intros Hs Ha.
    destruct (claimTokens_no_allocation sender w Hs He Ha) as [w'' Hw''].
    by eapply transact_err.
  - intros Hs Ha Hc.
    destruct (claimTokens_already_claimed sender w Hs He Ha Hc) as [w'' Hw''].
    by eapply transact_err.
  - intros log w1 Htx. apply transact_success in Htx. cbn [dispatch] in Htx.
    apply claimTokens_ok in Htx as (Hs & _ & Ha & Hc & _ & Hs1 & _).
    assert (Hc1 : rdb (hasClaimed (storage w1)) sender = true).
    { rewrite Hs1. unfold rdb. cbn. by rewrite lookup_insert_eq. }
    assert (Hst1 : currentState (storage w1) = Ended) by (by rewrite Hs1).
    assert (He1 : entered (storage w1) = false) by (by rewrite Hs1).
    assert (Ha1 : rd (allocations (storage w1)) sender ≠ 0)
      by (rewrite Hs1; cbn; lia).
    split; [done|]. split; [lia|]. split; [done|]. split; [done|]. split.
    + specialize (Hclaimed w1 Hst1 He1 Hc1).
      by destruct (N.eqb_spec (rd (allocations (storage w1)) sender) 0).
    + intros w2 Hsteps. apply Hclaimed.
      * pose proof (advances_steps _ _ Hsteps) as Hadv. rewrite Hst1 in Hadv.
        by destruct (currentState (storage w2)).
      * by eapply entered_steps.
      * by eapply claimed_steps.
Qed.

(** C9. [setAllocations] asks nothing about who the users are: in
    [Ended] the owner can give an allocation to an address that is not
    in the depositor list, and that address then claims it: the claim
    succeeds and the token transfer to the address is made. *)
Theorem non_depositor_is_allocated_and_claims w user amount t' :
  currentState (storage w) = Ended ->
  entered (storage w) = false ->
  user ∉ depositors (storage w) ->
  rd (deposits (storage w)) user = 0 ->
  rdb (hasClaimed (storage w)) user = false ->
  0 < amount ->
  amount <= totalDeposits (storage w) ->
  totalDeposits (storage w) <= MAX_UINT256 ->
  transfer (token w) (this w) user amount = Some t' ->
  exists w1 w2,
    transact w (owner (storage w)) (Call_setAllocations [user] [amount])
    = (Success [Emit (AllocationsSet user amount)], w1) /\
    rd (allocations (storage w1)) user = amount /\
    (user ∉ depositors (storage w1)) /\
    transact w1 user Call_claimTokens
    = (Success [TokenTransfer user amount; Emit (TokensClaimed user amount)], w2) /\
    token w2 = t' /\
    rdb (hasClaimed (storage w2)) user = true.
Proof.
  intros Hs He Hnot Hdep Hc Hpos Hle Hmax Ht.
  set (w1 := set_storage
               (set_allocations
                  (assign (allocations (storage w)) (zip [user] [amount]))) w).
  assert (Ha1 : rd (allocations (storage w1)) user = amount).
  { subst w1. cbn. apply rd_insert_eq. }
  exists w1, (set_token t' (set_storage (write_hasClaimed user true) w1)).
  split.
  { apply transact_success. cbn [dispatch].
    rewrite setAllocations_run; [done | done | done | cbn; lia | cbn; lia]. }
  split; [done|]. split; [done|]. split.
  { apply transact_success. cbn [dispatch].
    rewrite (claimTokens_run user w1 t'); try done.
    - by rewrite Ha1.
    - rewrite Ha1. lia.
    - by rewrite Ha1. }
  split; [done|]. unfold rdb. cbn. by rewrite lookup_insert_eq.
Qed.

(** *** The sweep *)

Lemma map_rd_insert_not_in (m : gmap N N) (x v : N) (l : list N) :
  x ∉ l -> map (rd (<[x := v]> m)) l = map (rd m) l.
Proof.
  induction l as [|d l IH]; intros Hx; [done|].
  apply not_elem_of_cons in Hx as [Hne Hx]. cbn [map].
  by rewrite rd_insert_ne, IH.
Qed.

(** C10. A successful [rescueRemainingTokens] sends the owner the
    token balance of the contract minus the allocations of the
    addresses in the depositor list, one term per entry of the list.
    The allocation of an address that is not in the list is not
    counted: whatever it is, the call sends the same amount, so the
    amount swept includes what would back that allocation. *)
Theorem rescueRemainingTokens_counts_depositors_only w sender log w' :
  transact w sender Call_rescueRemainingTokens = (Success log, w') ->
  let counted :=
    sumN (map (rd (allocations (storage w))) (depositors (storage w))) in
  let surplus := balanceOf (token w) (this w) - counted in
  sender = owner (storage w) /\
  counted < balanceOf (token w) (this w) /\
  log = [TokenTransfer (owner (storage w)) surplus;
         Emit (RemainingTokensRescued surplus)] /\
  (forall x v,
      x ∉ depositors (storage w) ->
      transact (set_storage (write_allocation x v) w) sender
        Call_rescueRemainingTokens
      = (Success log, set_storage (write_allocation x v) w')).
Proof.
  intros Htx counted surplus.
  apply transact_success in Htx. cbn [dispatch] in Htx.
  pose proof Htx as Hok.
  apply rescueRemainingTokens_ok in Hok
    as (Hown & Hs & He & Hmax & Hlt & Ht & Hs' & Hlog).
  fold counted in Hmax, Hlt, Ht, Hlog. fold surplus in Ht, Hlog.
  repeat split; try done.
  intros x v Hx. subst sender.
  pose proof (rescueRemainingTokens_run w (token w') Hs He Hmax Hlt Ht) as Hrun.
  rewrite Hrun in Htx. injection Htx as <- <-.
  apply transact_success. cbn [dispatch].
  set (wx := set_storage (write_allocation x v) w).
  assert (Hcount : sumN (map (rd (allocations (storage wx)))
                           (depositors (storage wx))) = counted).
  { subst wx counted. cbn. by rewrite map_rd_insert_not_in. }
  change (owner (storage w)) with (owner (storage wx)) at 1.
  rewrite (rescueRemainingTokens_run wx (token w')); try done.
  - rewrite Hcount. done.
  - rewrite Hcount. done.
  - rewrite Hcount. done.
  - rewrite Hcount. done.
Qed.

(** *** Access control *)

(** X1. Every function but [deposit] and [claimTokens] fails with
    "Only owner can call this" for any other caller, in every state and
    whatever its arguments: the owner check comes first. *)
Theorem only_the_owner_may_call w sender c :
  owner_only c = true ->
  sender ≠ owner (storage w) ->
  transact w sender c = (Failure (Revert "Only owner can call this"), w).
Proof.
  intros Hc Hne.
  assert (Hreq : (sender =? owner (storage w)) = false) by (by apply N.eqb_neq).
  eapply transact_err.
  destruct c; try discriminate Hc; cbn [dispatch];
    unfold changeStateToLive, changeStateToRescue, changeStateToEnded,
      setAllocations, rescueRemainingTokens, updateFeeRecipient, withdrawEther,
      onlyOwner; run; by rewrite require_fail.
Qed.

Lemma fixed_effect sender c s s' :
  storage_effect sender c s s' ->
  owner s' = owner s /\ title s' = title s /\ tokenAddress s' = tokenAddress s.
Proof.
  destruct c; cbn [storage_effect]; intros Heff.
  - destruct Heff as (_ & _ & _ & ->). simpl.
    by destruct (rd (deposits s) sender =? 0).
  - by destruct Heff as (_ & _ & ->).
  - by destruct Heff as (_ & _ & _ & ->).
  - by destruct Heff as (_ & _ & ->).
  - by destruct Heff as (_ & _ & _ & _ & ->).
  - by destruct Heff as (_ & _ & _ & _ & ->).
  - by destruct Heff as (_ & _ & ->).
  - by destruct Heff as (_ & _ & ->).
  - by destruct Heff as (_ & ->).
Qed.

(** X2. No function writes [owner], [title] or [tokenAddress]: along
    every execution they are what the constructor made them, so
    ownership cannot be transferred or given up. *)
Theorem owner_title_token_never_change w w' :
  rtc step w w' ->
  owner (storage w') = owner (storage w) /\
  title (storage w') = title (storage w) /\
  tokenAddress (storage w') = tokenAddress (storage w).
Proof.
  induction 1 as [|w1 w2 w3 Hstep _ IH]; [done|].
  destruct IH as (-> & -> & ->).
  apply step_storage in Hstep as [-> | (sender & c & Heff)]; [done|].
  by apply fixed_effect in Heff.
Qed.

(** *** The fee recipient *)

Lemma feeRecipient_effect sender c s s' :
  storage_effect sender c s s' ->
  feeRecipient s ≠ 0 -> feeRecipient s' ≠ 0.
Proof.
  destruct c; cbn [storage_effect]; intros Heff Hfr.
  - destruct Heff as (_ & _ & _ & ->). simpl.
    by destruct (rd (deposits s) sender =? 0).
  - by destruct Heff as (_ & _ & ->).
  - by destruct Heff as (_ & _ & _ & ->).
  - by destruct Heff as (_ & _ & ->).
  - by destruct Heff as (_ & _ & _ & _ & ->).
  - by destruct Heff as (_ & _ & _ & _ & ->).
  - by destruct Heff as (_ & _ & ->).
  - by destruct Heff as (_ & ? & ->).
  - by destruct Heff as (_ & ->).
Qed.

(** X3. The fee recipient is never the zero address: the constructor
    and [updateFeeRecipient] both refuse it, and nothing else writes it. *)
Theorem feeRecipient_is_never_zero w :
  reachable w -> feeRecipient (storage w) ≠ 0.
Proof.
  intros (w0 & (t & tk & o & fr & Hc) & Hsteps).
  assert (H0 : feeRecipient (storage w0) ≠ 0).
  { unfold constructor in Hc. destruct (N.eqb_spec fr 0) as [|Hne]; [discriminate|].
    injection Hc as <-. done. }
  clear Hc. induction Hsteps as [|w1 w2 w3 Hstep _ IH]; [done|].
  apply IH. apply step_storage in Hstep as [-> | (sender & c & Heff)]; [done|].
  by eapply feeRecipient_effect.
Qed.

(** X4. [updateFeeRecipient] by the owner works in every state: a
    nonzero address becomes the fee recipient and nothing else changes,
    the zero address is refused; after the update every successful
    deposit sends its fee to the new recipient. *)
Theorem updateFeeRecipient_redirects_the_fee w r :
  r ≠ 0 ->
  transact w (owner (storage w)) (Call_updateFeeRecipient r)
  = (Success [], set_storage (set_feeRecipient r) w) /\
  transact w (owner (storage w)) (Call_updateFeeRecipient 0)
  = (Failure (Revert "Invalid fee recipient address"), w) /\
  (forall sender value amount log w',
      transact (set_storage (set_feeRecipient r) w) sender
        (Call_deposit value amount) = (Success log, w') ->
      log = [EtherSent r DEPOSIT_FEE;
             TokenTransferFrom sender (this w) amount;
             Emit (Deposit sender amount DEPOSIT_FEE)]).
Proof.
  intros Hr. split; [|split].
  - apply transact_success. cbn [dispatch]. unfold updateFeeRecipient, onlyOwner.
    run. rewrite require_run by apply N.eqb_refl. run.
    rewrite require_run by (by apply negb_true_iff, N.eqb_neq). run. done.
  - eapply transact_err. cbn [dispatch]. unfold updateFeeRecipient, onlyOwner.
    run. rewrite require_run by apply N.eqb_refl. run.
    by rewrite require_fail.
  - intros sender value amount log w' Htx.
    apply transact_success in Htx. cbn [dispatch] in Htx. inv_run.
    apply deposit_ok in Htx as (_ & _ & -> & _ & _ & _ & _ & _ & _ & ->). done.
Qed.

(** *** Walking the life cycle *)

(** X5. The two forward transitions cannot fail for the owner: from
    [Graduating] the owner's [changeStateToLive] and then
    [changeStateToEnded] succeed, each emitting [StateChanged] and
    changing the state only, and the campaign is [Ended]. *)
Theorem owner_walks_to_Ended w :
  currentState (storage w) = Graduating ->
  let w1 := set_storage (set_currentState Live) w in
  let w2 := set_storage (set_currentState Ended) w1 in
  transact w (owner (storage w)) Call_changeStateToLive
  = (Success [Emit (StateChanged Live)], w1) /\
  transact w1 (owner (storage w)) Call_changeStateToEnded
  = (Success [Emit (StateChanged Ended)], w2) /\
  deposits (storage w2) = deposits (storage w) /\
  totalDeposits (storage w2) = totalDeposits (storage w) /\
  depositors (storage w2) = depositors (storage w).
Proof.
  intros Hs w1 w2. split; [|split; [|done]].
  - apply transact_success. cbn [dispatch]. unfold changeStateToLive, onlyOwner, inState.
    run. rewrite require_run by apply N.eqb_refl. run.
    rewrite require_run by (by apply bool_decide_eq_true_2). run. done.
  - apply transact_success. cbn [dispatch]. unfold changeStateToEnded, onlyOwner, inState.
    run. rewrite require_run by apply N.eqb_refl. run. done.
Qed.

(** *** The native balance *)

(** X6. [withdrawEther] by the owner, in any state: with nothing held
    it fails with "No ETH to withdraw"; otherwise it sends the whole
    balance to the owner and leaves the balance at zero and the storage
    as it was, or fails with "Failed to withdraw ETH" when the owner does
    not accept the payment. *)
Theorem withdrawEther_sends_the_whole_balance w :
  entered (storage w) = false ->
  transact w (owner (storage w)) Call_withdrawEther
  = if balance w =? 0 then (Failure (Revert "No ETH to withdraw"), w)
    else if acceptsEther w (owner (storage w))
    then (Success [EtherSent (owner (storage w)) (balance w)], set_balance 0 w)
    else (Failure (Revert "Failed to withdraw ETH"), w).
Proof.
  intros He.
  destruct (N.eqb_spec (balance w) 0) as [Hz|Hnz].
  - eapply transact_err. cbn [dispatch]. unfold withdrawEther, onlyOwner, nonReentrant.
    run. rewrite require_run by apply N.eqb_refl. run.
    rewrite require_run by (by rewrite He). run.
    rewrite require_fail by (simpl; by rewrite Hz). done.
  - destruct (acceptsEther w (owner (storage w))) eqn:Hacc.
    + apply transact_success. cbn [dispatch].
      unfold withdrawEther, onlyOwner, nonReentrant.
      run. rewrite require_run by apply N.eqb_refl. run.
      rewrite require_run by (by rewrite He). run.
      rewrite require_run by (simpl; apply N.ltb_lt; lia). run.
      erewrite bind_run_log.
      2:{ unfold call_value. simpl. rewrite Hacc, N.leb_refl. reflexivity. }
      run. simpl. rewrite N.sub_diag. f_equal. by crush_world w.
    + eapply transact_err. cbn [dispatch].
      unfold withdrawEther, onlyOwner, nonReentrant.
      run. rewrite require_run by apply N.eqb_refl. run.
      rewrite require_run by (by rewrite He). run.
      rewrite require_run by (simpl; apply N.ltb_lt; lia). run.
      erewrite bind_run.
      2:{ unfold call_value. simpl. rewrite Hacc, N.leb_refl. reflexivity. }
      by rewrite require_fail.
Qed.

(** *** Deposits, as they run *)

Lemma deposit_run sender amount w t' :
  entered (storage w) = false ->
  (currentState (storage w) = Graduating \/ currentState (storage w) = Live) ->
  acceptsEther w (feeRecipient (storage w)) = true ->
  transferFrom (token w) (this w) sender (this w) amount = Some t' ->
  rd (deposits (storage w)) sender + amount <= MAX_UINT256 ->
  totalDeposits (storage w) + amount <= MAX_UINT256 ->
  exists w',
    dispatch sender (Call_deposit DEPOSIT_FEE amount) w
    = Ok tt w' [EtherSent (feeRecipient (storage w)) DEPOSIT_FEE;
                TokenTransferFrom sender (this w) amount;
                Emit (Deposit sender amount DEPOSIT_FEE)] /\
    storage w' =
      set_totalDeposits (totalDeposits (storage w) + amount)
        (write_deposit sender (rd (deposits (storage w)) sender + amount)
           (if rd (deposits (storage w)) sender =? 0
            then push_depositor sender (storage w) else storage w)) /\
    balance w' = balance w /\ token w' = t'.
Proof.
  intros He Hs Hacc Ht Hdep Htot.
  unfold dispatch, deposit, nonReentrant. run.
  rewrite require_run by (simpl; by rewrite He). run.
  rewrite require_run by (simpl; destruct Hs as [-> | ->]; done).
  run.
  erewrite bind_run_log.
  2:{ unfold call_value. simpl. rewrite Hacc.
      destruct (N.leb_spec DEPOSIT_FEE (balance w + DEPOSIT_FEE)); [|lia].
      reflexivity. }
  run.
  erewrite bind_run_log by (unfold safeTransferFrom; simpl; by rewrite Ht). run.
  simpl.
  destruct (N.eqb_spec (rd (deposits (storage w)) sender) 0) as [Hz|Hz]; run.
  - erewrite bind_run by (apply checked_add_run; simpl; lia). run.
    erewrite bind_run by (apply checked_add_run; simpl; lia). run.
    simpl. eexists. split; [reflexivity|]. simpl.
    repeat split; try lia. by crush_world w.
  - erewrite bind_run by (apply checked_add_run; simpl; lia). run.
    erewrite bind_run by (apply checked_add_run; simpl; lia). run.
    simpl. eexists. split; [reflexivity|]. simpl.
    repeat split; try lia. by crush_world w.
Qed.

(** X7. What [deposit] refuses, in the order it checks: outside
    [Graduating] and [Live] it fails with "Deposits are not allowed in
    the current state" whatever is sent; then a payment that is not
    exactly the fee fails with "Incorrect ETH fee sent"; then a fee
    recipient that does not accept the fee fails with "Failed to transfer
    ETH fee"; then a token that refuses the pull fails the [SafeERC20]
    call. Each time nothing changes: the fee is not kept either. *)
Theorem deposit_refusals w sender value amount :
  entered (storage w) = false ->
  (currentState (storage w) = Rescue \/ currentState (storage w) = Ended ->
   transact w sender (Call_deposit value amount)
   = (Failure (Revert "Deposits are not allowed in the current state"), w)) /\
  (currentState (storage w) = Graduating \/ currentState (storage w) = Live ->
   (value ≠ DEPOSIT_FEE ->
    transact w sender (Call_deposit value amount)
    = (Failure (Revert "Incorrect ETH fee sent"), w)) /\
   (value = DEPOSIT_FEE ->
    acceptsEther w (feeRecipient (storage w)) = false ->
    transact w sender (Call_deposit value amount)
    = (Failure (Revert "Failed to transfer ETH fee"), w)) /\
   (value = DEPOSIT_FEE ->
    acceptsEther w (feeRecipient (storage w)) = true ->
    transferFrom (token w) (this w) sender (this w) amount = None ->
    transact w sender (Call_deposit value amount)
    = (Failure SafeERC20Failed, w))).
Proof.
  intros He. split; [|intros Hs; split; [|split]].
  - intros Hs. eapply transact_err. unfold dispatch, deposit, nonReentrant. run.
    rewrite require_run by (simpl; by rewrite He). run.
    rewrite require_fail by (simpl; destruct Hs as [-> | ->]; done). done.
  - intros Hv. eapply transact_err. unfold dispatch, deposit, nonReentrant. run.
    rewrite require_run by (simpl; by rewrite He). run.
    rewrite require_run by (simpl; destruct Hs as [-> | ->]; done).
    run. rewrite require_fail by (by apply N.eqb_neq). done.
  - intros -> Hacc. eapply transact_err. unfold dispatch, deposit, nonReentrant. run.
    rewrite require_run by (simpl; by rewrite He). run.
    rewrite require_run by (simpl; destruct Hs as [-> | ->]; done).
    run.
    erewrite bind_run.
    2:{ unfold call_value. simpl. rewrite Hacc, andb_false_r. reflexivity. }
    run. by rewrite require_fail.
  - intros -> Hacc Ht. eapply transact_err. unfold dispatch, deposit, nonReentrant. run.
    rewrite require_run by (simpl; by rewrite He). run.
    rewrite require_run by (simpl; destruct Hs as [-> | ->]; done).
    run.
    erewrite bind_run_log.
    2:{ unfold call_value. simpl. rewrite Hacc.
        destruct (N.leb_spec DEPOSIT_FEE (balance w + DEPOSIT_FEE)); [|lia].
        reflexivity. }
    run.
    erewrite bind_err; [reflexivity|].
    unfold safeTransferFrom. simpl. by rewrite Ht.
Qed.

Lemma rd_le_sum_map (m : gmap N N) (k : N) : rd m k <= sum_map m.
Proof. rewrite (sum_map_delete m k). lia. Qed.

(** X8. In a reachable world a deposit that passes the checks is
    recorded exactly: the caller's balance and [totalDeposits] grow by
    the amount, every other balance is as before, the caller is in the
    depositor list (and the list is as before for a caller who already
    had a balance), the token has made the pull, and the native balance
    of the contract is what it was (the fee went through to the
    recipient). *)
Theorem deposit_records_the_amount w sender amount t' :
  reachable w ->
  (currentState (storage w) = Graduating \/ currentState (storage w) = Live) ->
  acceptsEther w (feeRecipient (storage w)) = true ->
  transferFrom (token w) (this w) sender (this w) amount = Some t' ->
  totalDeposits (storage w) + amount <= MAX_UINT256 ->
  exists w',
    transact w sender (Call_deposit DEPOSIT_FEE amount)
    = (Success [EtherSent (feeRecipient (storage w)) DEPOSIT_FEE;
                TokenTransferFrom sender (this w) amount;
                Emit (Deposit sender amount DEPOSIT_FEE)], w') /\
    getDeposit (storage w') sender = getDeposit (storage w) sender + amount /\
    (forall a, a ≠ sender -> getDeposit (storage w') a = getDeposit (storage w) a) /\
    totalDeposits (storage w') = totalDeposits (storage w) + amount /\
    sender ∈ depositors (storage w') /\
    (0 < getDeposit (storage w) sender ->
     depositors (storage w') = depositors (storage w)) /\
    token w' = t' /\ balance w' = balance w.
Proof.
  intros Hreach Hs Hacc Ht Htot.
  destruct (ledger_inv_reachable w Hreach) as (Hsum & Hcov & He).
  pose proof (rd_le_sum_map (deposits (storage w)) sender) as Hle.
  destruct (deposit_run sender amount w t' He Hs Hacc Ht) as (w' & Hrun & Hs' & Hb & Hk);
    [lia | lia |].
  exists w'. split; [by apply transact_success|].
  unfold getDeposit. rewrite Hs'. simpl.
  destruct (N.eqb_spec (rd (deposits (storage w)) sender) 0) as [Hz|Hz]; simpl.
  - repeat split; try done.
    + apply rd_insert_eq.
    + intros a Ha. by apply rd_insert_ne.
    + apply elem_of_app. right. by apply list_elem_of_singleton.
    + lia.
  - repeat split; try done.
    + apply rd_insert_eq.
    + intros a Ha. by apply rd_insert_ne.
    + by apply Hcov.
Qed.


(** *** The depositor list *)

Lemma zeroed_all_zero (l : list N) (m : gmap N N) :
  (forall a, rd m a ≠ 0 -> a ∈ l) -> forall a, rd (zeroed l m) a = 0.
Proof.
  intros Hcov a. destruct (decide (a ∈ l)) as [Hin|Hin].
  - by apply zeroed_in.
  - rewrite zeroed_not_in by done.
    destruct (decide (rd m a = 0)); [done|]. by destruct Hin; apply Hcov.
Qed.

Lemma sum_over_NoDup (l : list N) : forall m : gmap N N,
  NoDup l -> sumN (map (rd m) l) + sum_map (zeroed l m) = sum_map m.
Proof.
  induction l as [|d l IH]; intros m Hnd; [cbn; lia|].
  apply NoDup_cons in Hnd as [Hd Hnd].
  change (sumN (map (rd m) (d :: l))) with (rd m d + sumN (map (rd m) l)).
  cbn [zeroed]. destruct (N.ltb_spec 0 (rd m d)) as [Hpos|Hz].
  - specialize (IH (<[d := 0]> m) Hnd).
    rewrite map_rd_insert_not_in in IH by done.
    pose proof (sum_map_insert m d 0). lia.
  - specialize (IH m Hnd). lia.
Qed.

(** X9. [getDepositors] in a reachable world: the two arrays have one
    length, the amount at each index is the balance of the depositor at
    that index, every address with a balance is listed, and when no
    address is listed twice the amounts add up to [totalDeposits]. *)
Theorem getDepositors_lists_every_balance w :
  reachable w ->
  let ds := fst (getDepositors (storage w)) in
  let amounts := snd (getDepositors (storage w)) in
  length ds = length amounts /\
  (forall i d, ds !! i = Some d ->
               amounts !! i = Some (getDeposit (storage w) d)) /\
  (forall a, getDeposit (storage w) a ≠ 0 -> a ∈ ds) /\
  (NoDup ds -> sumN amounts = totalDeposits (storage w)).
Proof.
  intros Hreach ds amounts.
  destruct (ledger_inv_reachable w Hreach) as (Hsum & Hcov & _).
  subst ds amounts. unfold getDepositors, getDeposit. cbn [fst snd].
  split; [by rewrite length_map|]. split; [|split; [done|]].
  - intros i d Hd. change (map ?f ?l) with (f <$> l).
    by rewrite list_lookup_fmap, Hd.
  - intros Hnd.
    pose proof (sum_over_NoDup _ (deposits (storage w)) Hnd) as Hs.
    rewrite (sum_map_all_zero _ (zeroed_all_zero _ _ Hcov)) in Hs. lia.
Qed.

Lemma depositors_effect sender c s s' :
  storage_effect sender c s s' -> depositors s `prefix_of` depositors s'.
Proof.
  destruct c; cbn [storage_effect]; intros Heff.
  - destruct Heff as (_ & _ & _ & ->). simpl.
    destruct (rd (deposits s) sender =? 0); simpl; [|done].
    by apply prefix_app_r.
  - by destruct Heff as (_ & _ & ->).
  - by destruct Heff as (_ & _ & _ & ->).
  - by destruct Heff as (_ & _ & ->).
  - by destruct Heff as (_ & _ & _ & _ & ->).
  - by destruct Heff as (_ & _ & _ & _ & ->).
  - by destruct Heff as (_ & _ & ->).
  - by destruct Heff as (_ & _ & ->).
  - by destruct Heff as (_ & ->).
Qed.

(** X10. The depositor list only grows at its end: along every
    execution the list of before is a prefix of the list of after, so no
    entry is ever removed or moved, not even by a rescue. *)
Theorem depositors_only_grow w w' :
  rtc step w w' ->
  depositors (storage w) `prefix_of` depositors (storage w').
Proof.
  induction 1 as [|w1 w2 w3 Hstep _ IH]; [done|].
  etrans; [|exact IH].
  apply step_storage in Hstep as [-> | (sender & c & Heff)]; [done|].
  by eapply depositors_effect.
Qed.

(** *** What is fixed once the campaign has ended *)

Lemma frozen_effect sender c s s' :
  storage_effect sender c s s' ->
  currentState s = Rescue \/ currentState s = Ended ->
  currentState s' = currentState s /\
  deposits s' = deposits s /\ totalDeposits s' = totalDeposits s /\
  depositors s' = depositors s.
Proof.
  destruct c; cbn [storage_effect]; intros Heff Hs.
  - destruct Heff as (_ & [Hg|Hg] & _); destruct Hs as [Hs|Hs]; congruence.
  - destruct Heff as (_ & Hg & _); destruct Hs as [Hs|Hs]; congruence.
  - destruct Heff as (_ & Hg & _); destruct Hs as [Hs|Hs]; congruence.
  - destruct Heff as (_ & Hg & _); destruct Hs as [Hs|Hs]; congruence.
  - by destruct Heff as (_ & _ & _ & _ & ->).
  - by destruct Heff as (_ & _ & _ & _ & ->).
  - by destruct Heff as (_ & _ & ->).
  - by destruct Heff as (_ & _ & ->).
  - by destruct Heff as (_ & ->).
Qed.

(** X11. Once the campaign is in [Rescue] or [Ended] the deposit
    ledger is closed: along every later execution the state, every
    balance, [totalDeposits] and the depositor list stay what they are.
    In particular the bound [setAllocations] checks against no longer
    moves. *)
Theorem deposit_ledger_is_closed_after_the_end w w' :
  currentState (storage w) = Rescue \/ currentState (storage w) = Ended ->
  rtc step w w' ->
  currentState (storage w') = currentState (storage w) /\
  deposits (storage w') = deposits (storage w) /\
  totalDeposits (storage w') = totalDeposits (storage w) /\
  depositors (storage w') = depositors (storage w).
Proof.
  intros Hs Hsteps. induction Hsteps as [|w1 w2 w3 Hstep _ IH]; [done|].
  assert (Hone : currentState (storage w2) = currentState (storage w1) /\
                 deposits (storage w2) = deposits (storage w1) /\
                 totalDeposits (storage w2) = totalDeposits (storage w1) /\
                 depositors (storage w2) = depositors (storage w1)).
  { apply step_storage in Hstep as [-> | (sender & c & Heff)]; [done|].
    by eapply frozen_effect. }
  destruct Hone as (H1 & H2 & H3 & H4).
  destruct IH as (-> & -> & -> & ->); [by rewrite H1|]. done.
Qed.

(** X13. A claim flag is set by the owner of the flag only: a
    successful call after which the flag of an address is set, when it
    was not before, is [claimTokens] called by that address in [Ended]
    with a nonzero allocation, and the call has sent that address exactly
    its allocation. *)
Theorem flag_is_set_by_own_claim_only w sender c log w' a :
  transact w sender c = (Success log, w') ->
  hasAddressClaimed (storage w) a = false ->
  hasAddressClaimed (storage w') a = true ->
  c = Call_claimTokens /\ sender = a /\
  currentState (storage w) = Ended /\
  0 < getAllocation (storage w) a /\
  log = [TokenTransfer a (getAllocation (storage w) a);
         Emit (TokensClaimed a (getAllocation (storage w) a))].
Proof.
  unfold hasAddressClaimed, getAllocation. intros Htx Hb Ha.
  apply transact_success in Htx.
  pose proof (dispatch_effect _ _ _ _ _ Htx) as Heff.
  destruct c; cbn [storage_effect] in Heff.
  - destruct Heff as (_ & _ & _ & Hs'). rewrite Hs' in Ha. simpl in Ha.
    destruct (rd (deposits (storage w)) sender =? 0); simpl in Ha; congruence.
  - destruct Heff as (_ & _ & Hs'). rewrite Hs' in Ha. simpl in Ha. congruence.
  - destruct Heff as (_ & _ & _ & Hs'). rewrite Hs' in Ha. simpl in Ha. congruence.
  - destruct Heff as (_ & _ & Hs'). rewrite Hs' in Ha. simpl in Ha. congruence.
  - destruct Heff as (_ & _ & _ & _ & Hs'). rewrite Hs' in Ha. simpl in Ha. congruence.
  - destruct Heff as (_ & _ & _ & _ & Hs'). rewrite Hs' in Ha. simpl in Ha.
    unfold rdb in Ha, Hb. rewrite lookup_insert in Ha.
    case_decide as Heq; [subst a|congruence].
    cbn [dispatch] in Htx.
    apply claimTokens_ok in Htx as (? & _ & ? & _ & _ & _ & ->). done.
  - destruct Heff as (_ & _ & Hs'). rewrite Hs' in Ha. congruence.
  - destruct Heff as (_ & _ & Hs'). rewrite Hs' in Ha. simpl in Ha. congruence.
  - destruct Heff as (_ & Hs'). rewrite Hs' in Ha. congruence.
Qed.


(** *** Allocations, as they are written *)

Lemma rd_assign (pairs : list (N * N)) : forall (m : gmap N N) (u : N),
  rd (assign m pairs) u = default (rd m u) (latest pairs u).
Proof.
  induction pairs as [|[u' a] pairs IH]; intros m u; [done|].
  change (assign m ((u', a) :: pairs)) with (assign (<[u' := a]> m) pairs).
  rewrite IH. cbn [latest]. destruct (latest pairs u) as [x|]; [done|].
  rewrite rd_insert. destruct (N.eqb_spec u' u) as [->|Hne].
  - by rewrite decide_True.
  - by rewrite decide_False.
Qed.

Lemma latest_zip_Some (users amounts : list N) (u x : N) :
  latest (zip users amounts) u = Some x -> u ∈ users.
Proof.
  revert amounts. induction users as [|u' users IH]; intros [|a amounts] Hl;
    try discriminate Hl.
  cbn [zip zip_with latest] in Hl.
  destruct (latest (zip_with pair users amounts) u) as [y|] eqn:Hrest.
  - apply elem_of_cons. right. injection Hl as ->. by eapply IH.
  - destruct (N.eqb_spec u' u) as [->|]; [|discriminate].
    apply elem_of_cons. by left.
Qed.

(** X14. What a [setAllocations] call writes. With arrays of
    different lengths the owner's call fails with "Mismatched input
    lengths". With equal lengths and a sum within [totalDeposits] it
    succeeds (also with empty arrays), and afterwards each listed user
    has the amount of its last entry in the arrays, whatever it had
    before (nothing is added up), and every other allocation is
    untouched. *)
Theorem setAllocations_last_entry_wins w users amounts :
  currentState (storage w) = Ended ->
  (length users ≠ length amounts ->
   transact w (owner (storage w)) (Call_setAllocations users amounts)
   = (Failure (Revert "Mismatched input lengths"), w)) /\
  (length users = length amounts ->
   sumN amounts <= totalDeposits (storage w) ->
   sumN amounts <= MAX_UINT256 ->
   exists w',
     transact w (owner (storage w)) (Call_setAllocations users amounts)
     = (Success (assign_log (zip users amounts)), w') /\
     (forall u,
         getAllocation (storage w') u
         = default (getAllocation (storage w) u) (latest (zip users amounts) u)) /\
     (forall u, u ∉ users ->
                getAllocation (storage w') u = getAllocation (storage w) u) /\
     hasClaimed (storage w') = hasClaimed (storage w) /\
     deposits (storage w') = deposits (storage w)).
Proof.
  intros Hs. split.
  - intros Hlen. eapply transact_err. cbn [dispatch].
    unfold setAllocations, onlyOwner, inState. run.
    rewrite require_run by apply N.eqb_refl. run.
    rewrite require_run by (by apply bool_decide_eq_true_2). run.
    rewrite require_fail by (by apply Nat.eqb_neq). done.
  - intros Hlen Hle Hmax. eexists. split.
    + apply transact_success. cbn [dispatch]. by apply setAllocations_run.
    + unfold getAllocation. cbn. split; [|split; [|done]].
      * intros u. apply rd_assign.
      * intros u Hu. rewrite rd_assign.
        destruct (latest (zip users amounts) u) as [x|] eqn:Hl; [|done].
        by apply latest_zip_Some in Hl.
Qed.

(** *** The refund, when the token refuses *)

Lemma refund_one_err d w e w'' :
  refund_one d tt w = Err e w'' -> e = SafeERC20Failed.
Proof.
  unfold refund_one, bind, sload. simpl.
  destruct (0 <? rd (deposits (storage w)) d); [|discriminate].
  unfold sstore, safeTransfer, emit. simpl.
  destruct (transfer _ _ _ _); simpl; [discriminate|]. by intros [= <- _].
Qed.

Lemma refund_loop_blocked (d : N) (l : list N) : forall w,
  d ∈ l ->
  0 < rd (deposits (storage w)) d ->
  (forall t a, transfer t (this w) d a = None) ->
  exists w'', foldM refund_one l tt w = Err SafeERC20Failed w''.
Proof.
  induction l as [|x l IH]; intros w Hin Hpos Hrej;
    [by apply not_elem_of_nil in Hin|].
  cbn [foldM]. unfold bind at 1.
  destruct (decide (x = d)) as [->|Hne].
  - assert (Hrun : exists w2, refund_one d tt w = Err SafeERC20Failed w2).
    { unfold refund_one, bind, sload. simpl.
      destruct (N.ltb_spec 0 (rd (deposits (storage w)) d)); [|lia].
      unfold sstore, safeTransfer. simpl. rewrite Hrej. simpl. eauto. }
    destruct Hrun as [w2 ->]. eauto.
  - destruct (refund_one x tt w) as [[] w1 l1|e w1] eqn:Hx.
    + apply refund_one_ok in Hx as (Hs1 & _ & Hthis & _).
      destruct (IH w1) as [w'' Hw''].
      * apply elem_of_cons in Hin as [?|?]; [congruence|done].
      * rewrite Hs1. cbn [deposits set_deposits]. rewrite zeroed_not_in; [done|].
        intros Hd. apply list_elem_of_singleton in Hd. congruence.
      * by rewrite Hthis.
      * rewrite Hw''. eauto.
    + apply refund_one_err in Hx as ->. eauto.
Qed.

(** X15. One depositor the token will not pay blocks the whole rescue:
    when an address in the depositor list has a balance and the token
    refuses every transfer to it, the owner's [changeStateToRescue]
    fails, and no balance is zeroed, no other depositor is refunded and
    the state stays [Graduating]. *)
Theorem one_refused_refund_blocks_the_rescue w d :
  currentState (storage w) = Graduating ->
  entered (storage w) = false ->
  d ∈ depositors (storage w) ->
  0 < rd (deposits (storage w)) d ->
  (forall t a, transfer t (this w) d a = None) ->
  transact w (owner (storage w)) Call_changeStateToRescue
  = (Failure SafeERC20Failed, w).
Proof.
  intros Hs He Hin Hpos Hrej.
  set (w1 := set_storage (set_entered true) w).
  destruct (refund_loop_blocked d (depositors (storage w1)) w1) as [w'' Hw''];
    [done | done | done |].
  eapply (transact_err _ _ _ _ w''). cbn [dispatch].
  unfold changeStateToRescue, onlyOwner, inState, nonReentrant. run.
  rewrite require_run by apply N.eqb_refl. run.
  rewrite require_run by (by apply bool_decide_eq_true_2). run.
  rewrite require_run by (by rewrite He). run.
  apply bind_err. fold w1. by rewrite refund_loop_eq.
Qed.

(** *** The sweep and the claims *)

(** X16. The sweep does not look at the claim flags, and a claim
    leaves the allocation of the claimer in place: a successful
    [rescueRemainingTokens] sends the same amount whatever flags are
    set, so the allocation of a depositor who has already been paid is
    still deducted from what the owner can sweep. *)
Theorem sweep_deducts_claimed_allocations w sender log w' :
  transact w sender Call_rescueRemainingTokens = (Success log, w') ->
  (forall flags,
      transact (set_storage (set_hasClaimed flags) w) sender
        Call_rescueRemainingTokens
      = (Success log, set_storage (set_hasClaimed flags) w')) /\
  (forall claimer log1 w1,
      transact w claimer Call_claimTokens = (Success log1, w1) ->
      getAllocation (storage w1) claimer = getAllocation (storage w) claimer /\
      sumN (map (rd (allocations (storage w1))) (depositors (storage w1)))
      = sumN (map (rd (allocations (storage w))) (depositors (storage w)))).
Proof.
  intros Htx. split.
  - intros flags.
    apply transact_success in Htx. cbn [dispatch] in Htx.
    pose proof Htx as Hok.
    apply rescueRemainingTokens_ok in Hok
      as (Hown & Hs & He & Hmax & Hlt & Ht & Hs' & Hlog).
    subst sender.
    pose proof (rescueRemainingTokens_run w (token w') Hs He Hmax Hlt Ht) as Hrun.
    rewrite Hrun in Htx. injection Htx as <- <-.
    apply transact_success. cbn [dispatch].
    set (wf := set_storage (set_hasClaimed flags) w).
    change (owner (storage w)) with (owner (storage wf)) at 1.
    by rewrite (rescueRemainingTokens_run wf (token w')).
  - intros claimer log1 w1 Hc.
    apply transact_success in Hc. cbn [dispatch] in Hc.
    apply claimTokens_ok in Hc as (_ & _ & _ & _ & _ & -> & _). done.
Qed.

(** ** Call-backs *)

(** *** What a call-back can do *)

(** While the guard is set, a call into a [nonReentrant] function
    fails. *)
Lemma guarded_call_fails_inside sender c w :
  entered (storage w) = true ->
  match c with
  | Call_deposit _ _ | Call_changeStateToRescue | Call_claimTokens
  | Call_rescueRemainingTokens | Call_withdrawEther =>
      exists e w'', dispatch sender c w = Err e w''
  | _ => True
  end.
Proof.
  intros He.
  destruct c; try done;
    (destruct (dispatch sender _ w) as [[] w' log|e w''] eqn:Hd; [exfalso|eauto]);
    cbn [dispatch] in Hd.
  - inv_run. apply deposit_ok in Hd as (Hf & _). simpl in Hf. congruence.
  - apply changeStateToRescue_ok in Hd as (_ & _ & Hf & _). congruence.
  - apply claimTokens_ok in Hd as (_ & Hf & _). congruence.
  - apply rescueRemainingTokens_ok in Hd as (_ & _ & Hf & _). congruence.
  - apply withdrawEther_ok in Hd as (_ & Hf & _). congruence.
Qed.

Lemma inner_call_ok sender c w w' log :
  entered (storage w) = true ->
  dispatch sender c w = Ok tt w' log ->
  this w' = this w /\ token w' = token w /\ balance w' = balance w /\
  acceptsEther w' = acceptsEther w /\
  inner_effect (storage w) (storage w') /\ Forall is_event log.
Proof.
  intros He Hd.
  pose proof (guarded_call_fails_inside sender c w He) as Hg.
  destruct c as [v a| | | |us ams| | |r|]; cbn [dispatch] in *;
    try (destruct Hg as (e & w'' & Hg); congruence).
  - apply changeStateToLive_ok in Hd as (_ & Hs & -> & ->).
    repeat split; try done; [by left | by repeat constructor].
  - apply changeStateToEnded_ok in Hd as (_ & Hs & -> & ->).
    repeat split; try done; [right; by left | by repeat constructor].
  - apply setAllocations_ok in Hd as (_ & Hs & _ & _ & _ & -> & ->).
    repeat split; try done.
    + right; right; left. split; [done|]. by eexists.
    + unfold assign_log. apply Forall_forall. intros x Hx.
      apply list_elem_of_In, in_map_iff in Hx as (ua & <- & _). done.
  - apply updateFeeRecipient_ok in Hd as (_ & Hr & -> & ->).
    repeat split; try done. right; right; right. by exists r.
Qed.

Lemma inner_effect_entered s s' : inner_effect s s' -> entered s' = entered s.
Proof.
  intros [(_ & ->)|[(_ & ->)|[(_ & pairs & ->)|(r & _ & ->)]]]; done.
Qed.

Lemma reenter_ok calls : forall w u w' log,
  entered (storage w) = true ->
  Reentrant.reenter calls w = Ok u w' log ->
  this w' = this w /\ token w' = token w /\ balance w' = balance w /\
  acceptsEther w' = acceptsEther w /\
  inner_reach (storage w) (storage w') /\ Forall is_event log.
Proof.
  induction calls as [|[sender c] calls IH]; intros w u w' log He Hrun;
    cbn [Reentrant.reenter] in Hrun.
  - injection Hrun as <- <- <-. repeat split; done.
  - destruct (dispatch sender c w) as [[] w1 l1|e w1] eqn:Hd.
    + destruct (Reentrant.reenter calls w1) as [u2 w2 l2|] eqn:Hr; [|discriminate].
      injection Hrun as <- <- <-.
      apply inner_call_ok in Hd as (H1 & H2 & H3 & H4 & H5 & H6); [|done].
      apply IH in Hr as (G1 & G2 & G3 & G4 & G5 & G6);
        [|by rewrite (inner_effect_entered _ _ H5)].
      repeat split; try congruence.
      * eapply rtc_l; [exact H5 | exact G5].
      * by apply Forall_app.
    + by apply IH in Hrun.
Qed.

Lemma reenter_total calls : forall w,
  exists w' log, Reentrant.reenter calls w = Ok tt w' log.
Proof.
  induction calls as [|[sender c] calls IH]; intros w; cbn [Reentrant.reenter];
    [eauto|].
  destruct (dispatch sender c w) as [[] w1 l1|e w1]; [|apply IH].
  destruct (IH w1) as (w2 & l2 & ->). eauto.
Qed.

(** What the call-backs leave alone, and how far they can move the
    state. *)
Lemma inner_reach_frame s s' :
  inner_reach s s' ->
  deposits s' = deposits s /\ totalDeposits s' = totalDeposits s /\
  depositors s' = depositors s /\ hasClaimed s' = hasClaimed s /\
  entered s' = entered s /\ owner s' = owner s /\
  title s' = title s /\ tokenAddress s' = tokenAddress s /\
  advances (currentState s) (currentState s') = true /\
  (feeRecipient s ≠ 0 -> feeRecipient s' ≠ 0) /\
  (currentState s' ≠ Ended -> allocations s' = allocations s).
Proof.
  induction 1 as [s|s1 s2 s3 Hone _ IH].
  - repeat split; try done. apply advances_refl.
  - destruct IH as (-> & -> & -> & -> & -> & -> & -> & -> & Hadv & Hfee & Hall).
    destruct Hone as [(Hs & ->)|[(Hs & ->)|[(Hs & pairs & ->)|(r & Hr & ->)]]];
      cbn in *; repeat split; try done.
    + rewrite Hs. by destruct (currentState s3).
    + rewrite Hs. by destruct (currentState s3).
    + intros Hne. exfalso. rewrite Hs in Hadv. by destruct (currentState s3).
    + intros _. by apply Hfee.
Qed.

Lemma inner_reach_trans s1 s2 s3 :
  inner_reach s1 s2 -> inner_reach s2 s3 -> inner_reach s1 s3.
Proof. unfold inner_reach. intros ? ?. by etrans. Qed.

(** *** The external calls *)

Lemma call_value_re_ok h to v w sent w' log :
  entered (storage w) = true ->
  Reentrant.call_value h to v w = Ok sent w' log ->
  (sent = true /\ v <= balance w /\ acceptsEther w to = true /\
   this w' = this w /\ token w' = token w /\ balance w' = balance w - v /\
   acceptsEther w' = acceptsEther w /\
   inner_reach (storage w) (storage w') /\
   exists l, log = EtherSent to v :: l /\ Forall is_event l)
  \/ (sent = false /\ w' = w /\ log = []).
Proof.
  unfold Reentrant.call_value. intros He Hrun. inv_run.
  match goal with Hc : call_value _ _ _ = _ |- _ =>
    apply call_value_ok in Hc as [(-> & ? & ? & -> & ->)|(-> & -> & ->)] end.
  - inv_run.
    match goal with Hr : Reentrant.reenter _ _ = _ |- _ =>
      apply reenter_ok in Hr as (? & ? & ? & ? & ? & ?); [|done] end.
    left. repeat split; try done. eexists. split; [|done].
    by rewrite app_nil_r.
  - inv_run. by right.
Qed.

Lemma safeTransfer_re_ok h to amount w u w' log :
  entered (storage w) = true ->
  Reentrant.safeTransfer h to amount w = Ok u w' log ->
  transfer (token w) (this w) to amount = Some (token w') /\
  this w' = this w /\ balance w' = balance w /\
  acceptsEther w' = acceptsEther w /\
  inner_reach (storage w) (storage w') /\
  exists l, log = TokenTransfer to amount :: l /\ Forall is_event l.
Proof.
  unfold Reentrant.safeTransfer. intros He Hrun. inv_run.
  match goal with Hr : Reentrant.reenter _ _ = _ |- _ =>
    apply reenter_ok in Hr as (? & Ht & ? & ? & ? & ?); [|done] end.
  simpl in *. rewrite Ht. repeat split; try done. by eexists.
Qed.

Lemma safeTransferFrom_re_ok h from to amount w u w' log :
  entered (storage w) = true ->
  Reentrant.safeTransferFrom h from to amount w = Ok u w' log ->
  transferFrom (token w) (this w) from to amount = Some (token w') /\
  this w' = this w /\ balance w' = balance w /\
  acceptsEther w' = acceptsEther w /\
  inner_reach (storage w) (storage w') /\
  exists l, log = TokenTransferFrom from to amount :: l /\ Forall is_event l.
Proof.
  unfold Reentrant.safeTransferFrom. intros He Hrun. inv_run.
  match goal with Hr : Reentrant.reenter _ _ = _ |- _ =>
    apply reenter_ok in Hr as (? & Ht & ? & ? & ? & ?); [|done] end.
  simpl in *. rewrite Ht. repeat split; try done. by eexists.
Qed.

(** *** Call-backs and the writes of the call itself *)

(** The call-backs read the state and write the state, the allocations
    and the fee recipient; a write to any other field commutes with
    them. *)
Lemma inner_reach_commute (f : Campaign -> Campaign) :
  (forall s, currentState (f s) = currentState s) ->
  (forall s, allocations (f s) = allocations s) ->
  (forall v s, f (set_currentState v s) = set_currentState v (f s)) ->
  (forall a s, f (set_allocations a s) = set_allocations a (f s)) ->
  (forall r s, f (set_feeRecipient r s) = set_feeRecipient r (f s)) ->
  forall s s', inner_reach s s' -> inner_reach (f s) (f s').
Proof.
  intros Hst Hal Hcs Hca Hcf s s'.
  induction 1 as [s|s1 s2 s3 Hone _ IH]; [apply rtc_refl|].
  eapply rtc_l; [|exact IH].
  destruct Hone as [(Hs & ->)|[(Hs & ->)|[(Hs & pairs & ->)|(r & Hr & ->)]]].
  - left. by rewrite Hst, Hcs.
  - right; left. by rewrite Hst, Hcs.
  - right; right; left. rewrite Hst, Hca, Hal. split; [done|]. by exists pairs.
  - right; right; right. exists r. by rewrite Hcf.
Qed.

Lemma set_entered_eta b (s : Campaign) : entered s = b -> set_entered b s = s.
Proof. intros <-. by destruct s. Qed.

Lemma set_deposits_eta (s : Campaign) m : deposits s = m -> set_deposits m s = s.
Proof. intros <-. by destruct s. Qed.

Lemma set_hasClaimed_eta (s : Campaign) m : hasClaimed s = m -> set_hasClaimed m s = s.
Proof. intros <-. by destruct s. Qed.

(** Call-backs made while the guard is set, seen from outside it. *)
Lemma inner_reach_unguarded s s2 :
  entered s = false ->
  inner_reach (set_entered true s) s2 ->
  inner_reach s (set_entered false s2) /\ entered s2 = true.
Proof.
  intros He Hr. split.
  - rewrite <- (set_entered_eta false s He) at 1.
    change (set_entered false s) with (set_entered false (set_entered true s)).
    by apply (inner_reach_commute (set_entered false)).
  - by apply inner_reach_frame in Hr as (_ & _ & _ & _ & -> & _).
Qed.

Lemma inner_reach_after_write_deposit d v s s2 :
  inner_reach (write_deposit d v s) s2 ->
  inner_reach s (set_deposits (deposits s) s2) /\
  s2 = set_deposits (<[d := v]> (deposits s)) (set_deposits (deposits s) s2).
Proof.
  intros Hr. split.
  - rewrite <- (set_deposits_eta s (deposits s) eq_refl) at 1.
    change (set_deposits (deposits s) s)
      with (set_deposits (deposits s) (write_deposit d v s)).
    by apply (inner_reach_commute (set_deposits (deposits s))).
  - apply inner_reach_frame in Hr as (Hd & _). cbn in Hd.
    rewrite <- Hd. by destruct s2.
Qed.

Lemma inner_reach_after_write_hasClaimed a b s s2 :
  inner_reach (write_hasClaimed a b s) s2 ->
  inner_reach s (set_hasClaimed (hasClaimed s) s2) /\
  s2 = write_hasClaimed a b (set_hasClaimed (hasClaimed s) s2).
Proof.
  intros Hr. split.
  - rewrite <- (set_hasClaimed_eta s (hasClaimed s) eq_refl) at 1.
    change (set_hasClaimed (hasClaimed s) s)
      with (set_hasClaimed (hasClaimed s) (write_hasClaimed a b s)).
    by apply (inner_reach_commute (set_hasClaimed (hasClaimed s))).
  - apply inner_reach_frame in Hr as (_ & _ & _ & Hc & _). cbn in Hc.
    unfold write_hasClaimed. cbn. rewrite <- Hc. by destruct s2.
Qed.

(** *** The refund loop, with call-backs *)

Lemma transferred_events (l : list effect) :
  Forall is_event l -> transferred l = 0.
Proof.
  unfold transferred. induction 1 as [|x l Hx _ IH]; [done|].
  destruct x; try done; cbn in *; by rewrite IH.
Qed.

Lemma transferred_to_events (a : N) (l : list effect) :
  Forall is_event l -> transferred_to a l = 0.
Proof.
  unfold transferred_to. induction 1 as [|x l Hx _ IH]; [done|].
  destruct x; try done; cbn in *; by rewrite IH.
Qed.

Lemma refund_one_re_ok h d w w' log :
  entered (storage w) = true ->
  Reentrant.refund_one h d tt w = Ok tt w' log ->
  (exists s2, inner_reach (storage w) s2 /\
     storage w' = set_deposits (zeroed [d] (deposits (storage w))) s2) /\
  this w' = this w /\ balance w' = balance w /\
  acceptsEther w' = acceptsEther w /\
  transferred log = transferred (refund_log (refunds [d] (deposits (storage w)))) /\
  (forall a, transferred_to a log
             = transferred_to a (refund_log (refunds [d] (deposits (storage w))))).
Proof.
  unfold Reentrant.refund_one. intros He Hrun. inv_run. cbn [zeroed refunds].
  destruct (0 <? rd (deposits (storage w)) d); inv_run; simpl.
  - match goal with Hs : Reentrant.safeTransfer _ _ _ _ = _ |- _ =>
      apply safeTransfer_re_ok in Hs as (_ & ? & ? & ? & Hr & l & -> & Hl);
      [|done] end.
    cbn [storage set_storage] in Hr.
    apply inner_reach_after_write_deposit in Hr as (Hr & Hs2).
    split; [eauto|]. repeat split; try done.
    + change (TokenTransfer d ?x :: l) with ([TokenTransfer d x] ++ l).
      rewrite !transferred_app, (transferred_events l Hl). cbn. lia.
    + intros a. change (TokenTransfer d ?x :: l) with ([TokenTransfer d x] ++ l).
      rewrite !transferred_to_app, (transferred_to_events a l Hl). cbn. lia.
  - split; [|done]. exists (storage w). split; [apply rtc_refl|].
    symmetry. by apply set_deposits_eta.
Qed.

Lemma refund_loop_re_ok h l : forall w w' log,
  entered (storage w) = true ->
  foldM (Reentrant.refund_one h) l tt w = Ok tt w' log ->
  (exists s2, inner_reach (storage w) s2 /\
     storage w' = set_deposits (zeroed l (deposits (storage w))) s2) /\
  this w' = this w /\ balance w' = balance w /\
  acceptsEther w' = acceptsEther w /\
  transferred log = transferred (refund_log (refunds l (deposits (storage w)))) /\
  (forall a, transferred_to a log
             = transferred_to a (refund_log (refunds l (deposits (storage w))))).
Proof.
  induction l as [|d l IH]; intros w w' log He Hrun; cbn [foldM] in Hrun.
  - inv_run. split; [|done]. exists (storage w). split; [apply rtc_refl|].
    symmetry. by apply set_deposits_eta.
  - inv_run.
    match goal with u : unit |- _ => destruct u end.
    match goal with Hd : Reentrant.refund_one _ _ _ _ = _ |- _ =>
      apply refund_one_re_ok in Hd
        as ((s2 & Hr2 & Hs1) & Ht1 & Hb1 & Ha1 & Hl1 & Hl1'); [|done] end.
    assert (He1 : entered (storage x0) = true).
    { rewrite Hs1. cbn. apply inner_reach_frame in Hr2 as (_ & _ & _ & _ & -> & _).
      done. }
    apply IH in Hrun as ((s3 & Hr3 & Hs3) & -> & -> & -> & Hl2 & Hl2'); [|done].
    pose proof (inner_reach_frame _ _ Hr2) as (Hd2 & _).
    assert (Hz : zeroed (d :: l) (deposits (storage w))
                 = zeroed l (zeroed [d] (deposits (storage w)))).
    { cbn [zeroed]. by destruct (0 <? rd (deposits (storage w)) d). }
    assert (Hrf : refund_log (refunds (d :: l) (deposits (storage w)))
                  = refund_log (refunds [d] (deposits (storage w)))
                    ++ refund_log (refunds l (zeroed [d] (deposits (storage w))))).
    { cbn [zeroed refunds]. by destruct (0 <? rd (deposits (storage w)) d). }
    rewrite Hz, Hrf. rewrite Hs1 in Hs3, Hr3, Hl2, Hl2'. cbn [deposits set_deposits] in *.
    repeat split; try done.
    + exists (set_deposits (deposits (storage w)) s3). split.
      * etrans; [exact Hr2|].
        rewrite <- (set_deposits_eta s2 (deposits (storage w)) Hd2) at 1.
        change (set_deposits (deposits (storage w)) s2)
          with (set_deposits (deposits (storage w))
                  (set_deposits (zeroed [d] (deposits (storage w))) s2)).
        by apply (inner_reach_commute (set_deposits (deposits (storage w)))).
      * by rewrite Hs3.
    + by rewrite !transferred_app, Hl1, Hl2.
    + intros a. by rewrite !transferred_to_app, Hl1', Hl2'.
Qed.

Lemma refund_loop_re_eq h w :
  entered (storage w) = true ->
  for_loop (length (depositors (storage w))) 0 tt (fun i _ =>
    do ds <- sload depositors;
    do depositor <- index ds i;
    do depositAmount <- sload (fun c => rd (deposits c) depositor);
    if 0 <? depositAmount then
      sstore (write_deposit depositor 0);;
      Reentrant.safeTransfer h depositor depositAmount;;
      emit (FundsRescued depositor depositAmount)
    else ret tt) w
  = foldM (Reentrant.refund_one h) (depositors (storage w)) tt w.
Proof.
  intros He.
  rewrite (for_loop_foldM
             (fun w' => depositors (storage w') = depositors (storage w) /\
                        entered (storage w') = true)
             (depositors (storage w)) (Reentrant.refund_one h));
    [done | | | done | done].
  - intros j [] x w1 [Hw1 _] Hx.
    erewrite bind_run by reflexivity.
    erewrite bind_run by (rewrite Hw1; by apply index_run).
    done.
  - intros x [] w1 [] w2 log [Hw1 He1] Hrun.
    apply refund_one_re_ok in Hrun as ((s2 & Hr & ->) & _); [|done].
    cbn [depositors entered set_deposits].
    apply inner_reach_frame in Hr as (_ & _ & -> & _ & -> & _). done.
Qed.

(** *** What a successful call has done, with call-backs *)

Lemma deposit_re_ok h sender value amount w w' log :
  Reentrant.deposit h sender value amount w = Ok tt w' log ->
  reentrant_effect sender (Call_deposit value amount) (storage w) (storage w') /\
  value = DEPOSIT_FEE /\
  value <= balance w /\ acceptsEther w (feeRecipient (storage w)) = true /\
  transferFrom (token w) (this w) sender (this w) amount = Some (token w') /\
  this w' = this w /\ balance w' = balance w - value /\
  acceptsEther w' = acceptsEther w /\
  exists l1 l2,
    log = EtherSent (feeRecipient (storage w)) value :: l1 ++
          TokenTransferFrom sender (this w) amount :: l2 ++
          [Emit (Deposit sender amount value)] /\
    Forall is_event l1 /\ Forall is_event l2.
Proof.
  unfold Reentrant.deposit, nonReentrant. intros Hrun. inv_run.
  match goal with Hc : Reentrant.call_value _ _ _ _ = _ |- _ =>
    apply call_value_re_ok in Hc
      as [(-> & Hv & Hacc & Hthis1 & Htok1 & Hbal1 & Hacc1 & Hr1 & l1 & -> & Hl1)
         |(-> & -> & ->)]; [| |done] end;
    [|discriminate].
  cbn [storage set_storage] in Hr1.
  pose proof (inner_reach_frame _ _ Hr1) as F1.
  match goal with Hc : Reentrant.safeTransferFrom _ _ _ _ _ = _ |- _ =>
    apply safeTransferFrom_re_ok in Hc
      as (Htf & Hthis2 & Hbal2 & Hacc2 & Hr2 & l2 & -> & Hl2) end.
  2:{ destruct F1 as (_ & _ & _ & _ & -> & _). done. }
  pose proof (inner_reach_trans _ _ _ Hr1 Hr2) as Hr.
  match goal with He : negb (entered (storage w)) = true |- _ =>
    apply negb_true_iff in He; rename He into Hent end.
  apply inner_reach_unguarded in Hr as (Hr & _); [|done].
  pose proof (inner_reach_frame _ _ Hr) as (Hd & Htot & Hds & _).
  cbn [deposits totalDeposits depositors set_entered] in Hd, Htot, Hds.
  norm_hyps. subst value.
  match type of Hr2 with inner_reach (storage ?a) (storage ?b) =>
    rename a into w1; rename b into w2 end.
  destruct (N.eqb_spec (rd (deposits (storage w2)) sender) 0) as [Hz|Hz];
    inv_run; cbn [storage set_storage token this balance acceptsEther] in *.
  all: rewrite ?Hthis2, ?Hbal2, ?Hacc2, ?Hthis1, ?Hbal1, ?Hacc1 in *.
  all: rewrite ?Htok1 in Htf.
  all: cbn [storage set_storage token this balance acceptsEther] in *.
  all: split; [cbn [reentrant_effect]; repeat split; try done|].
  all: try (cbn in *; lia).
  all: try (exists (set_entered false (storage w2)); split; [done|];
            rewrite <- Hd, <- Htot;
            first [ rewrite (proj2 (N.eqb_eq _ _) Hz)
                  | rewrite (proj2 (N.eqb_neq _ _) Hz) ];
            reflexivity).
  all: repeat split; try done.
  all: exists l1, l2; repeat split; try done.
  all: cbn [app]; by rewrite ?app_nil_r, <- ?app_assoc.
Qed.

Lemma claimTokens_re_ok h sender w w' log :
  Reentrant.claimTokens h sender w = Ok tt w' log ->
  reentrant_effect sender Call_claimTokens (storage w) (storage w') /\
  transfer (token w) (this w) sender (rd (allocations (storage w)) sender)
    = Some (token w') /\
  this w' = this w /\ balance w' = balance w /\
  acceptsEther w' = acceptsEther w /\
  exists l,
    log = TokenTransfer sender (rd (allocations (storage w)) sender) :: l ++
          [Emit (TokensClaimed sender (rd (allocations (storage w)) sender))] /\
    Forall is_event l.
Proof.
  unfold Reentrant.claimTokens, inState, nonReentrant. intros Hrun. inv_run.
  norm_hyps.
  match goal with Hc : Reentrant.safeTransfer _ _ _ _ = _ |- _ =>
    apply safeTransfer_re_ok in Hc
      as (Htf & Hthis & Hbal & Hacc & Hr & l & -> & Hl); [|done] end.
  cbn [storage set_storage token this balance acceptsEther] in *.
  match type of Hr with inner_reach _ (storage ?b) => rename b into w2 end.
  change (write_hasClaimed sender true (set_entered true (storage w)))
    with (set_entered true (write_hasClaimed sender true (storage w))) in Hr.
  apply inner_reach_unguarded in Hr as (Hr & _); [|done].
  apply inner_reach_after_write_hasClaimed in Hr as (Hr & Hs2).
  split; [cbn [reentrant_effect]; repeat split; try done|].
  - eexists. split; [exact Hr|]. exact Hs2.
  - repeat split; try done. exists l. split; [|done].
    cbn [app]. by rewrite ?app_nil_r, <- ?app_assoc.
Qed.

Lemma withdrawEther_re_ok h sender w w' log :
  Reentrant.withdrawEther h sender w = Ok tt w' log ->
  reentrant_effect sender Call_withdrawEther (storage w) (storage w') /\
  0 < balance w /\ acceptsEther w (owner (storage w)) = true /\
  this w' = this w /\ token w' = token w /\ balance w' = 0 /\
  acceptsEther w' = acceptsEther w /\
  exists l, log = EtherSent (owner (storage w)) (balance w) :: l /\
            Forall is_event l.
Proof.
  unfold Reentrant.withdrawEther, onlyOwner, nonReentrant. intros Hrun. inv_run.
  match goal with Hc : Reentrant.call_value _ _ _ _ = _ |- _ =>
    apply call_value_re_ok in Hc
      as [(-> & Hv & Hacc & Hthis1 & Htok1 & Hbal1 & Hacc1 & Hr1 & l1 & -> & Hl1)
         |(-> & -> & ->)]; [| |done] end;
    [|discriminate].
  norm_hyps.
  cbn [storage set_storage token this balance acceptsEther] in *.
  apply inner_reach_unguarded in Hr1 as (Hr & _); [|done].
  split; [cbn [reentrant_effect]; repeat split; try done|].
  repeat split; try done; try lia.
  exists l1. split; [|done]. cbn [app]. by rewrite ?app_nil_r.
Qed.

Lemma rescueRemainingTokens_re_ok h sender w w' log :
  Reentrant.rescueRemainingTokens h sender w = Ok tt w' log ->
  let totalAllocated :=
    sumN (map (rd (allocations (storage w))) (depositors (storage w))) in
  let contractBalance := balanceOf (token w) (this w) in
  reentrant_effect sender Call_rescueRemainingTokens (storage w) (storage w') /\
  totalAllocated <= MAX_UINT256 /\
  totalAllocated < contractBalance /\
  transfer (token w) (this w) (owner (storage w)) (contractBalance - totalAllocated)
    = Some (token w') /\
  this w' = this w /\ balance w' = balance w /\
  acceptsEther w' = acceptsEther w /\
  exists l,
    log = TokenTransfer (owner (storage w)) (contractBalance - totalAllocated) :: l ++
          [Emit (RemainingTokensRescued (contractBalance - totalAllocated))] /\
    Forall is_event l.
Proof.
  unfold Reentrant.rescueRemainingTokens, onlyOwner, inState, nonReentrant.
  intros Hrun. inv_run. norm_hyps.
  match goal with Hl : for_loop _ _ _ _ _ = _ |- _ =>
    change (length (depositors (storage w)))
      with (length (depositors (storage (set_storage (set_entered true) w)))) in Hl;
    rewrite count_loop_eq in Hl end.
  set (w1 := set_storage (set_entered true) w) in *.
  destruct (N.le_gt_cases
              (sumN (map (rd (allocations (storage w1))) (depositors (storage w1))))
              MAX_UINT256) as [Hle|Hgt].
  - match goal with Hl : foldM _ _ _ _ = _ |- _ =>
      rewrite count_loop_run in Hl by lia; injection Hl as <- <- <- end.
    match goal with Hc : Reentrant.safeTransfer _ _ _ _ = _ |- _ =>
      apply safeTransfer_re_ok in Hc
        as (Htf & Hthis & Hbal & Hacc & Hr & l & -> & Hl); [|done] end.
    subst w1. cbn [storage set_storage token this balance acceptsEther] in *.
    cbn [allocations depositors owner set_entered] in *.
    rewrite !N.add_0_l in *.
    apply inner_reach_unguarded in Hr as (Hr & _); [|done].
    split; [cbn [reentrant_effect]; repeat split; try done|].
    repeat split; try done. exists l. split; [|done].
    cbn [app]. by rewrite ?app_nil_r, <- ?app_assoc.
  - match goal with Hl : foldM _ _ _ _ = _ |- _ =>
      rewrite count_loop_overflow in Hl by (try apply N.le_0_l; lia) end.
    discriminate.
Qed.

Lemma changeStateToRescue_re_ok h sender w w' log :
  Reentrant.changeStateToRescue h sender w = Ok tt w' log ->
  reentrant_effect sender Call_changeStateToRescue (storage w) (storage w') /\
  this w' = this w /\ balance w' = balance w /\
  acceptsEther w' = acceptsEther w /\
  transferred log
  = transferred (refund_log (refunds (depositors (storage w)) (deposits (storage w)))) /\
  (forall a, transferred_to a log
             = transferred_to a
                 (refund_log (refunds (depositors (storage w)) (deposits (storage w))))).
Proof.
  unfold Reentrant.changeStateToRescue, onlyOwner, inState, nonReentrant.
  intros Hrun. inv_run. norm_hyps.
  match goal with Hl : for_loop _ _ _ _ _ = _ |- _ =>
    change (length (depositors (storage w)))
      with (length (depositors (storage (set_storage (set_entered true) w)))) in Hl;
    rewrite refund_loop_re_eq in Hl by done;
    match type of Hl with _ = Ok ?u _ _ => destruct u end;
    apply refund_loop_re_ok in Hl
      as ((s2 & Hr & Hs) & Hthis & Hbal & Hacc & Hlog & Hlog'); [|done] end.
  cbn [storage set_storage token this balance acceptsEther] in *.
  cbn [deposits depositors set_entered] in *.
  apply inner_reach_unguarded in Hr as (Hr & _); [|done].
  split; [cbn [reentrant_effect]; repeat split; try done|].
  - exists (set_entered false s2). split; [done|]. by rewrite Hs.
  - repeat split; try done.
    + rewrite !transferred_app, Hlog. cbn. lia.
    + intros a. rewrite !transferred_to_app, Hlog'. cbn. lia.
Qed.

(** A successful call has done its own writes on top of what the
    call-backs did. *)
Lemma dispatch_re_effect h sender c w w' log :
  Reentrant.dispatch h sender c w = Ok tt w' log ->
  reentrant_effect sender c (storage w) (storage w').
Proof.
  destruct c; cbn [Reentrant.dispatch]; intros Hrun.
  - inv_run. by apply deposit_re_ok in Hrun as (? & _).
  - apply changeStateToLive_ok in Hrun as (? & ? & -> & _). done.
  - by apply changeStateToRescue_re_ok in Hrun as (? & _).
  - apply changeStateToEnded_ok in Hrun as (? & ? & -> & _). done.
  - apply setAllocations_ok in Hrun as (? & ? & ? & ? & ? & -> & _). done.
  - by apply claimTokens_re_ok in Hrun as (? & _).
  - by apply rescueRemainingTokens_re_ok in Hrun as (? & _).
  - apply updateFeeRecipient_ok in Hrun as (? & ? & -> & _). done.
  - by apply withdrawEther_re_ok in Hrun as (? & _).
Qed.

(** *** Callees that make no call *)

Lemma bind_ext {A B} (m m' : @M T A) (k k' : A -> @M T B) w :
  m w = m' w -> (forall a w1, k a w1 = k' a w1) -> bind m k w = bind m' k' w.
Proof.
  intros Hm Hk. unfold bind. rewrite Hm.
  destruct (m' w) as [a w1 l1|]; [|done]. by rewrite Hk.
Qed.

Lemma for_loop_ext {A} (body body' : nat -> A -> @M T A) :
  (forall i a w, body i a w = body' i a w) ->
  forall n i acc w, for_loop n i acc body w = for_loop n i acc body' w.
Proof.
  intros Hb. induction n as [|n IH]; intros i acc w; [done|].
  cbn [for_loop]. apply bind_ext; [apply Hb | intros; apply IH].
Qed.

Lemma call_value_quiet to v w :
  Reentrant.call_value Reentrant.quiet to v w = call_value to v w.
Proof.
  unfold Reentrant.call_value, bind, call_value.
  destruct ((v <=? balance w) && acceptsEther w to); done.
Qed.

Lemma safeTransfer_quiet to amount w :
  Reentrant.safeTransfer Reentrant.quiet to amount w = safeTransfer to amount w.
Proof.
  unfold Reentrant.safeTransfer, bind, safeTransfer.
  destruct (transfer (token w) (this w) to amount); done.
Qed.

Lemma safeTransferFrom_quiet from to amount w :
  Reentrant.safeTransferFrom Reentrant.quiet from to amount w
  = safeTransferFrom from to amount w.
Proof.
  unfold Reentrant.safeTransferFrom, bind, safeTransferFrom.
  destruct (transferFrom (token w) (this w) from to amount); done.
Qed.

(** Step through two computations that differ in their external calls
    only. *)
Ltac same_but_calls :=
  repeat first
    [ reflexivity
    | apply call_value_quiet
    | apply safeTransfer_quiet
    | apply safeTransferFrom_quiet
    | apply bind_ext; [|intros]
    | apply for_loop_ext; intros
    | match goal with |- (if ?b then _ else _) _ = _ => destruct b end ].

Lemma dispatch_quiet sender c w :
  Reentrant.dispatch Reentrant.quiet sender c w = dispatch sender c w.
Proof.
  destruct c; cbn [Reentrant.dispatch dispatch]; try reflexivity.
  - unfold Reentrant.deposit, deposit, nonReentrant. same_but_calls.
  - unfold Reentrant.changeStateToRescue, changeStateToRescue,
      onlyOwner, inState, nonReentrant. same_but_calls.
  - unfold Reentrant.claimTokens, claimTokens, inState, nonReentrant.
    same_but_calls.
  - unfold Reentrant.rescueRemainingTokens, rescueRemainingTokens,
      onlyOwner, inState, nonReentrant. same_but_calls.
  - unfold Reentrant.withdrawEther, withdrawEther, onlyOwner, nonReentrant.
    same_but_calls.
Qed.

Lemma transact_quiet w sender c :
  Reentrant.transact Reentrant.quiet w sender c = transact w sender c.
Proof. unfold Reentrant.transact, transact. by rewrite dispatch_quiet. Qed.

(** *** Transactions, with call-backs *)

Lemma transact_re_success h w sender c log w' :
  Reentrant.transact h w sender c = (Success log, w')
  <-> Reentrant.dispatch h sender c w = Ok tt w' log.
Proof.
  unfold Reentrant.transact.
  destruct (Reentrant.dispatch h sender c w) as [[] w1 l1|e w1]; split;
    intros Heq; by simplify_eq.
Qed.

Lemma transact_re_failure h w sender c e w' :
  Reentrant.transact h w sender c = (Failure e, w') ->
  w' = w /\ exists w'', Reentrant.dispatch h sender c w = Err e w''.
Proof.
  unfold Reentrant.transact.
  destruct (Reentrant.dispatch h sender c w) as [[] w1 l1|e1 w1];
    intros Heq; simplify_eq; eauto.
Qed.

Lemma transact_re_err h w sender c e w'' :
  Reentrant.dispatch h sender c w = Err e w'' ->
  Reentrant.transact h w sender c = (Failure e, w).
Proof. unfold Reentrant.transact. by intros ->. Qed.

Lemma step_re_storage w w' :
  Reentrant.step w w' ->
  storage w' = storage w \/
  exists sender c, reentrant_effect sender c (storage w) (storage w').
Proof.
  intros [h w0 sender c|w0 tk bal acc]; [|by left].
  unfold Reentrant.transact.
  destruct (Reentrant.dispatch h sender c w0) as [[] w1 l1|e1 w1] eqn:Hd;
    [|by left].
  right. exists sender, c. by eapply dispatch_re_effect.
Qed.

(** *** The external calls, as they run *)

Lemma call_value_re_run h to v w :
  entered (storage w) = true ->
  v <= balance w -> acceptsEther w to = true ->
  exists w' l,
    Reentrant.call_value h to v w = Ok true w' (EtherSent to v :: l) /\
    this w' = this w /\ token w' = token w /\ entered (storage w') = true.
Proof.
  intros He Hv Hacc. unfold Reentrant.call_value.
  set (w1 := set_balance (balance w - v) w).
  destruct (reenter_total (Reentrant.on_value h w1 to v) w1) as (w' & l & Hr).
  exists w', l. split.
  - erewrite bind_run_log.
    2:{ unfold call_value. rewrite Hacc.
        destruct (N.leb_spec v (balance w)); [|lia]. reflexivity. }
    cbn [app]. erewrite bind_run_log by (fold w1; exact Hr).
    cbn. by rewrite app_nil_r.
  - apply reenter_ok in Hr as (-> & -> & _ & _ & Hreach & _); [|done].
    repeat split; try done.
    by apply inner_reach_frame in Hreach as (_ & _ & _ & _ & -> & _).
Qed.

Lemma call_value_re_refused h to v w :
  acceptsEther w to = false ->
  Reentrant.call_value h to v w = Ok false w [].
Proof.
  intros Hacc. unfold Reentrant.call_value.
  erewrite bind_run.
  2:{ unfold call_value. rewrite Hacc, andb_false_r. reflexivity. }
  done.
Qed.

Lemma safeTransfer_re_refused h to amount w :
  transfer (token w) (this w) to amount = None ->
  Reentrant.safeTransfer h to amount w = Err SafeERC20Failed w.
Proof.
  intros Ht. unfold Reentrant.safeTransfer. apply bind_err.
  unfold safeTransfer. by rewrite Ht.
Qed.

Lemma safeTransferFrom_re_refused h from to amount w :
  transferFrom (token w) (this w) from to amount = None ->
  Reentrant.safeTransferFrom h from to amount w = Err SafeERC20Failed w.
Proof.
  intros Ht. unfold Reentrant.safeTransferFrom. apply bind_err.
  unfold safeTransferFrom. by rewrite Ht.
Qed.

(** *** What each function refuses *)

Lemma not_the_owner_fails h w sender c :
  owner_only c = true ->
  sender ≠ owner (storage w) ->
  exists w'', Reentrant.dispatch h sender c w
              = Err (Revert "Only owner can call this") w''.
Proof.
  intros Hc Hne.
  assert (Hreq : (sender =? owner (storage w)) = false) by (by apply N.eqb_neq).
  eexists.
  destruct c; try discriminate Hc; cbn [Reentrant.dispatch];
    unfold changeStateToLive, Reentrant.changeStateToRescue, changeStateToEnded,
      setAllocations, Reentrant.rescueRemainingTokens, updateFeeRecipient,
      Reentrant.withdrawEther, onlyOwner; run; by rewrite require_fail.
Qed.

Lemma wrong_state_fails h w sender c required :
  match c with
  | Call_changeStateToLive | Call_changeStateToRescue => required = Graduating
  | Call_changeStateToEnded => required = Live
  | Call_setAllocations _ _ | Call_claimTokens | Call_rescueRemainingTokens =>
      required = Ended
  | _ => False
  end ->
  (owner_only c = true -> sender = owner (storage w)) ->
  currentState (storage w) ≠ required ->
  exists w'', Reentrant.dispatch h sender c w
              = Err (Revert "Invalid state for this action") w''.
Proof.
  intros Hreq Hown Hs. eexists.
  destruct c; try done; subst required; cbn [Reentrant.dispatch];
    try rewrite (Hown eq_refl);
    unfold changeStateToLive, Reentrant.changeStateToRescue, changeStateToEnded,
      setAllocations, Reentrant.claimTokens, Reentrant.rescueRemainingTokens,
      onlyOwner, inState; run;
    try (rewrite require_run by apply N.eqb_refl; run);
    by rewrite require_fail by (by apply bool_decide_eq_false_2).
Qed.

Lemma deposit_re_refused h w sender value amount :
  entered (storage w) = false ->
  (currentState (storage w) = Rescue \/ currentState (storage w) = Ended ->
   exists w'', Reentrant.dispatch h sender (Call_deposit value amount) w
     = Err (Revert "Deposits are not allowed in the current state") w'') /\
  (currentState (storage w) = Graduating \/ currentState (storage w) = Live ->
   (value ≠ DEPOSIT_FEE ->
    exists w'', Reentrant.dispatch h sender (Call_deposit value amount) w
      = Err (Revert "Incorrect ETH fee sent") w'') /\
   (value = DEPOSIT_FEE ->
    acceptsEther w (feeRecipient (storage w)) = false ->
    exists w'', Reentrant.dispatch h sender (Call_deposit value amount) w
      = Err (Revert "Failed to transfer ETH fee") w'') /\
   (value = DEPOSIT_FEE ->
    acceptsEther w (feeRecipient (storage w)) = true ->
    transferFrom (token w) (this w) sender (this w) amount = None ->
    exists w'', Reentrant.dispatch h sender (Call_deposit value amount) w
      = Err SafeERC20Failed w'')).
Proof.
  intros He. split; [|intros Hs; split; [|split]].
  - intros Hs. eexists. unfold Reentrant.dispatch, Reentrant.deposit, nonReentrant.
    run. rewrite require_run by (simpl; by rewrite He). run.
    rewrite require_fail by (simpl; destruct Hs as [-> | ->]; done). done.
  - intros Hv. eexists. unfold Reentrant.dispatch, Reentrant.deposit, nonReentrant.
    run. rewrite require_run by (simpl; by rewrite He). run.
    rewrite require_run by (simpl; destruct Hs as [-> | ->]; done).
    run. rewrite require_fail by (by apply N.eqb_neq). done.
  - intros -> Hacc. eexists.
    unfold Reentrant.dispatch, Reentrant.deposit, nonReentrant.
    run. rewrite require_run by (simpl; by rewrite He). run.
    rewrite require_run by (simpl; destruct Hs as [-> | ->]; done).
    run. erewrite bind_run by (by apply call_value_re_refused).
    run. by rewrite require_fail.
  - intros -> Hacc Ht.
    set (w1 := set_storage (set_entered true)
                 (set_balance (balance w + DEPOSIT_FEE) w)).
    destruct (call_value_re_run h (feeRecipient (storage w)) DEPOSIT_FEE w1)
      as (w2 & l & Hcall & Hthis & Htok & _); [done | simpl; lia | done |].
    eexists. unfold Reentrant.dispatch, Reentrant.deposit, nonReentrant.
    run. rewrite require_run by (simpl; by rewrite He). run.
    rewrite require_run by (simpl; destruct Hs as [-> | ->]; done).
    run. erewrite bind_run_log by exact Hcall.
    run. erewrite bind_err; [reflexivity|].
    apply safeTransferFrom_re_refused. by rewrite Htok, Hthis.
Qed.

Lemma setAllocations_refused w users amounts :
  currentState (storage w) = Ended ->
  (length users ≠ length amounts ->
   exists w'', setAllocations (owner (storage w)) users amounts w
     = Err (Revert "Mismatched input lengths") w'') /\
  (length users = length amounts ->
   sumN amounts <= MAX_UINT256 ->
   totalDeposits (storage w) < sumN amounts ->
   exists w'', setAllocations (owner (storage w)) users amounts w
     = Err (Revert "Allocation exceeds deposits") w'').
Proof.
  intros Hs. split.
  - intros Hlen. eexists. unfold setAllocations, onlyOwner, inState. run.
    rewrite require_run by apply N.eqb_refl. run.
    rewrite require_run by (by apply bool_decide_eq_true_2). run.
    rewrite require_fail by (by apply Nat.eqb_neq). done.
  - intros Hlen Hmax Hlt. by apply setAllocations_exceeds.
Qed.

Lemma claimTokens_re_refused h w sender :
  currentState (storage w) = Ended -> entered (storage w) = false ->
  (rd (allocations (storage w)) sender = 0 ->
   exists w'', Reentrant.claimTokens h sender w
     = Err (Revert "No tokens allocated") w'') /\
  (rd (allocations (storage w)) sender ≠ 0 ->
   rdb (hasClaimed (storage w)) sender = true ->
   exists w'', Reentrant.claimTokens h sender w
     = Err (Revert "Tokens already claimed") w'') /\
  (rd (allocations (storage w)) sender ≠ 0 ->
   rdb (hasClaimed (storage w)) sender = false ->
   transfer (token w) (this w) sender (rd (allocations (storage w)) sender) = None ->
   exists w'', Reentrant.claimTokens h sender w = Err SafeERC20Failed w'' /\
               rdb (hasClaimed (storage w'')) sender = true).
Proof.
  intros Hs He. split; [|split].
  - intros Ha. unfold Reentrant.claimTokens, inState, nonReentrant. run.
    rewrite require_run by (by apply bool_decide_eq_true_2). run.
    rewrite require_run by (simpl; by rewrite He). run.
    rewrite require_fail by (simpl; by rewrite Ha). eauto.
  - intros Ha Hc. unfold Reentrant.claimTokens, inState, nonReentrant. run.
    rewrite require_run by (by apply bool_decide_eq_true_2). run.
    rewrite require_run by (simpl; by rewrite He). run.
    rewrite require_run by (simpl; apply N.ltb_lt; lia). run.
    rewrite require_fail by (simpl; by rewrite Hc). eauto.
  - intros Ha Hc Ht. unfold Reentrant.claimTokens, inState, nonReentrant. run.
    rewrite require_run by (by apply bool_decide_eq_true_2). run.
    rewrite require_run by (simpl; by rewrite He). run.
    rewrite require_run by (simpl; apply N.ltb_lt; lia). run.
    rewrite require_run by (simpl; by rewrite Hc). run.
    erewrite bind_err by (by apply safeTransfer_re_refused).
    eexists. split; [reflexivity|]. cbn. unfold rdb. by rewrite lookup_insert_eq.
Qed.

Lemma rescueRemainingTokens_re_refused h w :
  let totalAllocated :=
    sumN (map (rd (allocations (storage w))) (depositors (storage w))) in
  let contractBalance := balanceOf (token w) (this w) in
  currentState (storage w) = Ended -> entered (storage w) = false ->
  totalAllocated <= MAX_UINT256 ->
  (contractBalance <= totalAllocated ->
   exists w'', Reentrant.rescueRemainingTokens h (owner (storage w)) w
     = Err (Revert "No remaining tokens to rescue") w'') /\
  (totalAllocated < contractBalance ->
   transfer (token w) (this w) (owner (storage w)) (contractBalance - totalAllocated)
     = None ->
   exists w'', Reentrant.rescueRemainingTokens h (owner (storage w)) w
     = Err SafeERC20Failed w'').
Proof.
  intros tA cB Hs He Hmax. split.
  - intros Hle.
    unfold Reentrant.rescueRemainingTokens, onlyOwner, inState, nonReentrant. run.
    rewrite require_run by apply N.eqb_refl. run.
    rewrite require_run by (by apply bool_decide_eq_true_2). run.
    rewrite require_run by (simpl; by rewrite He). run.
    erewrite bind_run;
      [|rewrite count_loop_eq; apply count_loop_run; simpl; fold tA; lia].
    run. simpl. fold tA cB. rewrite !N.add_0_l.
    rewrite require_fail by (apply N.ltb_ge; lia). eauto.
  - intros Hlt Ht.
    unfold Reentrant.rescueRemainingTokens, onlyOwner, inState, nonReentrant. run.
    rewrite require_run by apply N.eqb_refl. run.
    rewrite require_run by (by apply bool_decide_eq_true_2). run.
    rewrite require_run by (simpl; by rewrite He). run.
    erewrite bind_run;
      [|rewrite count_loop_eq; apply count_loop_run; simpl; fold tA; lia].
    run. simpl. fold tA cB. rewrite !N.add_0_l.
    rewrite require_run by (by apply N.ltb_lt). run.
    erewrite bind_run by (apply checked_sub_run; lia). run.
    rewrite require_run by (apply N.ltb_lt; lia). run.
    erewrite bind_err by (by apply safeTransfer_re_refused). eauto.
Qed.

Lemma withdrawEther_re_refused h w :
  entered (storage w) = false ->
  (balance w = 0 ->
   exists w'', Reentrant.withdrawEther h (owner (storage w)) w
     = Err (Revert "No ETH to withdraw") w'') /\
  (balance w ≠ 0 -> acceptsEther w (owner (storage w)) = false ->
   exists w'', Reentrant.withdrawEther h (owner (storage w)) w
     = Err (Revert "Failed to withdraw ETH") w'').
Proof.
  intros He. split.
  - intros Hz. unfold Reentrant.withdrawEther, onlyOwner, nonReentrant.
    run. rewrite require_run by apply N.eqb_refl. run.
    rewrite require_run by (by rewrite He). run.
    rewrite require_fail by (simpl; by rewrite Hz). eauto.
  - intros Hnz Hacc. unfold Reentrant.withdrawEther, onlyOwner, nonReentrant.
    run. rewrite require_run by apply N.eqb_refl. run.
    rewrite require_run by (by rewrite He). run.
    rewrite require_run by (simpl; apply N.ltb_lt; lia). run.
    erewrite bind_run by (by apply call_value_re_refused).
    rewrite require_fail by done. eauto.
Qed.

Lemma updateFeeRecipient_refused w :
  updateFeeRecipient (owner (storage w)) 0 w
  = Err (Revert "Invalid fee recipient address") w.
Proof.
  unfold updateFeeRecipient, onlyOwner. run.
  rewrite require_run by apply N.eqb_refl. run.
  by rewrite require_fail.
Qed.

(** *** The errors a call can end with *)

Section Errors.
Variable E : error -> Prop.

Local Abbreviation aborts_in := (Reentrant.aborts_in (T:=T) E).

Lemma aborts_bind {A B} (m : @M T A) (k : A -> @M T B) :
  aborts_in m -> (forall a, aborts_in (k a)) -> aborts_in (bind m k).
Proof.
  intros Hm Hk w e w''. unfold bind.
  destruct (m w) as [a w1 l1|e1 w1] eqn:Hmw.
  - destruct (k a w1) as [b w2 l2|e2 w2] eqn:Hkw; [discriminate|].
    intros [= <- <-]. by eapply Hk.
  - intros [= <- <-]. by eapply Hm.
Qed.

Lemma aborts_require cond reason :
  E (Revert reason) -> aborts_in (require cond reason).
Proof. intros HE w e w''. destruct cond; [discriminate|]. by intros [= <- _]. Qed.

Lemma aborts_checked_add a b : E (Panic 17) -> aborts_in (checked_add a b).
Proof.
  intros HE w e w''. unfold checked_add.
  destruct (a + b <=? MAX_UINT256); [discriminate|]. by intros [= <- _].
Qed.

Lemma aborts_checked_sub a b : E (Panic 17) -> aborts_in (checked_sub a b).
Proof.
  intros HE w e w''. unfold checked_sub.
  destruct (b <=? a); [discriminate|]. by intros [= <- _].
Qed.

Lemma aborts_index arr i : E (Panic 50) -> aborts_in (index arr i).
Proof.
  intros HE w e w''. unfold index.
  destruct (arr !! i); [discriminate|]. by intros [= <- _].
Qed.

Lemma aborts_for_loop {A} (body : nat -> A -> @M T A) :
  (forall i a, aborts_in (body i a)) ->
  forall n i acc, aborts_in (for_loop n i acc body).
Proof.
  intros Hb. induction n as [|n IH]; intros i acc; cbn [for_loop].
  - intros w e w''. discriminate.
  - apply aborts_bind; [apply Hb | intros a; apply IH].
Qed.

Lemma aborts_reenter calls : aborts_in (Reentrant.reenter calls).
Proof.
  intros w e w'' Hr. destruct (reenter_total calls w) as (w' & log & Hok).
  congruence.
Qed.

Lemma aborts_call_value h to v : aborts_in (Reentrant.call_value h to v).
Proof.
  unfold Reentrant.call_value. apply aborts_bind.
  - intros w e w''. unfold call_value.
    by destruct ((v <=? balance w) && acceptsEther w to).
  - intros [|]; [|by intros w e w''].
    apply aborts_bind; [|by intros ? w e w''].
    intros w e w''. apply aborts_reenter.
Qed.

Lemma aborts_safeTransfer h to amount :
  E SafeERC20Failed -> aborts_in (Reentrant.safeTransfer h to amount).
Proof.
  intros HE. unfold Reentrant.safeTransfer. apply aborts_bind.
  - intros w e w''. unfold safeTransfer.
    destruct (transfer _ _ _ _); [discriminate|]. by intros [= <- _].
  - intros _ w e w''. apply aborts_reenter.
Qed.

Lemma aborts_safeTransferFrom h from to amount :
  E SafeERC20Failed -> aborts_in (Reentrant.safeTransferFrom h from to amount).
Proof.
  intros HE. unfold Reentrant.safeTransferFrom. apply aborts_bind.
  - intros w e w''. unfold safeTransferFrom.
    destruct (transferFrom _ _ _ _ _); [discriminate|]. by intros [= <- _].
  - intros _ w e w''. apply aborts_reenter.
Qed.

End Errors.

(** Every abort of a call is with one of the errors of the contract. *)
Lemma dispatch_re_errors h sender c w e w'' :
  Reentrant.dispatch h sender c w = Err e w'' -> e ∈ contract_errors.
Proof.
  assert (Hin : forall x, In x contract_errors -> x ∈ contract_errors)
    by (intros x; apply list_elem_of_In).
  revert w e w''.
  change (Reentrant.aborts_in (fun e => e ∈ contract_errors)
            (Reentrant.dispatch h sender c)).
  destruct c; cbn [Reentrant.dispatch];
    unfold Reentrant.deposit, changeStateToLive, Reentrant.changeStateToRescue,
      changeStateToEnded, setAllocations, Reentrant.claimTokens,
      Reentrant.rescueRemainingTokens, updateFeeRecipient, Reentrant.withdrawEther,
      onlyOwner, inState, nonReentrant;
    repeat first
      [ apply aborts_call_value
      | apply aborts_safeTransfer; apply Hin; cbn; tauto
      | apply aborts_safeTransferFrom; apply Hin; cbn; tauto
      | apply aborts_require; apply Hin; cbn; tauto
      | apply aborts_checked_add; apply Hin; cbn; tauto
      | apply aborts_checked_sub; apply Hin; cbn; tauto
      | apply aborts_index; apply Hin; cbn; tauto
      | apply aborts_for_loop; intros
      | apply aborts_bind; [|intros]
      | match goal with |- Reentrant.aborts_in _ (if ?b then _ else _) =>
          destruct b end
      | (intros w e w''; discriminate) ].
Qed.

(** *** Invariants, with call-backs *)

Lemma advances_from_closed s s' :
  advances s s' = true -> s = Rescue \/ s = Ended -> s' = s.
Proof. by destruct s, s'; intros ? [?|?]. Qed.

Lemma reentrant_effect_state sender c s s' :
  reentrant_effect sender c s s' ->
  advances (currentState s) (currentState s') = true.
Proof.
  destruct c; cbn [reentrant_effect]; intros Heff.
  - destruct Heff as (_ & _ & _ & s2 & Hr & ->).
    apply inner_reach_frame in Hr as (_ & _ & _ & _ & _ & _ & _ & _ & Hadv & _).
    cbn. by destruct (rd (deposits s) sender =? 0).
  - destruct Heff as (_ & Hs & ->). simpl. by rewrite Hs.
  - destruct Heff as (_ & Hs & _). by rewrite Hs.
  - destruct Heff as (_ & Hs & ->). simpl. by rewrite Hs.
  - destruct Heff as (_ & _ & _ & _ & ->). apply advances_refl.
  - destruct Heff as (_ & _ & _ & _ & s2 & Hr & ->).
    by apply inner_reach_frame in Hr as (_ & _ & _ & _ & _ & _ & _ & _ & Hadv & _).
  - destruct Heff as (_ & _ & _ & Hr).
    by apply inner_reach_frame in Hr as (_ & _ & _ & _ & _ & _ & _ & _ & Hadv & _).
  - destruct Heff as (_ & _ & ->). apply advances_refl.
  - destruct Heff as (_ & _ & Hr).
    by apply inner_reach_frame in Hr as (_ & _ & _ & _ & _ & _ & _ & _ & Hadv & _).
Qed.

Lemma advances_re_steps w w' :
  rtc Reentrant.step w w' ->
  advances (currentState (storage w)) (currentState (storage w')) = true.
Proof.
  induction 1 as [w|w1 w2 w3 Hstep _ IH]; [apply advances_refl|].
  eapply advances_trans; [|exact IH].
  apply step_re_storage in Hstep as [-> | (sender & c & Heff)];
    [apply advances_refl|].
  by eapply reentrant_effect_state.
Qed.

(** The deposit ledger is out of the reach of the call-backs. *)
Lemma ledger_inv_fields s s2 :
  deposits s2 = deposits s -> totalDeposits s2 = totalDeposits s ->
  depositors s2 = depositors s -> entered s2 = entered s ->
  ledger_inv s -> ledger_inv s2.
Proof. unfold ledger_inv. by intros -> -> -> ->. Qed.

Lemma ledger_inv_inner_reach s s2 :
  inner_reach s s2 -> ledger_inv s -> ledger_inv s2.
Proof.
  intros Hr. apply inner_reach_frame in Hr as (? & ? & ? & _ & ? & _).
  by apply ledger_inv_fields.
Qed.

Lemma ledger_inv_re_effect sender c s s' :
  ledger_inv s -> reentrant_effect sender c s s' -> ledger_inv s'.
Proof.
  intros Hinv Heff.
  destruct c; cbn [reentrant_effect] in Heff;
    try (by eapply ledger_inv_effect).
  - destruct Heff as (He & Hs & Hmax & s2 & Hr & ->).
    pose proof (inner_reach_frame _ _ Hr) as (Hd & Ht & Hds & _ & Hen & _).
    pose proof (ledger_inv_inner_reach _ _ Hr Hinv) as Hinv2.
    set (s2' := set_currentState (currentState s) s2).
    assert (Hinv2' : ledger_inv s2') by (by apply (ledger_inv_fields s2)).
    assert (Heff : storage_effect sender (Call_deposit value amount) s2'
                     (set_currentState (currentState s)
                        (set_totalDeposits (totalDeposits s + amount)
                           (write_deposit sender (rd (deposits s) sender + amount)
                              (if rd (deposits s) sender =? 0
                               then push_depositor sender s2 else s2))))).
    { cbn [storage_effect]. subst s2'. cbn. rewrite Hen, Hd, Ht.
      repeat split; try done.
      by destruct (rd (deposits s) sender =? 0). }
    apply (ledger_inv_effect _ _ _ _ Hinv2') in Heff.
    revert Heff. apply ledger_inv_fields; cbn;
      by destruct (rd (deposits s) sender =? 0).
  - destruct Heff as (Hown & Hs & He & s2 & Hr & ->).
    pose proof (inner_reach_frame _ _ Hr) as (Hd & Ht & Hds & _ & Hen & _).
    assert (Heff : storage_effect sender Call_changeStateToRescue s
                     (set_currentState Rescue (set_totalDeposits 0
                        (set_deposits (zeroed (depositors s) (deposits s)) s))))
      by done.
    apply (ledger_inv_effect _ _ _ _ Hinv) in Heff.
    revert Heff. by apply ledger_inv_fields.
  - destruct Heff as (_ & _ & _ & _ & s2 & Hr & ->).
    pose proof (ledger_inv_inner_reach _ _ Hr Hinv) as Hinv2.
    revert Hinv2. by apply ledger_inv_fields.
  - destruct Heff as (_ & _ & _ & Hr). by eapply ledger_inv_inner_reach.
  - destruct Heff as (_ & _ & Hr). by eapply ledger_inv_inner_reach.
Qed.

Lemma ledger_inv_re_steps w w' :
  rtc Reentrant.step w w' -> ledger_inv (storage w) -> ledger_inv (storage w').
Proof.
  induction 1 as [|w1 w2 w3 Hstep _ IH]; [done|]. intros Hinv. apply IH.
  apply step_re_storage in Hstep as [-> | (sender & c & Heff)]; [done|].
  by eapply ledger_inv_re_effect.
Qed.

Lemma ledger_inv_re_reachable w :
  Reentrant.reachable w -> ledger_inv (storage w).
Proof.
  intros (w0 & Hdep & Hsteps).
  eapply ledger_inv_re_steps; [done|]. by apply ledger_inv_deployed.
Qed.

Lemma allocated_late_inner_reach s s2 :
  inner_reach s s2 -> allocated_late s -> allocated_late s2.
Proof.
  intros Hr (Hc & Ha). unfold allocated_late.
  apply inner_reach_frame in Hr
    as (_ & _ & _ & -> & _ & _ & _ & _ & Hadv & _ & Hal).
  split.
  - destruct Hc as [?|Hs]; [by left|]. right.
    rewrite Hs in Hadv. apply (advances_from_closed _ _ Hadv). by right.
  - destruct (decide (currentState s2 = Ended)) as [?|Hne]; [right; by left|].
    rewrite (Hal Hne). destruct Ha as [?|[Hs|Hs]]; [by left| |].
    + rewrite Hs in Hadv. destruct Hne.
      apply (advances_from_closed _ _ Hadv). by right.
    + right; right. rewrite Hs in Hadv.
      apply (advances_from_closed _ _ Hadv). by left.
Qed.

Lemma allocated_late_re_effect sender c s s' :
  allocated_late s -> reentrant_effect sender c s s' -> allocated_late s'.
Proof.
  intros Hinv Heff.
  destruct c; cbn [reentrant_effect storage_effect] in Heff.
  - destruct Heff as (_ & _ & _ & s2 & Hr & ->).
    apply (allocated_late_inner_reach _ _ Hr) in Hinv.
    unfold allocated_late in *. cbn. by destruct (rd (deposits s) sender =? 0).
  - destruct Heff as (_ & Hs & ->). destruct Hinv as (Hc & Ha).
    split; cbn; [destruct Hc as [?|?]; [by left|congruence]|].
    destruct Ha as [?|[?|?]]; [by left|congruence|congruence].
  - destruct Heff as (_ & Hs & _ & s2 & Hr & ->).
    destruct Hinv as (Hc & _).
    apply inner_reach_frame in Hr as (_ & _ & _ & Hcl & _).
    split; cbn; [|by right; right].
    left. rewrite Hcl. destruct Hc as [?|?]; [done|congruence].
  - destruct Heff as (_ & _ & ->). split; cbn; [by right|right; by left].
  - destruct Heff as (_ & Hs & _ & _ & ->). split; cbn; [by right|right; by left].
  - destruct Heff as (Hs & _ & _ & _ & s2 & Hr & ->).
    apply inner_reach_frame in Hr as (_ & _ & _ & _ & _ & _ & _ & _ & Hadv & _).
    rewrite Hs in Hadv.
    assert (currentState s2 = Ended)
      by (apply (advances_from_closed _ _ Hadv); by right).
    split; cbn; [by right|right; by left].
  - destruct Heff as (_ & _ & _ & Hr). by eapply allocated_late_inner_reach.
  - destruct Heff as (_ & _ & ->). done.
  - destruct Heff as (_ & _ & Hr). by eapply allocated_late_inner_reach.
Qed.

Lemma allocated_late_re_reachable w :
  Reentrant.reachable w -> allocated_late (storage w).
Proof.
  intros (w0 & (t & tk & o & fr & Hc) & Hsteps).
  assert (H0 : allocated_late (storage w0)).
  { unfold constructor in Hc. destruct (fr =? 0); [discriminate|].
    injection Hc as <-. split; by left. }
  clear Hc. induction Hsteps as [|w1 w2 w3 Hstep _ IH]; [done|].
  apply IH.
  apply step_re_storage in Hstep as [-> | (sender & c & Heff)]; [done|].
  by eapply allocated_late_re_effect.
Qed.

(** *** Failure *)

Lemma setAllocations_exceeds_after_writing users amounts w :
  currentState (storage w) = Ended ->
  length users = length amounts ->
  sumN amounts <= MAX_UINT256 ->
  totalDeposits (storage w) < sumN amounts ->
  setAllocations (owner (storage w)) users amounts w
  = Err (Revert "Allocation exceeds deposits")
      (set_storage
         (set_allocations (assign (allocations (storage w)) (zip users amounts))) w).
Proof.
  intros Hs Hlen Hmax Hlt. unfold setAllocations, onlyOwner, inState. run.
  rewrite require_run by apply N.eqb_refl. run.
  rewrite require_run by (by apply bool_decide_eq_true_2). run.
  rewrite require_run by (by apply Nat.eqb_eq). run.
  erewrite bind_run_log by (by apply setAllocations_loop_run). run.
  unfold require. simpl.
  destruct (N.leb_spec (sumN amounts) (totalDeposits (storage w))); [lia|].
  reflexivity.
Qed.

(** C8. Whatever the callees do, a call that fails leaves the world
    (storage, token and balances) as it was before the call, and the
    error it fails with is one of the errors of the contract. Each of
    them is raised at its check, and nothing the call did before the
    check remains:
    - a caller who is not the owner, at any owner-only function;
    - a state other than the one the function requires;
    - a [deposit] with another payment than the fee, with a fee
      recipient that does not take the fee, or with a token that refuses
      the pull;
    - [setAllocations] with arrays of different lengths, or with a sum
      above [totalDeposits]: the body had written the allocations when
      the check failed;
    - [claimTokens] without an allocation, with the flag already set, or
      with a token that refuses the payment: the body had set the flag
      when the transfer failed;
    - [rescueRemainingTokens] with a token balance not above the counted
      allocations, or with a token that refuses the payment;
    - [withdrawEther] with no balance, or with an owner that does not
      take it;
    - [updateFeeRecipient] with the zero address. *)
Theorem every_failure_is_rolled_back (h : Reentrant.Callee) w sender :
  entered (storage w) = false ->
  let o := owner (storage w) in
  let counted := sumN (map (rd (allocations (storage w))) (depositors (storage w))) in
  (forall c e w', Reentrant.transact h w sender c = (Failure e, w') ->
     w' = w /\ e ∈ contract_errors) /\
  (sender ≠ o -> forall c, owner_only c = true ->
     Reentrant.fails_with h w sender c (Revert "Only owner can call this")) /\
  (currentState (storage w) ≠ Graduating ->
     Reentrant.fails_with h w o Call_changeStateToLive
       (Revert "Invalid state for this action") /\
     Reentrant.fails_with h w o Call_changeStateToRescue
       (Revert "Invalid state for this action")) /\
  (currentState (storage w) ≠ Live ->
     Reentrant.fails_with h w o Call_changeStateToEnded
       (Revert "Invalid state for this action")) /\
  (currentState (storage w) ≠ Ended ->
     (forall users amounts,
         Reentrant.fails_with h w o (Call_setAllocations users amounts)
           (Revert "Invalid state for this action")) /\
     Reentrant.fails_with h w sender Call_claimTokens
       (Revert "Invalid state for this action") /\
     Reentrant.fails_with h w o Call_rescueRemainingTokens
       (Revert "Invalid state for this action")) /\
  (currentState (storage w) = Rescue \/ currentState (storage w) = Ended ->
     forall value amount,
       Reentrant.fails_with h w sender (Call_deposit value amount)
         (Revert "Deposits are not allowed in the current state")) /\
  (currentState (storage w) = Graduating \/ currentState (storage w) = Live ->
     (forall value amount, value ≠ DEPOSIT_FEE ->
        Reentrant.fails_with h w sender (Call_deposit value amount)
          (Revert "Incorrect ETH fee sent")) /\
     (forall amount, acceptsEther w (feeRecipient (storage w)) = false ->
        Reentrant.fails_with h w sender (Call_deposit DEPOSIT_FEE amount)
          (Revert "Failed to transfer ETH fee")) /\
     (forall amount, acceptsEther w (feeRecipient (storage w)) = true ->
        transferFrom (token w) (this w) sender (this w) amount = None ->
        Reentrant.fails_with h w sender (Call_deposit DEPOSIT_FEE amount)
          SafeERC20Failed)) /\
  (currentState (storage w) = Ended ->
     (forall users amounts, length users ≠ length amounts ->
        Reentrant.fails_with h w o (Call_setAllocations users amounts)
          (Revert "Mismatched input lengths")) /\
     (forall users amounts,
        length users = length amounts ->
        sumN amounts <= MAX_UINT256 ->
        totalDeposits (storage w) < sumN amounts ->
        Reentrant.fails_with h w o (Call_setAllocations users amounts)
          (Revert "Allocation exceeds deposits") /\
        exists w'',
          Reentrant.dispatch h o (Call_setAllocations users amounts) w
          = Err (Revert "Allocation exceeds deposits") w'' /\
          allocations (storage w'')
          = assign (allocations (storage w)) (zip users amounts)) /\
     (getAllocation (storage w) sender = 0 ->
        Reentrant.fails_with h w sender Call_claimTokens
          (Revert "No tokens allocated")) /\
     (getAllocation (storage w) sender ≠ 0 ->
      hasAddressClaimed (storage w) sender = true ->
        Reentrant.fails_with h w sender Call_claimTokens
          (Revert "Tokens already claimed")) /\
     (getAllocation (storage w) sender ≠ 0 ->
      hasAddressClaimed (storage w) sender = false ->
      transfer (token w) (this w) sender (getAllocation (storage w) sender) = None ->
        Reentrant.fails_with h w sender Call_claimTokens SafeERC20Failed /\
        exists w'',
          Reentrant.dispatch h sender Call_claimTokens w = Err SafeERC20Failed w'' /\
          hasAddressClaimed (storage w'') sender = true) /\
     (counted <= MAX_UINT256 ->
      balanceOf (token w) (this w) <= counted ->
        Reentrant.fails_with h w o Call_rescueRemainingTokens
          (Revert "No remaining tokens to rescue")) /\
     (counted <= MAX_UINT256 ->
      counted < balanceOf (token w) (this w) ->
      transfer (token w) (this w) o (balanceOf (token w) (this w) - counted) = None ->
        Reentrant.fails_with h w o Call_rescueRemainingTokens SafeERC20Failed)) /\
  (balance w = 0 ->
     Reentrant.fails_with h w o Call_withdrawEther (Revert "No ETH to withdraw")) /\
  (balance w ≠ 0 -> acceptsEther w o = false ->
     Reentrant.fails_with h w o Call_withdrawEther (Revert "Failed to withdraw ETH")) /\
  Reentrant.fails_with h w o (Call_updateFeeRecipient 0)
    (Revert "Invalid fee recipient address").
Proof.
  intros He o counted. unfold Reentrant.fails_with.
  pose proof (deposit_re_refused h w sender) as Hdep.
  split.
  { intros c e w' Htx. apply transact_re_failure in Htx as (-> & w'' & Hd).
    split; [done|]. by eapply dispatch_re_errors. }
  split.
  { intros Hne c Hc.
    destruct (not_the_owner_fails h w sender c Hc Hne) as (w'' & Hd).
    by eapply transact_re_err. }
  split.
  { intros Hs. split.
    - destruct (wrong_state_fails h w o Call_changeStateToLive Graduating)
        as (w'' & Hd); try done. by eapply transact_re_err.
    - destruct (wrong_state_fails h w o Call_changeStateToRescue Graduating)
        as (w'' & Hd); try done. by eapply transact_re_err. }
  split.
  { intros Hs.
    destruct (wrong_state_fails h w o Call_changeStateToEnded Live)
      as (w'' & Hd); try done. by eapply transact_re_err. }
  split.
  { intros Hs. split; [|split].
    - intros users amounts.
      destruct (wrong_state_fails h w o (Call_setAllocations users amounts) Ended)
        as (w'' & Hd); try done. by eapply transact_re_err.
    - destruct (wrong_state_fails h w sender Call_claimTokens Ended)
        as (w'' & Hd); try done. by eapply transact_re_err.
    - destruct (wrong_state_fails h w o Call_rescueRemainingTokens Ended)
        as (w'' & Hd); try done. by eapply transact_re_err. }
  split.
  { intros Hs value amount.
    destruct (Hdep value amount He) as (Hclosed & _).
    destruct (Hclosed Hs) as (w'' & Hd). by eapply transact_re_err. }
  split.
  { intros Hs. split; [|split].
    - intros value amount Hv.
      destruct (Hdep value amount He) as (_ & Hopen).
      destruct (Hopen Hs) as (Hfee & _).
      destruct (Hfee Hv) as (w'' & Hd). by eapply transact_re_err.
    - intros amount Hacc.
      destruct (Hdep DEPOSIT_FEE amount He) as (_ & Hopen).
      destruct (Hopen Hs) as (_ & Hfwd & _).
      destruct (Hfwd eq_refl Hacc) as (w'' & Hd). by eapply transact_re_err.
    - intros amount Hacc Ht.
      destruct (Hdep DEPOSIT_FEE amount He) as (_ & Hopen).
      destruct (Hopen Hs) as (_ & _ & Hpull).
      destruct (Hpull eq_refl Hacc Ht) as (w'' & Hd). by eapply transact_re_err. }
  split.
  { intros Hs.
    destruct (claimTokens_re_refused h w sender Hs He) as (Hnone & Htwice & Hpay).
    pose proof (rescueRemainingTokens_re_refused h w Hs He) as Hres.
    cbv zeta in Hres. fold counted o in Hres.
    split; [|split; [|split; [|split; [|split; [|split]]]]].
    - intros users amounts Hlen.
      destruct (setAllocations_refused w users amounts Hs) as (Hmis & _).
      destruct (Hmis Hlen) as (w'' & Hd). by eapply transact_re_err.
    - intros users amounts Hlen Hmax Hlt.
      pose proof (setAllocations_exceeds_after_writing users amounts w
                    Hs Hlen Hmax Hlt) as Hd.
      split; [by eapply transact_re_err|].
      eexists. split; [exact Hd|]. reflexivity.
    - intros Ha. destruct (Hnone Ha) as (w'' & Hd). by eapply transact_re_err.
    - intros Ha Hc. destruct (Htwice Ha Hc) as (w'' & Hd). by eapply transact_re_err.
    - intros Ha Hc Ht. destruct (Hpay Ha Hc Ht) as (w'' & Hd & Hflag).
      split; [by eapply transact_re_err|]. by exists w''.
    - intros Hmax Hle. destruct (Hres Hmax) as (Hno & _).
      destruct (Hno Hle) as (w'' & Hd). by eapply transact_re_err.
    - intros Hmax Hlt Ht. destruct (Hres Hmax) as (_ & Hrej).
      destruct (Hrej Hlt Ht) as (w'' & Hd). by eapply transact_re_err. }
  split.
  { intros Hz. destruct (withdrawEther_re_refused h w He) as (Hnone & _).
    destruct (Hnone Hz) as (w'' & Hd). by eapply transact_re_err. }
  split.
  { intros Hnz Hacc. destruct (withdrawEther_re_refused h w He) as (_ & Hrej).
    destruct (Hrej Hnz Hacc) as (w'' & Hd). by eapply transact_re_err. }
  eapply transact_re_err. apply updateFeeRecipient_refused.
Qed.

(** *** The contract under call-backs *)

(** X12. Nothing is allocated before the campaign has ended and nothing
    is claimed outside [Ended], whatever the callees do: in a reachable
    world whose state is [Graduating] or [Live] every allocation is
    zero, and in a reachable world whose state is not [Ended] no claim
    flag is set. (In [Rescue] an allocation can stand: the owner, called
    back during a refund, can end the campaign and allocate before
    [changeStateToRescue] writes its state.) *)
Theorem allocations_and_flags_wait_for_the_end w a :
  Reentrant.reachable w ->
  (currentState (storage w) = Graduating \/ currentState (storage w) = Live ->
   getAllocation (storage w) a = 0) /\
  (currentState (storage w) ≠ Ended ->
   hasAddressClaimed (storage w) a = false).
Proof.
  intros Hreach. destruct (allocated_late_re_reachable w Hreach) as (Hc & Ha).
  unfold getAllocation, hasAddressClaimed, rd, rdb. split.
  - intros Hs. destruct Ha as [->|[He|Hr]]; [by rewrite lookup_empty| |];
      destruct Hs; congruence.
  - intros Hne. destruct Hc as [->|?]; [by rewrite lookup_empty|done].
Qed.

(** X17. A successful call by anyone but the owner is a [deposit] or a
    [claimTokens], whatever the callees do. It leaves the balance and
    the flag of every other address as they were; the value it moves is
    the fee to the fee recipient, tokens pulled from the caller into the
    contract, and tokens paid to the caller; and the state, the
    allocations and the fee recipient after it are what the call-backs
    of the owner made of them, the state moving forward only. *)
Theorem a_stranger_touches_only_its_own_records (h : Reentrant.Callee)
    w sender c log w' :
  sender ≠ owner (storage w) ->
  Reentrant.transact h w sender c = (Success log, w') ->
  owner_only c = false /\
  (forall a, a ≠ sender ->
             getDeposit (storage w') a = getDeposit (storage w) a /\
             hasAddressClaimed (storage w') a = hasAddressClaimed (storage w) a) /\
  Forall (fun e => match e with
                   | TokenTransfer to _ => to = sender
                   | TokenTransferFrom from to _ => from = sender /\ to = this w
                   | EtherSent to v =>
                       to = feeRecipient (storage w) /\ v = DEPOSIT_FEE
                   | Emit _ => True
                   end) log /\
  (exists s2, inner_reach (storage w) s2 /\
              currentState (storage w') = currentState s2 /\
              allocations (storage w') = allocations s2 /\
              feeRecipient (storage w') = feeRecipient s2) /\
  advances (currentState (storage w)) (currentState (storage w')) = true.
Proof.
  intros Hne Htx. apply transact_re_success in Htx.
  pose proof (reentrant_effect_state _ _ _ _ (dispatch_re_effect _ _ _ _ _ _ Htx))
    as Hadv.
  assert (Hev : forall (P : effect -> Prop) l,
             (forall e, P (Emit e)) -> Forall is_event l -> Forall P l).
  { intros P l HP Hl. eapply Forall_impl; [exact Hl|].
    intros [e| | |]; try done; intros _; apply HP. }
  unfold getDeposit, hasAddressClaimed.
  destruct c; cbn [Reentrant.dispatch owner_only] in *.
  - inv_run.
    apply deposit_re_ok in Htx
      as ((_ & _ & _ & s2 & Hr & Hs') & -> & _ & _ & _ & _ & _ & _ &
          l1 & l2 & -> & Hl1 & Hl2).
    cbn [storage this set_balance] in *.
    pose proof (inner_reach_frame _ _ Hr) as (Hd & _ & _ & Hcl & _).
    rewrite Hs' in *. repeat split; try done.
    + cbn. destruct (rd (deposits (storage w)) sender =? 0); cbn;
        by rewrite rd_insert_ne, ?Hd.
    + cbn. destruct (rd (deposits (storage w)) sender =? 0); cbn; by rewrite Hcl.
    + constructor; [done|]. apply Forall_app. split; [by apply Hev|].
      constructor; [done|]. apply Forall_app. split; [by apply Hev|].
      by repeat constructor.
    + exists s2. split; [done|]. cbn.
      by destruct (rd (deposits (storage w)) sender =? 0).
  - by apply changeStateToLive_ok in Htx as (? & _).
  - by apply changeStateToRescue_re_ok in Htx as ((? & _) & _).
  - by apply changeStateToEnded_ok in Htx as (? & _).
  - by apply setAllocations_ok in Htx as (? & _).
  - apply claimTokens_re_ok in Htx
      as ((_ & _ & _ & _ & s2 & Hr & Hs') & _ & _ & _ & _ & l & -> & Hl).
    pose proof (inner_reach_frame _ _ Hr) as (Hd & _ & _ & Hcl & _).
    rewrite Hs' in *. repeat split; try done.
    + cbn. by rewrite Hd.
    + cbn. unfold rdb. by rewrite lookup_insert_ne, Hcl.
    + constructor; [done|]. apply Forall_app. split; [by apply Hev|].
      by repeat constructor.
    + by exists s2.
  - by apply rescueRemainingTokens_re_ok in Htx as ((? & _) & _).
  - by apply updateFeeRecipient_ok in Htx as (? & _).
  - by apply withdrawEther_re_ok in Htx as ((? & _) & _).
Qed.

(** X20. The life cycle between calls, whatever the callees do: along
    every execution the state after is one the life cycle reaches from
    the state before, and a campaign that is in [Rescue] or in [Ended]
    when a call begins is in that state when every later call has
    ended. *)
Theorem state_advances_between_calls w w' :
  rtc Reentrant.step w w' ->
  advances (currentState (storage w)) (currentState (storage w')) = true /\
  (currentState (storage w) = Rescue \/ currentState (storage w) = Ended ->
   currentState (storage w') = currentState (storage w)).
Proof.
  intros Hsteps. pose proof (advances_re_steps w w' Hsteps) as Hadv.
  split; [done|]. by apply advances_from_closed.
Qed.

(** X21. The deposit ledger is out of the reach of the call-backs: in
    every world reachable with callees that call back, [totalDeposits]
    is the sum of the balances and every address with a balance is in
    the depositor list; a successful [deposit] adds its amount to the
    balance of the caller and to [totalDeposits]; and a successful
    [changeStateToRescue] leaves every balance and [totalDeposits] at
    zero and the state at [Rescue], the refunds it sends adding up to
    the [totalDeposits] of before, each address receiving its own
    balance. *)
Theorem ledger_holds_under_call_backs w :
  Reentrant.reachable w ->
  totalDeposits (storage w) = sum_nonzero (deposits (storage w)) /\
  (forall a, getDeposit (storage w) a ≠ 0 -> a ∈ depositors (storage w)) /\
  (forall (h : Reentrant.Callee) sender value amount log w',
      Reentrant.transact h w sender (Call_deposit value amount) = (Success log, w') ->
      totalDeposits (storage w') = totalDeposits (storage w) + amount /\
      getDeposit (storage w') sender = getDeposit (storage w) sender + amount /\
      sender ∈ depositors (storage w')) /\
  (forall (h : Reentrant.Callee) sender log w',
      Reentrant.transact h w sender Call_changeStateToRescue = (Success log, w') ->
      sender = owner (storage w) /\
      currentState (storage w) = Graduating /\
      (forall a, getDeposit (storage w') a = 0) /\
      totalDeposits (storage w') = 0 /\
      currentState (storage w') = Rescue /\
      transferred log = totalDeposits (storage w) /\
      (forall a, transferred_to a log = getDeposit (storage w) a)).
Proof.
  intros Hreach. pose proof (ledger_inv_re_reachable w Hreach) as Hinv.
  pose proof Hinv as (Hsum & Hcov & Hent). unfold getDeposit.
  split; [by rewrite sum_nonzero_sum_map|]. split; [done|]. split.
  - intros h sender value amount log w' Htx.
    apply transact_re_success in Htx.
    pose proof (dispatch_re_effect _ _ _ _ _ _ Htx) as Heff.
    pose proof (ledger_inv_re_effect _ _ _ _ Hinv Heff) as (_ & Hcov' & _).
    destruct Heff as (_ & _ & _ & s2 & Hr & Hs').
    rewrite Hs' in *. cbn.
    assert (Hd : deposits (if rd (deposits (storage w)) sender =? 0
                         then push_depositor sender s2 else s2)
                 = deposits (storage w)).
    { apply inner_reach_frame in Hr as (Hd & _).
      by destruct (rd (deposits (storage w)) sender =? 0). }
    split; [done|]. rewrite rd_insert_eq. split; [done|].
    destruct (N.eqb_spec (rd (deposits (storage w)) sender) 0) as [Hz|Hz].
    + cbn. apply elem_of_app. right. by apply list_elem_of_singleton.
    + cbn. apply inner_reach_frame in Hr as (_ & _ & -> & _). by apply Hcov.
  - intros h sender log w' Htx.
    apply transact_re_success in Htx. cbn [Reentrant.dispatch] in Htx.
    apply changeStateToRescue_re_ok in Htx
      as ((Hown & Hst & _ & s2 & Hr & Hs') & _ & _ & _ & Hlog & Hlog').
    pose proof (zeroed_all_zero _ _ Hcov) as Hz.
    rewrite Hs'. cbn. repeat split; try done.
    + rewrite Hlog, transferred_refund_log.
      pose proof (refunds_sum (depositors (storage w)) (deposits (storage w))) as Hrs.
      rewrite (sum_map_all_zero _ Hz) in Hrs. lia.
    + intros a. rewrite Hlog', transferred_to_refund_log, refunds_to.
      case_decide as Hin; [lia|].
      destruct (decide (rd (deposits (storage w)) a = 0)) as [->|Hnz]; [done|].
      by destruct Hin; apply Hcov.
Qed.

Lemma step_is_step_with_quiet_callees w w' : step w w' -> Reentrant.step w w'.
Proof.
  intros [w0 sender c|w0 tk bal acc]; [|constructor].
  rewrite <- transact_quiet. constructor.
Qed.

Lemma reachable_is_reachable_with_call_backs w :
  reachable w -> Reentrant.reachable w.
Proof.
  intros (w0 & Hdep & Hsteps). exists w0. split; [done|]. clear Hdep.
  induction Hsteps as [|w1 w2 w3 Hstep _ IH]; [done|].
  eapply rtc_l; [by apply step_is_step_with_quiet_callees | exact IH].
Qed.

(** X22. The contract of the first part is the contract of this part
    run against callees that make no call: the two give the same receipt
    and the same world for every call; every execution of the first is
    an execution of the second; and while a [nonReentrant] function
    runs, a call into [deposit], [changeStateToRescue], [claimTokens],
    [rescueRemainingTokens] or [withdrawEther] fails, so that the only
    call-backs that get through are [changeStateToLive],
    [changeStateToEnded], [setAllocations] and [updateFeeRecipient], made
    by the owner. *)
Theorem call_backs_are_the_unguarded_functions w :
  (forall sender c,
      Reentrant.transact Reentrant.quiet w sender c = transact w sender c) /\
  (reachable w -> Reentrant.reachable w) /\
  (entered (storage w) = true ->
   forall sender c log w',
     transact w sender c = (Success log, w') ->
     sender = owner (storage w) /\
     (c = Call_changeStateToLive \/ c = Call_changeStateToEnded \/
      (exists users amounts, c = Call_setAllocations users amounts) \/
      (exists r, c = Call_updateFeeRecipient r)) /\
     inner_effect (storage w) (storage w') /\
     token w' = token w /\ balance w' = balance w /\ Forall is_event log).
Proof.
  split; [intros; apply transact_quiet|].
  split; [apply reachable_is_reachable_with_call_backs|].
  intros He sender c log w' Htx. apply transact_success in Htx.
  pose proof (inner_call_ok _ _ _ _ _ He Htx) as (_ & Ht & Hb & _ & Hin & Hlog).
  pose proof (guarded_call_fails_inside sender c w He) as Hg.
  repeat split; try done.
  - destruct c; cbn [dispatch] in Htx;
      try (destruct Hg as (e & w'' & Hg); cbn [dispatch] in Hg; congruence).
    + by apply changeStateToLive_ok in Htx as (? & _).
    + by apply changeStateToEnded_ok in Htx as (? & _).
    + by apply setAllocations_ok in Htx as (? & _).
    + by apply updateFeeRecipient_ok in Htx as (? & _).
  - destruct c;
      try (destruct Hg as (e & w'' & Hg); congruence); eauto 6.
Qed.

End Properties.

(** ** The statements on the concrete campaign *)

Lemma constructor_campaign0 :
  constructor "UGC" token_address the_owner the_recipient = inr campaign0.
Proof. reflexivity. Qed.

Lemma scenario_reachable (txs : list (N * call)) :
  reachable (transact_all world0 txs).
Proof.
  exists world0. split; [|apply transact_all_steps].
  exists "UGC"%string, token_address, the_owner, the_recipient. reflexivity.
Qed.

(** The scenarios of the specification run as it says. *)
Example scenario_deposits :
  totalDeposits (storage world_ended) = 150 /\
  depositors (storage world_ended) = [alice; bob] /\
  currentState (storage world_ended) = Ended.
Proof. vm_compute. auto. Qed.

Example scenario_allocate_and_claim :
  let w1 := snd (transact world_ended the_owner
                   (Call_setAllocations [alice; bob] [100; 40])) in
  let w2 := snd (transact w1 alice Call_claimTokens) in
  fst (transact w1 alice Call_claimTokens)
  = Success [TokenTransfer alice 100; Emit (TokensClaimed alice 100)] /\
  hasAddressClaimed (storage w2) alice = true /\
  fst (transact w2 alice Call_claimTokens)
  = Failure (Revert "Tokens already claimed") /\
  transact w2 the_owner (Call_setAllocations [alice; bob] [100; 60])
  = (Failure (Revert "Allocation exceeds deposits"), w2).
Proof. vm_compute. auto. Qed.

Example scenario_rescue :
  let w1 := snd (transact world_funded the_owner Call_changeStateToRescue) in
  totalDeposits (storage w1) = 0 /\
  currentState (storage w1) = Rescue /\
  balanceOf (token w1) alice = 1000 /\
  fst (transact w1 alice (Call_deposit DEPOSIT_FEE 1))
  = Failure (Revert "Deposits are not allowed in the current state").
Proof. vm_compute. auto. Qed.

(** A failing [setAllocations] had already written the allocations when
    its check failed; it is the rollback that undoes the writes. *)
Example setAllocations_writes_before_it_checks :
  exists w'',
    dispatch the_owner (Call_setAllocations [alice; bob] [100; 60]) world_ended
    = Err (Revert "Allocation exceeds deposits") w'' /\
    getAllocation (storage w'') alice = 100 /\
    getAllocation (storage world_ended) alice = 0.
Proof. eexists. vm_compute. auto. Qed.

(** C1, the statement as written fails: two calls, each within
    [totalDeposits], leave allocations that add up to more than
    [totalDeposits]; the second call counted its own amount only. *)
Lemma allocations_exceed_totalDeposits :
  reachable world_overallocated /\
  transact world_allocated the_owner (Call_setAllocations [bob] [100])
  = (Success [Emit (AllocationsSet bob 100)], world_overallocated) /\
  totalDeposits (storage world_overallocated) = 150 /\
  sum_map (allocations (storage world_overallocated)) = 200 /\
  ~ (sum_map (allocations (storage world_overallocated))
     <= totalDeposits (storage world_overallocated)).
Proof.
  split; [do 2 apply reachable_transact_all; apply scenario_reachable|].
  vm_compute. repeat split; try reflexivity. intros Hle. by apply Hle.
Qed.

Lemma setAllocations_checks_this_call_only_witness :
  transact world_allocated (owner (storage world_allocated))
    (Call_setAllocations [bob] [100])
  = (Success [Emit (AllocationsSet bob 100)], world_overallocated).
Proof.
  rewrite (setAllocations_checks_this_call_only world_allocated [bob] [100]).
  - vm_compute. reflexivity.
  - vm_compute. reflexivity.
  - reflexivity.
Defined.

(** C2, the failing input: a depositor whose balance is still zero is
    appended again, so an address that deposits zero twice (or zero and
    then an amount) is in the list twice. *)
Theorem deposit_zero_lists_depositor_twice :
  transact world0 alice (Call_deposit DEPOSIT_FEE 0)
  = (Success [EtherSent the_recipient DEPOSIT_FEE;
              TokenTransferFrom alice campaign_address 0;
              Emit (Deposit alice 0 DEPOSIT_FEE)],
     transact_all world0 [(alice, Call_deposit DEPOSIT_FEE 0)]) /\
  depositors (storage world_zero_twice) = [alice; alice] /\
  depositors
    (storage (transact_all world0
                [(alice, Call_deposit DEPOSIT_FEE 0);
                 (alice, Call_deposit DEPOSIT_FEE 100)])) = [alice; alice] /\
  ~ NoDup (depositors (storage world_zero_twice)).
Proof.
  repeat split; try (vm_compute; reflexivity).
  assert (Hd : depositors (storage world_zero_twice) = [alice; alice])
    by (vm_compute; reflexivity).
  rewrite Hd. intros Hnd. apply NoDup_cons in Hnd as [Hin _].
  apply Hin, elem_of_cons. by left.
Qed.



Lemma totalDeposits_is_sum_of_deposits_witness :
  totalDeposits (storage world_ended) = sum_nonzero (deposits (storage world_ended)).
Proof.
  exact (proj1 (totalDeposits_is_sum_of_deposits world_ended
                  (scenario_reachable _))).
Defined.

Lemma changeStateToRescue_refunds_all_witness :
  transferred [TokenTransfer alice 100; Emit (FundsRescued alice 100);
               TokenTransfer bob 50; Emit (FundsRescued bob 50);
               Emit (StateChanged Rescue)]
  = totalDeposits (storage world_funded).
Proof.
  edestruct (changeStateToRescue_refunds_all world_funded the_owner)
    as (_ & _ & _ & _ & _ & Hsum & _).
  - apply scenario_reachable.
  - vm_compute. reflexivity.
  - exact Hsum.
Defined.

Lemma claimTokens_at_most_once_witness :
  let w1 := snd (transact world_allocated alice Call_claimTokens) in
  transact w1 alice Call_claimTokens
  = (Failure (Revert "Tokens already claimed"), w1).
Proof.
  intros w1.
  destruct (claimTokens_at_most_once world_allocated alice) as (_ & _ & _ & Hok).
  - vm_compute. reflexivity.
  - destruct (Hok [TokenTransfer alice 100; Emit (TokensClaimed alice 100)] w1)
      as (_ & _ & _ & _ & Hagain & _).
    + vm_compute. reflexivity.
    + exact Hagain.
Defined.

Lemma non_depositor_is_allocated_and_claims_witness :
  exists w1 w2,
    transact world_ended (owner (storage world_ended))
      (Call_setAllocations [carol] [50])
    = (Success [Emit (AllocationsSet carol 50)], w1) /\
    transact w1 carol Call_claimTokens
    = (Success [TokenTransfer carol 50; Emit (TokensClaimed carol 50)], w2) /\
    rdb (hasClaimed (storage w2)) carol = true.
Proof.
  edestruct (non_depositor_is_allocated_and_claims world_ended carol 50)
    as (w1 & w2 & Hset & _ & _ & Hclaim & _ & Hflag).
  - vm_compute. reflexivity.
  - vm_compute. reflexivity.
  - intros Hin. apply list_elem_of_In in Hin. vm_compute in Hin.
    destruct Hin as [Heq|[Heq|[]]]; discriminate Heq.
  - vm_compute. reflexivity.
  - vm_compute. reflexivity.
  - reflexivity.
  - vm_compute. discriminate.
  - vm_compute. discriminate.
  - vm_compute. reflexivity.
  - exists w1, w2. split; [exact Hset|]. split; [exact Hclaim | exact Hflag].
Defined.

Lemma rescueRemainingTokens_counts_depositors_only_witness :
  [TokenTransfer the_owner 50; Emit (RemainingTokensRescued 50)]
  = [TokenTransfer (owner (storage world_outsider))
       (balanceOf (token world_outsider) (this world_outsider)
        - sumN (map (rd (allocations (storage world_outsider)))
                  (depositors (storage world_outsider))));
     Emit (RemainingTokensRescued
             (balanceOf (token world_outsider) (this world_outsider)
              - sumN (map (rd (allocations (storage world_outsider)))
                        (depositors (storage world_outsider)))))].
Proof.
  edestruct (rescueRemainingTokens_counts_depositors_only world_outsider the_owner)
    as (_ & _ & Hlog & _).
  - vm_compute. reflexivity.
  - exact Hlog.
Defined.

(** The sweep of C10 on the concrete campaign: [carol], who is not a
    depositor, holds an unclaimed allocation of 50 and the contract holds
    150 for allocations of 150; the owner sweeps 50, and once [alice] has
    claimed her 100 the claim of [carol] cannot be paid. *)
Example sweep_takes_the_backing_of_an_outsider :
  let w1 := snd (transact world_outsider the_owner Call_rescueRemainingTokens) in
  let w2 := snd (transact w1 alice Call_claimTokens) in
  getAllocation (storage world_outsider) carol = 50 /\
  hasAddressClaimed (storage world_outsider) carol = false /\
  balanceOf (token world_outsider) campaign_address = 150 /\
  fst (transact world_outsider the_owner Call_rescueRemainingTokens)
  = Success [TokenTransfer the_owner 50; Emit (RemainingTokensRescued 50)] /\
  fst (transact w1 alice Call_claimTokens)
  = Success [TokenTransfer alice 100; Emit (TokensClaimed alice 100)] /\
  transact w2 carol Call_claimTokens = (Failure SafeERC20Failed, w2).
Proof. vm_compute. repeat split; reflexivity. Qed.

(** ** The allocation script: [parseCSV] *)

Lemma split_cons (sep c : N) (s : list N) :
  split sep (c :: s)
  = if c =? sep then [] :: split sep s
    else match split sep s with
         | field :: fields => (c :: field) :: fields
         | [] => [[c]]
         end.
Proof. reflexivity. Qed.

Lemma split_not_nil (sep : N) (s : list N) : split sep s ≠ [].
Proof.
  induction s as [|c s IH]; [done|]. rewrite split_cons.
  destruct (c =? sep); [done|]. by destruct (split sep s).
Qed.

Lemma length_split (sep : N) (s : list N) :
  length (split sep s) = S (length (filter (fun c => c = sep) s)).
Proof.
  induction s as [|c s IH]; [done|]. rewrite split_cons, filter_cons.
  destruct (N.eqb_spec c sep) as [->|Hne].
  - rewrite decide_True by done. cbn [length]. by rewrite IH.
  - rewrite decide_False by done. rewrite <- IH.
    pose proof (split_not_nil sep s). by destruct (split sep s).
Qed.

Lemma split_fields_free (sep : N) (s f : list N) :
  f ∈ split sep s -> sep ∉ f.
Proof.
  revert f. induction s as [|c s IH]; intros f Hf.
  - apply list_elem_of_singleton in Hf as ->. apply not_elem_of_nil.
  - rewrite split_cons in Hf. destruct (N.eqb_spec c sep) as [->|Hne].
    + apply elem_of_cons in Hf as [->|Hf]; [apply not_elem_of_nil | by apply IH].
    + pose proof (split_not_nil sep s) as Hnil.
      destruct (split sep s) as [|g gs]; [done|].
      apply elem_of_cons in Hf as [->|Hf].
      * apply not_elem_of_cons. split; [done|]. apply IH, elem_of_cons. by left.
      * apply IH, elem_of_cons. by right.
Qed.

Lemma split_free (sep : N) (f : list N) : sep ∉ f -> split sep f = [f].
Proof.
  induction f as [|c f IH]; intros Hf; [done|].
  apply not_elem_of_cons in Hf as [Hne Hf]. rewrite split_cons, (IH Hf).
  by destruct (N.eqb_spec c sep).
Qed.

Lemma split_app_sep (sep : N) (f rest : list N) :
  sep ∉ f -> split sep (f ++ sep :: rest) = f :: split sep rest.
Proof.
  induction f as [|c f IH]; intros Hf.
  - cbn [app]. rewrite split_cons. by rewrite N.eqb_refl.
  - apply not_elem_of_cons in Hf as [Hne Hf]. cbn [app].
    rewrite split_cons, (IH Hf). by destruct (N.eqb_spec c sep).
Qed.

Lemma trimStart_incl (s : list N) (x : N) : x ∈ trimStart s -> x ∈ s.
Proof.
  induction s as [|c s IH]; [done|]. cbn [trimStart].
  destruct (is_whitespace c); [|done]. intros Hx. apply elem_of_cons. right. auto.
Qed.

Lemma elem_of_rev (l : list N) (x : N) : x ∈ rev l <-> x ∈ l.
Proof. rewrite !list_elem_of_In. symmetry. apply in_rev. Qed.

Lemma trim_incl (s : list N) (x : N) : x ∈ trim s -> x ∈ s.
Proof.
  unfold trim, trimEnd. intros Hx.
  apply (proj1 (elem_of_rev _ _)) in Hx. apply trimStart_incl in Hx.
  apply (proj1 (elem_of_rev _ _)) in Hx. by apply trimStart_incl.
Qed.

Lemma trimStart_idem (s : list N) : trimStart (trimStart s) = trimStart s.
Proof.
  induction s as [|c s IH]; [done|]. cbn [trimStart].
  destruct (is_whitespace c) eqn:Hc; [done|]. cbn [trimStart]. by rewrite Hc.
Qed.

Lemma trimStart_head (s : list N) :
  trimStart s = [] \/
  exists c m, trimStart s = c :: m /\ is_whitespace c = false.
Proof.
  induction s as [|c s IH]; [by left|]. cbn [trimStart].
  destruct (is_whitespace c) eqn:Hc; [done|]. right. eauto.
Qed.

Lemma trimStart_snoc (s : list N) (c : N) :
  is_whitespace c = false -> trimStart (s ++ [c]) = trimStart s ++ [c].
Proof.
  intros Hc. induction s as [|x s IH]; cbn [app trimStart].
  - by rewrite Hc.
  - by destruct (is_whitespace x).
Qed.

Lemma trimEnd_cons (c : N) (m : list N) :
  is_whitespace c = false -> trimEnd (c :: m) = c :: trimEnd m.
Proof.
  intros Hc. unfold trimEnd. cbn [rev].
  by rewrite trimStart_snoc, rev_app_distr.
Qed.

Lemma trimEnd_idem (s : list N) : trimEnd (trimEnd s) = trimEnd s.
Proof. unfold trimEnd. by rewrite rev_involutive, trimStart_idem. Qed.

Lemma trim_idem (s : list N) : trim (trim s) = trim s.
Proof.
  unfold trim. destruct (trimStart_head s) as [->|(c & m & -> & Hc)]; [done|].
  rewrite trimEnd_cons by done. cbn [trimStart]. rewrite Hc.
  by rewrite trimEnd_cons, trimEnd_idem.
Qed.

(** X18. What [parseCSV] returns: one field more than the string has
    commas (so never an empty array: the empty string gives one empty
    field, and a trailing comma gives a last empty field), and every
    field is free of commas and has no white space left at either end
    (trimming it again changes nothing). *)
Theorem parseCSV_fields (str : list N) :
  length (parseCSV str) = S (length (filter (fun c => c = comma) str)) /\
  (forall f, f ∈ parseCSV str -> (comma ∉ f) /\ trim f = f).
Proof.
  unfold parseCSV. split; [by rewrite length_map, length_split|].
  intros f Hf. change (map ?g ?l) with (g <$> l) in Hf.
  apply list_elem_of_fmap in Hf as (g & -> & Hg). split; [|apply trim_idem].
  intros Hc. apply trim_incl in Hc. by apply (split_fields_free comma str g).
Qed.

Lemma split_join (fields : list (list N)) :
  fields ≠ [] ->
  (forall f, f ∈ fields -> comma ∉ f) ->
  split comma (join fields) = fields.
Proof.
  induction fields as [|f fields IH]; intros Hnil Hfree; [done|].
  destruct fields as [|g fields].
  - cbn [join]. apply split_free, Hfree, elem_of_cons. by left.
  - change (join (f :: g :: fields)) with (f ++ comma :: join (g :: fields)).
    rewrite split_app_sep by (apply Hfree, elem_of_cons; by left).
    rewrite IH; [done | done |].
    intros h Hh. apply Hfree, elem_of_cons. by right.
Qed.

(** X19. Round trip with [join]: fields that hold no comma, joined
    with commas and parsed, come back in order and one for one, each
    stripped of the white space around it; the number of entries the
    script then compares is the number of fields written. *)
Theorem parseCSV_join (fields : list (list N)) :
  fields ≠ [] ->
  (forall f, f ∈ fields -> comma ∉ f) ->
  parseCSV (join fields) = map trim fields /\
  length (parseCSV (join fields)) = length fields.
Proof.
  intros Hnil Hfree. unfold parseCSV. rewrite split_join by done.
  by rewrite length_map.
Qed.

(** ** The further statements on the concrete campaign *)

Lemma only_the_owner_may_call_witness :
  transact world0 alice Call_changeStateToLive
  = (Failure (Revert "Only owner can call this"), world0).
Proof.
  apply (only_the_owner_may_call world0 alice Call_changeStateToLive).
  - reflexivity.
  - intros Heq. vm_compute in Heq. discriminate Heq.
Defined.

Lemma owner_title_token_never_change_witness :
  owner (storage world_ended) = owner (storage world0).
Proof.
  exact (proj1 (owner_title_token_never_change world0 world_ended
                  (transact_all_steps _ world0))).
Defined.

Lemma feeRecipient_is_never_zero_witness :
  feeRecipient (storage world_ended) ≠ 0.
Proof.
  exact (feeRecipient_is_never_zero world_ended (scenario_reachable _)).
Defined.

Lemma updateFeeRecipient_redirects_the_fee_witness :
  transact world0 (owner (storage world0)) (Call_updateFeeRecipient carol)
  = (Success [], set_storage (set_feeRecipient carol) world0).
Proof.
  refine (proj1 (updateFeeRecipient_redirects_the_fee world0 carol _)).
  intros Heq. vm_compute in Heq. discriminate Heq.
Defined.

Lemma owner_walks_to_Ended_witness :
  transact world0 (owner (storage world0)) Call_changeStateToLive
  = (Success [Emit (StateChanged Live)],
     set_storage (set_currentState Live) world0).
Proof.
  refine (proj1 (owner_walks_to_Ended world0 _)). reflexivity.
Defined.

Lemma withdrawEther_sends_the_whole_balance_witness :
  transact world_with_ether (owner (storage world_with_ether)) Call_withdrawEther
  = (Success [EtherSent the_owner 7], set_balance 0 world_with_ether).
Proof.
  rewrite (withdrawEther_sends_the_whole_balance world_with_ether).
  - vm_compute. reflexivity.
  - reflexivity.
Defined.

Lemma deposit_refusals_witness :
  transact world_ended alice (Call_deposit DEPOSIT_FEE 1)
  = (Failure (Revert "Deposits are not allowed in the current state"),
     world_ended).
Proof.
  destruct (deposit_refusals world_ended alice DEPOSIT_FEE 1) as [Hstate _].
  - vm_compute. reflexivity.
  - apply Hstate. right. vm_compute. reflexivity.
Defined.

Lemma deposit_records_the_amount_witness :
  exists w' : @World ERC20.t,
    getDeposit (storage w') alice = getDeposit (storage world0) alice + 100 /\
    totalDeposits (storage w') = totalDeposits (storage world0) + 100.
Proof.
  edestruct (deposit_records_the_amount world0 alice 100)
    as (w' & _ & Hdep & _ & Htot & _).
  - apply (scenario_reachable []).
  - left. reflexivity.
  - reflexivity.
  - vm_compute. reflexivity.
  - vm_compute. discriminate.
  - exists w'. split; [exact Hdep | exact Htot].
Defined.

Lemma getDepositors_lists_every_balance_witness :
  sumN (snd (getDepositors (storage world_ended)))
  = totalDeposits (storage world_ended).
Proof.
  destruct (getDepositors_lists_every_balance world_ended (scenario_reachable _))
    as (_ & _ & _ & Hsum).
  apply Hsum. apply (bool_decide_unpack _). vm_compute. exact I.
Defined.

Lemma depositors_only_grow_witness :
  depositors (storage world0) `prefix_of` depositors (storage world_ended).
Proof.
  exact (depositors_only_grow world0 world_ended (transact_all_steps _ world0)).
Defined.

Lemma deposit_ledger_is_closed_after_the_end_witness :
  totalDeposits (storage world_allocated) = totalDeposits (storage world_ended).
Proof.
  destruct (deposit_ledger_is_closed_after_the_end world_ended world_allocated)
    as (_ & _ & Htot & _).
  - right. vm_compute. reflexivity.
  - apply transact_all_steps.
  - exact Htot.
Defined.

Lemma flag_is_set_by_own_claim_only_witness :
  0 < getAllocation (storage world_allocated) alice.
Proof.
  edestruct (flag_is_set_by_own_claim_only world_allocated alice Call_claimTokens
               [TokenTransfer alice 100; Emit (TokensClaimed alice 100)]
               (snd (transact world_allocated alice Call_claimTokens)) alice)
    as (_ & _ & _ & Hpos & _).
  - vm_compute. reflexivity.
  - vm_compute. reflexivity.
  - vm_compute. reflexivity.
  - exact Hpos.
Defined.

Lemma setAllocations_last_entry_wins_witness :
  exists w' : @World ERC20.t,
    transact world_ended (owner (storage world_ended))
      (Call_setAllocations [alice; alice] [10; 20])
    = (Success (assign_log (zip [alice; alice] [10; 20])), w') /\
    getAllocation (storage w') alice
    = default (getAllocation (storage world_ended) alice)
        (latest (zip [alice; alice] [10; 20]) alice).
Proof.
  destruct (setAllocations_last_entry_wins world_ended [alice; alice] [10; 20])
    as (_ & Hok).
  - vm_compute. reflexivity.
  - destruct Hok as (w' & Htx & Hlast & _).
    + reflexivity.
    + vm_compute. discriminate.
    + vm_compute. discriminate.
    + exists w'. split; [exact Htx | exact (Hlast alice)].
Defined.

Lemma one_refused_refund_blocks_the_rescue_witness :
  transact world_refusing (owner (storage world_refusing))
    Call_changeStateToRescue
  = (Failure SafeERC20Failed, world_refusing).
Proof.
  apply (one_refused_refund_blocks_the_rescue world_refusing dave).
  - vm_compute. reflexivity.
  - vm_compute. reflexivity.
  - apply list_elem_of_In. vm_compute. auto.
  - vm_compute. reflexivity.
  - intros t a. reflexivity.
Defined.

Lemma sweep_deducts_claimed_allocations_witness :
  fst (transact (set_storage (set_hasClaimed {[alice := true]}) world_outsider)
         the_owner Call_rescueRemainingTokens)
  = Success [TokenTransfer the_owner 50; Emit (RemainingTokensRescued 50)].
Proof.
  edestruct (sweep_deducts_claimed_allocations world_outsider the_owner)
    as (Hflags & _).
  - vm_compute. reflexivity.
  - rewrite (Hflags {[alice := true]}). reflexivity.
Defined.

Lemma parseCSV_fields_witness :
  length (parseCSV [97; 44; 32; 98; 44])
  = S (length (filter (fun c => c = comma) [97; 44; 32; 98; 44])).
Proof. exact (proj1 (parseCSV_fields [97; 44; 32; 98; 44])). Defined.

Lemma parseCSV_join_witness :
  parseCSV (join [[97]; [32; 98; 32]]) = map trim [[97]; [32; 98; 32]].
Proof.
  refine (proj1 (parseCSV_join [[97]; [32; 98; 32]] _ _)).
  - discriminate.
  - intros f Hf Hc. apply list_elem_of_In in Hf. apply list_elem_of_In in Hc.
    destruct Hf as [<-|[<-|[]]]; vm_compute in Hc; intuition discriminate.
Defined.

(** What [parseCSV] makes of two lines of a [.env] file: the blanks
    around the fields go, a trailing comma leaves an empty last field. *)
Example parseCSV_examples :
  parseCSV [97; 44; 32; 98] = [[97]; [98]] /\
  parseCSV [97; 44; 32; 98; 44] = [[97]; [98]; []] /\
  parseCSV [] = [[]].
Proof. vm_compute. auto. Qed.

(** ** The owner that calls back *)

Lemma scenario_owner_reachable (txs : list (N * call)) :
  Reentrant.reachable (transact_all world_owner0 txs).
Proof.
  apply reachable_is_reachable_with_call_backs.
  exists world_owner0. split; [|apply transact_all_steps].
  exists "UGC"%string, token_address, the_owner, the_recipient. reflexivity.
Qed.

Lemma world_rescued_reachable : Reentrant.reachable world_rescued.
Proof.
  destruct (scenario_owner_reachable
              [(the_owner, Call_deposit DEPOSIT_FEE 10);
               (alice, Call_deposit DEPOSIT_FEE 100)]) as (w0 & Hdep & Hsteps).
  exists w0. split; [done|].
  eapply rtc_r; [exact Hsteps | apply Reentrant.step_call].
Qed.

(** C5, the failing input. The owner is a contract that has deposited
    10, and the token hands control to the receiver of a transfer. The
    owner calls [changeStateToRescue] in [Graduating]; while it is being
    refunded it calls [changeStateToLive], [changeStateToEnded] and
    [setAllocations], which have no [nonReentrant] and pass their
    checks; the loop goes on, and the function then writes [Rescue] over
    [Ended]. The events of the call record the state going to [Live], to
    [Ended] and from there to [Rescue], which is no edge of the life
    cycle, and the campaign is left in [Rescue] with an allocation
    standing. *)
Theorem changeStateToRescue_overwrites_Ended :
  let log := [TokenTransfer the_owner 10;
              Emit (StateChanged Live);
              Emit (StateChanged Ended);
              Emit (AllocationsSet carol 5);
              Emit (FundsRescued the_owner 10);
              TokenTransfer alice 100;
              Emit (FundsRescued alice 100);
              Emit (StateChanged Rescue)] in
  currentState (storage world_owner_funded) = Graduating /\
  Reentrant.transact owner_calls_back world_owner_funded the_owner
    Call_changeStateToRescue
  = (Success log, world_rescued) /\
  state_changes log = [Live; Ended; Rescue] /\
  legal_transition Ended Rescue = false /\
  advances Ended Rescue = false /\
  currentState (storage world_rescued) = Rescue /\
  getAllocation (storage world_rescued) carol = 5.
Proof. vm_compute. repeat split; reflexivity. Qed.

(** The same owner as fee recipient: the deposit of [alice] pays it the
    fee; while it is paid it starts the campaign, ends it and allocates,
    and the deposit is then recorded in a campaign that has [Ended]. *)
Example deposit_of_a_stranger_ends_the_campaign :
  let tx := Reentrant.transact owner_calls_back world_owner_paid alice
              (Call_deposit DEPOSIT_FEE 100) in
  currentState (storage world_owner_paid) = Graduating /\
  fst tx = Success [EtherSent the_owner DEPOSIT_FEE;
                    Emit (StateChanged Live);
                    Emit (StateChanged Ended);
                    Emit (AllocationsSet carol 5);
                    TokenTransferFrom alice campaign_address 100;
                    Emit (Deposit alice 100 DEPOSIT_FEE)] /\
  currentState (storage (snd tx)) = Ended /\
  getAllocation (storage (snd tx)) carol = 5 /\
  getDeposit (storage (snd tx)) alice = 100 /\
  totalDeposits (storage (snd tx)) = 150.
Proof. vm_compute. repeat split; reflexivity. Qed.

(** A call-back into a [nonReentrant] function fails at the guard: an
    owner that calls [withdrawEther] again while it is paid gets the
    balance once. *)
Example guarded_call_back_fails :
  let again : @Reentrant.Callee ERC20.t :=
    {| Reentrant.on_value := fun _ _ _ => [(the_owner, Call_withdrawEther)];
       Reentrant.on_transfer := fun _ _ _ => [];
       Reentrant.on_transferFrom := fun _ _ _ _ => [] |} in
  fst (Reentrant.transact again world_with_ether the_owner Call_withdrawEther)
  = Success [EtherSent the_owner 7] /\
  dispatch the_owner Call_withdrawEther
    (set_storage (set_entered true) (set_balance 0 world_with_ether))
  = Err (Revert "ReentrancyGuard: reentrant call")
      (set_storage (set_entered true) (set_balance 0 world_with_ether)).
Proof. vm_compute. repeat split; reflexivity. Qed.

(** A deposit that fails at the pull: the fee had been paid and the
    owner, called back, had ended the campaign and allocated when the
    token refused; afterwards the world is what it was, the campaign
    [Graduating] and nothing allocated. *)
Example failed_deposit_undoes_the_call_backs :
  (exists w'',
      Reentrant.dispatch owner_calls_back alice (Call_deposit DEPOSIT_FEE 5000)
        world_owner_paid
      = Err SafeERC20Failed w'' /\
      currentState (storage w'') = Ended /\
      getAllocation (storage w'') carol = 5) /\
  currentState (storage world_owner_paid) = Graduating /\
  getAllocation (storage world_owner_paid) carol = 0 /\
  Reentrant.transact owner_calls_back world_owner_paid alice
    (Call_deposit DEPOSIT_FEE 5000)
  = (Failure SafeERC20Failed, world_owner_paid).
Proof. split; [eexists|]; vm_compute; repeat split; reflexivity. Qed.

Lemma every_failure_is_rolled_back_witness :
  Reentrant.fails_with owner_calls_back world_owner_paid alice
    (Call_deposit DEPOSIT_FEE 5000) SafeERC20Failed.
Proof.
  pose proof (every_failure_is_rolled_back owner_calls_back world_owner_paid alice)
    as H.
  cbv zeta in H.
  destruct H as (_ & _ & _ & _ & _ & _ & Hdep & _).
  - vm_compute. reflexivity.
  - destruct Hdep as (_ & _ & Hpull).
    + left. vm_compute. reflexivity.
    + apply Hpull.
      * vm_compute. reflexivity.
      * vm_compute. reflexivity.
Defined.

Lemma allocations_and_flags_wait_for_the_end_witness :
  hasAddressClaimed (storage world_rescued) carol = false.
Proof.
  destruct (allocations_and_flags_wait_for_the_end world_rescued carol
              world_rescued_reachable) as (_ & Hflag).
  apply Hflag. vm_compute. discriminate.
Defined.

Lemma a_stranger_touches_only_its_own_records_witness :
  getDeposit
    (storage (snd (Reentrant.transact owner_calls_back world_owner_paid alice
                     (Call_deposit DEPOSIT_FEE 100)))) bob
  = getDeposit (storage world_owner_paid) bob.
Proof.
  destruct (a_stranger_touches_only_its_own_records owner_calls_back
              world_owner_paid alice (Call_deposit DEPOSIT_FEE 100)
              [EtherSent the_owner DEPOSIT_FEE;
               Emit (StateChanged Live);
               Emit (StateChanged Ended);
               Emit (AllocationsSet carol 5);
               TokenTransferFrom alice campaign_address 100;
               Emit (Deposit alice 100 DEPOSIT_FEE)]
              (snd (Reentrant.transact owner_calls_back world_owner_paid alice
                      (Call_deposit DEPOSIT_FEE 100))))
    as (_ & Hothers & _).
  - vm_compute. discriminate.
  - vm_compute. reflexivity.
  - destruct (Hothers bob) as (Hd & _); [vm_compute; discriminate | exact Hd].
Defined.

Lemma state_advances_between_calls_witness :
  currentState
    (storage (snd (Reentrant.transact owner_calls_back world_allocated the_owner
                     Call_rescueRemainingTokens)))
  = currentState (storage world_allocated).
Proof.
  destruct (state_advances_between_calls world_allocated
              (snd (Reentrant.transact owner_calls_back world_allocated the_owner
                      Call_rescueRemainingTokens))) as (_ & Hclosed).
  - apply rtc_once, Reentrant.step_call.
  - apply Hclosed. right. vm_compute. reflexivity.
Defined.

Lemma ledger_holds_under_call_backs_witness :
  transferred [TokenTransfer the_owner 10;
               Emit (StateChanged Live);
               Emit (StateChanged Ended);
               Emit (AllocationsSet carol 5);
               Emit (FundsRescued the_owner 10);
               TokenTransfer alice 100;
               Emit (FundsRescued alice 100);
               Emit (StateChanged Rescue)]
  = totalDeposits (storage world_owner_funded).
Proof.
  destruct (ledger_holds_under_call_backs world_owner_funded
              (scenario_owner_reachable _)) as (_ & _ & _ & Hrescue).
  destruct (Hrescue owner_calls_back the_owner
              [TokenTransfer the_owner 10;
               Emit (StateChanged Live);
               Emit (StateChanged Ended);
               Emit (AllocationsSet carol 5);
               Emit (FundsRescued the_owner 10);
               TokenTransfer alice 100;
               Emit (FundsRescued alice 100);
               Emit (StateChanged Rescue)]
              world_rescued) as (_ & _ & _ & _ & _ & Hsum & _).
  - vm_compute. reflexivity.
  - exact Hsum.
Defined.

Lemma call_backs_are_the_unguarded_functions_witness :
  Reentrant.transact Reentrant.quiet world0 alice (Call_deposit DEPOSIT_FEE 100)
  = transact world0 alice (Call_deposit DEPOSIT_FEE 100).
Proof.
  exact (proj1 (call_backs_are_the_unguarded_functions world0) alice
           (Call_deposit DEPOSIT_FEE 100)).
Defined.
